(** * Post-processing pipeline: a shallow embedding of the TypeScript sources

    The development follows the three source files it embeds:
    - [src/materials/EffectMaterial.ts]  (module [EffectMaterial]),
    - [src/effects/ScanlineEffect.ts]    (module [ScanlineEffect]),
    - [src/core/RenderPipeline.ts]       (module [RenderPipeline]).

    Conventions.  A JavaScript [number] that carries a pixel size is an
    integer ([Z]); scale factors, densities, speeds and timestamps are
    doubles, each held as the rational ([Q]) that it stands for.  A product
    of two numbers is rounded to the nearest double ([number_mul]), as the
    [*] of JavaScript does; [Math.round] and [Math.floor] are exact.  The
    effective size of a resolution, which is not among the sources, is the
    [round(base × scale)] of the specification.
    JavaScript objects used as dictionaries and [Map]s are [gmap]s; objects
    with identity (passes, renderers, pipelines) live in stores indexed by
    [nat] references. *)

From Stdlib Require Import ZArith QArith Qround Qabs String Ascii List Lia.
From stdpp Require Import base option list gmap strings.

Close Scope Q_scope.

(** ** JavaScript primitives *)

(** [Math.round]: the nearest integer, a tie going to the larger one. *)
Definition Math_round (x : Q) : Z := Qfloor (x + (1 # 2))%Q.

(** [a === b] on numbers. *)
Definition number_eq (a b : Q) : bool := Qeq_bool a b.

(** [2^e] *)
Definition pow2 (e : Z) : Q :=
  if (0 <=? e)%Z then inject_Z (2 ^ e) else (1 / inject_Z (2 ^ (- e)))%Q.

(** The integer nearest to [x], a tie going to the even one. *)
Definition round_half_even (x : Q) : Z :=
  let f := Qfloor x in
  match Qcompare (x - inject_Z f)%Q (1 # 2)%Q with
  | Lt => f
  | Gt => (f + 1)%Z
  | Eq => if Z.even f then f else (f + 1)%Z
  end.

(** The exponent of the last binary place of the double nearest to [x]:
    the [e] with [2^52 ≤ |x| / 2^e < 2^53], and -1074 for the numbers too
    small for that. *)
Definition exponent (x : Q) : Z :=
  let e0 := (Z.log2 (Z.abs (Qnum x)) - Z.log2 (Zpos (Qden x)) - 52)%Z in
  let e := if Qle_bool (pow2 (e0 + 52)) (Qabs x) then e0 else (e0 - 1)%Z in
  Z.max e (-1074).

(** The double (IEEE 754 binary64) nearest to [x], a tie going to the even
    mantissa; it is the value of the literal that is written [x] in the
    source.  The infinities are not numbers here: the results are right as
    long as they are finite. *)
Definition double (x : Q) : Q :=
  let x := Qred x in
  if Qeq_bool x 0 then 0%Q
  else Qred (inject_Z (round_half_even (x / pow2 (exponent x))%Q)
             * pow2 (exponent x))%Q.

(** [a * b] on numbers: the operands are doubles (a rational that is not
    one stands for the double nearest to it, as a literal does), and the
    product is rounded to a double. *)
Definition number_mul (a b : Q) : Q := double (double a * double b)%Q.

Module JSString.

(** [strip_prefix pat s] is what is left of [s] after a leading [pat]. *)
Fixpoint strip_prefix (pat s : string) : option string :=
  match pat with
  | EmptyString => Some s
  | String a pat' =>
      match s with
      | EmptyString => None
      | String b s' => if Ascii.eqb a b then strip_prefix pat' s' else None
      end
  end.

(** The text before and after the first occurrence of [pat] in [s]
    (the position [String.prototype.indexOf] finds). *)
Fixpoint split_first (pat s : string) : option (string * string) :=
  match strip_prefix pat s with
  | Some post => Some (EmptyString, post)
  | None =>
      match s with
      | EmptyString => None
      | String c s' =>
          match split_first pat s' with
          | Some (pre, post) => Some (String c pre, post)
          | None => None
          end
      end
  end.

(** ECMAScript [GetSubstitution] for a string pattern (no capture groups):
    [$$] is a dollar sign, [$&] the matched text, [$`] the text before the
    match, [$'] the text after it; any other [$] stands for itself. *)
Fixpoint GetSubstitution (matched pre post replacement : string) : string :=
  match replacement with
  | EmptyString => EmptyString
  | String c rest =>
      if Ascii.eqb c "$" then
        match rest with
        | EmptyString => String c EmptyString
        | String k rest' =>
            if Ascii.eqb k "$" then
              String "$" (GetSubstitution matched pre post rest')
            else if Ascii.eqb k "&" then
              matched +:+ GetSubstitution matched pre post rest'
            else if Ascii.eqb k "`" then
              pre +:+ GetSubstitution matched pre post rest'
            else if Ascii.eqb k "'" then
              post +:+ GetSubstitution matched pre post rest'
            else
              String c (String k (GetSubstitution matched pre post rest'))
        end
      else String c (GetSubstitution matched pre post rest)
  end.

(** [s.replace(pat, replacement)] with a string pattern: only the first
    occurrence is replaced; without an occurrence [s] is returned. *)
Definition replace (s pat replacement : string) : string :=
  match split_first pat s with
  | None => s
  | Some (pre, post) =>
      pre +:+ GetSubstitution pat pre post replacement +:+ post
  end.

(** [occurs pat s]: [pat] is a substring of [s]. *)
Definition occurs (pat s : string) : Prop :=
  ∃ a b : string, s = a +:+ pat +:+ b.

(** [first_occurrence pat s pre post]: [s] is [pre], [pat], [post], and no
    occurrence of [pat] in [s] starts before this one. *)
Definition first_occurrence (pat s pre post : string) : Prop :=
  s = pre +:+ pat +:+ post ∧
  ∀ a b : string, s = a +:+ pat +:+ b → String.length pre ≤ String.length a.


(** The text with every [$] written twice. *)
Fixpoint escape_dollars (s : string) : string :=
  match s with
  | EmptyString => EmptyString
  | String c s' =>
      if Ascii.eqb c "$" then String "$" (String "$" (escape_dollars s'))
      else String c (escape_dollars s')
  end.

End JSString.

(** ** three.js values *)

(** The value of a uniform: [null], a number, or a reference to some
    object (a texture record, a vector). *)
Inductive UniformValue : Type :=
  | VNull
  | VNumber (x : Q)
  | VObject (ref : nat).

(** three.js [Uniform], as the effects have it: an effect makes the
    [Uniform] objects of its own uniforms and keeps each under one name. *)
Record Uniform : Type := mkUniform { value : UniformValue }.

(** A macro value: [string | number | boolean]. *)
Inductive DefineValue : Type :=
  | DString (s : string)
  | DNumber (x : Q)
  | DBoolean (b : bool).

(** ** [EffectMaterial] *)

Module EffectMaterial.

(** The keys of [enums/EffectShaderSection]. *)
Inductive EffectShaderSection : Set :=
  | FRAGMENT_HEAD
  | FRAGMENT_HEAD_GBUFFER
  | FRAGMENT_MAIN_UV
  | FRAGMENT_MAIN_GDATA
  | FRAGMENT_MAIN_IMAGE
  | VERTEX_HEAD
  | VERTEX_MAIN_SUPPORT.

#[global] Instance EffectShaderSection_eq_dec : EqDecision EffectShaderSection.
Proof. solve_decision. Defined.

Definition section_code (k : EffectShaderSection) : nat :=
  match k with
  | FRAGMENT_HEAD => 0
  | FRAGMENT_HEAD_GBUFFER => 1
  | FRAGMENT_MAIN_UV => 2
  | FRAGMENT_MAIN_GDATA => 3
  | FRAGMENT_MAIN_IMAGE => 4
  | VERTEX_HEAD => 5
  | VERTEX_MAIN_SUPPORT => 6
  end.

Definition section_of_code (n : nat) : option EffectShaderSection :=
  match n with
  | 0 => Some FRAGMENT_HEAD
  | 1 => Some FRAGMENT_HEAD_GBUFFER
  | 2 => Some FRAGMENT_MAIN_UV
  | 3 => Some FRAGMENT_MAIN_GDATA
  | 4 => Some FRAGMENT_MAIN_IMAGE
  | 5 => Some VERTEX_HEAD
  | 6 => Some VERTEX_MAIN_SUPPORT
  | _ => None
  end.

#[global] Program Instance EffectShaderSection_countable :
  Countable EffectShaderSection :=
  inj_countable section_code section_of_code _.
Next Obligation. by intros []. Qed.

(** A three.js [Uniform] object that the material holds.  The material
    holds it by reference: [setUniforms] stores the objects that it is
    given, and whoever made them keeps them too.  An object is named by a
    reference; two names that hold the same reference hold one object. *)
Definition UniformRef : Type := nat.

(** The fields of the material that the class reads and writes.
    [uniforms] is the object [this.uniforms], from names to [Uniform]
    objects, and [values] gives the [value] field of every [Uniform]
    object.  three.js turns every assignment [needsUpdate = true] into
    [version++]; [version] therefore counts the recompilation requests, and
    nothing in this class compiles a program. *)
Record EffectMaterial : Type := mkEffectMaterial {
  defines : gmap string DefineValue;
  uniforms : gmap string UniformRef;
  values : UniformRef → UniformValue;
  fragmentShader : string;
  vertexShader : string;
  version : nat
}.

Definition set_defines (d : gmap string DefineValue) (this : EffectMaterial) :=
  {| defines := d; uniforms := uniforms this; values := values this;
     fragmentShader := fragmentShader this; vertexShader := vertexShader this;
     version := version this |}.

Definition set_uniforms (u : gmap string UniformRef) (this : EffectMaterial) :=
  {| defines := defines this; uniforms := u; values := values this;
     fragmentShader := fragmentShader this; vertexShader := vertexShader this;
     version := version this |}.

Definition set_values (f : UniformRef → UniformValue) (this : EffectMaterial) :=
  {| defines := defines this; uniforms := uniforms this; values := f;
     fragmentShader := fragmentShader this; vertexShader := vertexShader this;
     version := version this |}.

Definition set_shaders (f v : string) (this : EffectMaterial) :=
  {| defines := defines this; uniforms := uniforms this;
     values := values this;
     fragmentShader := f; vertexShader := v;
     version := version this |}.

(** [this.needsUpdate = true] *)
Definition set_needsUpdate (this : EffectMaterial) :=
  {| defines := defines this; uniforms := uniforms this;
     values := values this;
     fragmentShader := fragmentShader this; vertexShader := vertexShader this;
     version := S (version this) |}.

(** [get colorSpaceConversion] *)
Definition colorSpaceConversion (this : EffectMaterial) : bool :=
  bool_decide (is_Some (defines this !! "COLOR_SPACE_CONVERSION")).

(** [set colorSpaceConversion] *)
Definition set_colorSpaceConversion (value : bool) (this : EffectMaterial)
  : EffectMaterial :=
  if negb (eqb (colorSpaceConversion this) value) then
    let this1 :=
      if value
      then set_defines
             (<["COLOR_SPACE_CONVERSION" := DString "1"]> (defines this)) this
      else set_defines (delete "COLOR_SPACE_CONVERSION" (defines this)) this in
    set_needsUpdate this1
  else this.

(** The value that the last entry for [key] in a sequence of entries
    gives it. *)
Fixpoint lookup_last {A : Type} (key : string) (entries : list (string * A))
  : option A :=
  match entries with
  | [] => None
  | entry :: rest =>
      match lookup_last key rest with
      | Some v => Some v
      | None => if decide (entry.1 = key) then Some entry.2 else None
      end
  end.

(** [setDefines]: the entries of the argument [Map], in iteration order. *)
Definition setDefines (entries : list (string * DefineValue))
  (this : EffectMaterial) : EffectMaterial :=
  set_needsUpdate
    (foldl (λ m entry, set_defines (<[entry.1 := entry.2]> (defines m)) m)
       this entries).

(** [setUniforms]: the entries of the argument [Map], in iteration order;
    the objects themselves are stored, not copies of them. *)
Definition setUniforms (entries : list (string * UniformRef))
  (this : EffectMaterial) : EffectMaterial :=
  foldl (λ m entry, set_uniforms (<[entry.1 := entry.2]> (uniforms m)) m)
    this entries.

(** [this.uniforms[key].value = v]: the object that the name holds is
    written to, so that every name that holds this object reads [v]
    afterwards; a [TypeError] ([None]) when the material has no uniform of
    that name. *)
Definition set_uniform_value (key : string) (v : UniformValue)
  (this : EffectMaterial) : option EffectMaterial :=
  match uniforms this !! key with
  | Some object =>
      Some (set_values
              (λ o, if decide (o = object) then v else values this o) this)
  | None => None
  end.

(** [this.uniforms[key].value], a [TypeError] ([None]) likewise. *)
Definition uniform_value (key : string) (this : EffectMaterial)
  : option UniformValue :=
  values this <$> uniforms this !! key.

(** [get gBuffer] *)
Definition gBuffer (this : EffectMaterial) : option UniformValue :=
  uniform_value "gBuffer" this.

(** [set gBuffer] *)
Definition set_gBuffer (v : UniformValue) (this : EffectMaterial)
  : option EffectMaterial :=
  set_uniform_value "gBuffer" v this.

(** [get time] *)
Definition time (this : EffectMaterial) : option UniformValue :=
  uniform_value "time" this.

(** [set time] *)
Definition set_time (v : Q) (this : EffectMaterial) : option EffectMaterial :=
  set_uniform_value "time" (VNumber v) this.

(** What every method keeps: the uniforms that are declared, the macros
    other than [COLOR_SPACE_CONVERSION], and the height of the
    recompilation counter. *)
Definition grows (this this' : EffectMaterial) : Prop :=
  (∀ key : string,
     is_Some (uniforms this !! key) → is_Some (uniforms this' !! key)) ∧
  (∀ key : string, key ≠ "COLOR_SPACE_CONVERSION" →
     is_Some (defines this !! key) → is_Some (defines this' !! key)) ∧
  version this ≤ version this'.

(** A material with the two uniforms that the constructor hands to its
    base class, for the examples: the object 0 with the value [null] under
    [gBuffer] and the object 1 with the value 0 under [time]; the other
    objects, which the material does not hold, have the values 2, 3, ... *)
Definition plain_material : EffectMaterial :=
  {| defines := ∅;
     uniforms := <["gBuffer" := 0]> (<["time" := 1]> ∅);
     values :=
       λ o, match o with
            | 0 => VNull
            | 1 => VNumber 0
            | _ => VNumber (inject_Z (Z.of_nat o))
            end;
     fragmentShader := EmptyString; vertexShader := EmptyString;
     version := 0 |}.

(** A template read as pieces of text and placeholders, and the text that
    it gives when every placeholder is written as [f] says. *)
Inductive Piece : Type :=
  | Text (s : string)
  | Placeholder (key : EffectShaderSection).

Definition fill (f : EffectShaderSection → string) (layout : list Piece)
  : string :=
  foldr (λ piece rest,
           match piece with Text s => s | Placeholder key => f key end
           +:+ rest)
    EmptyString layout.

Section Templates.

(** The string value of each section key (declared in
    [enums/EffectShaderSection]) and the two shader templates
    ([shaders/effect.frag], [shaders/effect.vert]) are data of the
    repository that the class only refers to. *)
Variable marker : EffectShaderSection → string.
Variable fragmentTemplate vertexTemplate : string.

(** What stands at the placeholder of [key] when the sections [earlier] have
    been filled in with the texts [text] and the others not yet. *)
Definition filled (text : EffectShaderSection → string)
  (earlier : list EffectShaderSection) (key : EffectShaderSection) : string :=
  if decide (key ∈ earlier) then text key else marker key.

(** The sections [keys] can be filled in one after the other, after the
    sections [earlier]: each has one placeholder in the layout, and when its
    turn comes, the first occurrence of its marker in the text is that
    placeholder. *)
Fixpoint well_placed (text : EffectShaderSection → string)
  (earlier keys : list EffectShaderSection) (layout : list Piece) : Prop :=
  match keys with
  | [] => True
  | key :: rest =>
      (∃ before after : list Piece,
         layout = before ++ Placeholder key :: after ∧
         (Placeholder key ∉ before) ∧ (Placeholder key ∉ after) ∧
         JSString.first_occurrence (marker key)
           (fill (filled text earlier) layout)
           (fill (filled text earlier) before)
           (fill (filled text earlier) after)) ∧
      well_placed text (key :: earlier) rest layout
  end.

(** [shaderParts.get(key)], the empty string standing in for a missing
    or [null] entry (the [??] of the source). *)
Definition part (shaderParts : gmap EffectShaderSection (option string))
  (key : EffectShaderSection) : string :=
  match shaderParts !! key with
  | Some (Some source) => source
  | Some None | None => EmptyString
  end.

(** One link of a chain of [.replace(key, part)] calls. *)
Definition replace_section
  (shaderParts : gmap EffectShaderSection (option string))
  (s : string) (key : EffectShaderSection) : string :=
  JSString.replace s (marker key) (part shaderParts key).

(** The order in which [setShaderParts] substitutes the sections. *)
Definition fragment_sections : list EffectShaderSection :=
  [FRAGMENT_MAIN_IMAGE; FRAGMENT_MAIN_GDATA; FRAGMENT_MAIN_UV;
   FRAGMENT_HEAD; FRAGMENT_HEAD_GBUFFER].

Definition vertex_sections : list EffectShaderSection :=
  [VERTEX_MAIN_SUPPORT; VERTEX_HEAD].

(** [setShaderParts] *)
Definition setShaderParts
  (shaderParts : gmap EffectShaderSection (option string))
  (this : EffectMaterial) : EffectMaterial :=
  let fragment :=
    foldl (replace_section shaderParts) fragmentTemplate fragment_sections in
  let vertex :=
    foldl (replace_section shaderParts) vertexTemplate vertex_sections in
  set_needsUpdate (set_shaders fragment vertex this).

(** What a client can do with a material. *)
Inductive Call : Type :=
  | SetGBuffer (v : UniformValue)
  | SetColorSpaceConversion (b : bool)
  | SetTime (v : Q)
  | SetShaderParts (shaderParts : gmap EffectShaderSection (option string))
  | SetDefines (entries : list (string * DefineValue))
  | SetUniforms (entries : list (string * UniformRef)).

Definition call (c : Call) (this : EffectMaterial) : option EffectMaterial :=
  match c with
  | SetGBuffer v => set_gBuffer v this
  | SetColorSpaceConversion b => Some (set_colorSpaceConversion b this)
  | SetTime v => set_time v this
  | SetShaderParts shaderParts => Some (setShaderParts shaderParts this)
  | SetDefines entries => Some (setDefines entries this)
  | SetUniforms entries => Some (setUniforms entries this)
  end.

Fixpoint calls (cs : list Call) (this : EffectMaterial)
  : option EffectMaterial :=
  match cs with
  | [] => Some this
  | c :: cs' => this1 ← call c this; calls cs' this1
  end.

End Templates.

#[global] Instance Piece_eq_dec : EqDecision Piece.
Proof. solve_decision. Defined.

(** Markers and two small templates for the examples. *)
Definition example_marker (key : EffectShaderSection) : string :=
  match key with
  | FRAGMENT_HEAD => "$HEAD"
  | FRAGMENT_HEAD_GBUFFER => "$GBUFFER"
  | FRAGMENT_MAIN_UV => "$UV"
  | FRAGMENT_MAIN_GDATA => "$GDATA"
  | FRAGMENT_MAIN_IMAGE => "$IMAGE"
  | VERTEX_HEAD => "$VHEAD"
  | VERTEX_MAIN_SUPPORT => "$VMAIN"
  end.

Definition example_fragment_layout : list Piece :=
  [Placeholder FRAGMENT_HEAD; Text " "; Placeholder FRAGMENT_HEAD_GBUFFER;
   Text " void main() { "; Placeholder FRAGMENT_MAIN_UV; Text " ";
   Placeholder FRAGMENT_MAIN_GDATA; Text " ";
   Placeholder FRAGMENT_MAIN_IMAGE; Text " }"].

Definition example_vertex_layout : list Piece :=
  [Placeholder VERTEX_HEAD; Text " void main() { ";
   Placeholder VERTEX_MAIN_SUPPORT; Text " }"].

Definition example_fragment_template : string :=
  "$HEAD $GBUFFER void main() { $UV $GDATA $IMAGE }".

Definition example_vertex_template : string :=
  "$VHEAD void main() { $VMAIN }".

End EffectMaterial.

(** ** [Resolution] *)

Module Resolution.

(** Modelled from the spec: [utils/Resolution] is not among the sources.
    The spec gives a resolution a base width and height, a scale factor
    (1.0 by default) and a derived effective size [round(base × scale)]
    that is recomputed on every read and never stored; a change of the base
    size or of the scale sends one change notification to the listeners,
    and an assignment of the values that the resolution has already sends
    none.  The state is modelled here; the notification is delivered where
    the listener is registered ([RenderPipeline.resolution_setBaseSize],
    [ScanlineEffect.resolution_setBaseSize]). *)
Record t : Type := mk {
  baseWidth : Z;
  baseHeight : Z;
  scale : Q
}.

Definition width (r : t) : Z := Math_round (inject_Z (baseWidth r) * scale r)%Q.

Definition height (r : t) : Z :=
  Math_round (inject_Z (baseHeight r) * scale r)%Q.

Definition setBaseSize (w h : Z) (r : t) : t :=
  {| baseWidth := w; baseHeight := h; scale := scale r |}.

Definition setScale (s : Q) (r : t) : t :=
  {| baseWidth := baseWidth r; baseHeight := baseHeight r; scale := s |}.

(** Whether [setBaseSize(w, h)] and [scale = s] change the resolution, and
    so send the change notification. *)
Definition changes_baseSize (w h : Z) (r : t) : bool :=
  negb ((baseWidth r =? w)%Z && (baseHeight r =? h)%Z).

Definition changes_scale (s : Q) (r : t) : bool :=
  negb (number_eq (scale r) s).

End Resolution.

(** ** [ScanlineEffect] *)

Module ScanlineEffect.

(** Modelled from the spec: the base class [Effect] is not among the
    sources.  Of its state the subclass uses the shader text, the macro and
    uniform maps of [this.input], the resolution, and [setChanged()], the
    signal that the shader contribution changed; [changed] counts the
    signals sent so far. *)
Record Effect : Type := mkEffect {
  name : string;
  fragmentShader : string;
  uniforms : gmap string Uniform;
  defines : gmap string DefineValue;
  resolution : Resolution.t;
  changed : nat
}.

Record ScanlineEffect : Type := mkScanlineEffect {
  super : Effect;
  d : Q
}.

(** [ScanlineEffectOptions]: an omitted field is [None]. *)
Record ScanlineEffectOptions : Type := mkOptions {
  opt_density : option Q;
  opt_scrollSpeed : option Q
}.

Definition with_super (f : Effect → Effect) (this : ScanlineEffect)
  : ScanlineEffect :=
  {| super := f (super this); d := d this |}.

Definition set_d (value : Q) (this : ScanlineEffect) : ScanlineEffect :=
  {| super := super this; d := value |}.

Definition set_fragmentShader (text : string) (e : Effect) : Effect :=
  {| name := name e; fragmentShader := text; uniforms := uniforms e;
     defines := defines e; resolution := resolution e; changed := changed e |}.

Definition set_uniforms (u : gmap string Uniform) (e : Effect) : Effect :=
  {| name := name e; fragmentShader := fragmentShader e; uniforms := u;
     defines := defines e; resolution := resolution e; changed := changed e |}.

Definition set_defines (m : gmap string DefineValue) (e : Effect) : Effect :=
  {| name := name e; fragmentShader := fragmentShader e;
     uniforms := uniforms e; defines := m; resolution := resolution e;
     changed := changed e |}.

Definition set_resolution (r : Resolution.t) (e : Effect) : Effect :=
  {| name := name e; fragmentShader := fragmentShader e;
     uniforms := uniforms e; defines := defines e; resolution := r;
     changed := changed e |}.

(** [this.setChanged()] *)
Definition setChanged (e : Effect) : Effect :=
  {| name := name e; fragmentShader := fragmentShader e;
     uniforms := uniforms e; defines := defines e;
     resolution := resolution e; changed := S (changed e) |}.

(** [this.input.uniforms.get(key)!.value = v]: a [TypeError] ([None]) when
    the map has no uniform of that name. *)
Definition set_uniform_value (key : string) (v : UniformValue)
  (this : ScanlineEffect) : option ScanlineEffect :=
  match uniforms (super this) !! key with
  | Some _ =>
      Some (with_super
              (set_uniforms (<[key := mkUniform v]> (uniforms (super this))))
              this)
  | None => None
  end.

(** [this.input.uniforms.get(key)!.value] *)
Definition uniform_value (key : string) (this : ScanlineEffect)
  : option UniformValue :=
  value <$> uniforms (super this) !! key.

(** [get density] *)
Definition density (this : ScanlineEffect) : Q := d this.

(** [get scrollSpeed] *)
Definition scrollSpeed (this : ScanlineEffect) : option UniformValue :=
  uniform_value "scrollSpeed" this.

(** [this.input.defines.has("SCROLL")] *)
Definition has_SCROLL (this : ScanlineEffect) : bool :=
  bool_decide (is_Some (defines (super this) !! "SCROLL")).

(** [set scrollSpeed] *)
Definition set_scrollSpeed (value : Q) (this : ScanlineEffect)
  : option ScanlineEffect :=
  this1 ← set_uniform_value "scrollSpeed" (VNumber value) this;
  if number_eq value 0 then
    (* [defines.delete("SCROLL")] is true when the key was there *)
    if has_SCROLL this1 then
      Some (with_super
              (λ e, setChanged (set_defines (delete "SCROLL" (defines e)) e))
              this1)
    else Some this1
  else if negb (has_SCROLL this1) then
    Some (with_super
            (λ e, setChanged
                    (set_defines (<["SCROLL" := DString "1"]> (defines e)) e))
            this1)
  else Some this1.

(** [updateCount] *)
Definition updateCount (height : Z) (this : ScanlineEffect)
  : option ScanlineEffect :=
  set_uniform_value "count"
    (VNumber (inject_Z (Math_round (number_mul (inject_Z height)
                                      (density this))))) this.

(** [set density] *)
Definition set_density (value : Q) (this : ScanlineEffect)
  : option ScanlineEffect :=
  let this1 := set_d value this in
  updateCount (Resolution.height (resolution (super this1))) this1.

(** [onResolutionChange] *)
Definition onResolutionChange (resolution : Resolution.t)
  (this : ScanlineEffect) : option ScanlineEffect :=
  updateCount (Resolution.height resolution) this.

(** [setSize] *)
Definition setSize (width height : Z) (this : ScanlineEffect)
  : option ScanlineEffect :=
  updateCount height this.

(** [constructor]: [base] is the object as [super("ScanlineEffectOptions")]
    leaves it, [shader] the text of [shaders/scanline.frag]. *)
Definition constructor (options : ScanlineEffectOptions) (shader : string)
  (base : Effect) : option ScanlineEffect :=
  let density := default (5 # 4)%Q (opt_density options) in
  let scrollSpeed := default 0%Q (opt_scrollSpeed options) in
  let e1 := set_fragmentShader shader base in
  let e2 := set_uniforms (<["count" := mkUniform (VNumber 0)]> (uniforms e1)) e1 in
  let e3 :=
    set_uniforms (<["scrollSpeed" := mkUniform (VNumber 0)]> (uniforms e2)) e2 in
  set_scrollSpeed scrollSpeed {| super := e3; d := density |}.

(** Modelled from the spec: the effect's resolution belongs to the base
    class, which calls the [onResolutionChange] hook with it when the
    resolution sends its change notification, that is when the base size or
    the scale changes; an assignment of the size or of the scale that the
    resolution has already calls nothing. *)
Definition resolution_setBaseSize (w h : Z) (this : ScanlineEffect)
  : option ScanlineEffect :=
  if Resolution.changes_baseSize w h (resolution (super this)) then
    let r := Resolution.setBaseSize w h (resolution (super this)) in
    onResolutionChange r (with_super (set_resolution r) this)
  else Some this.

Definition resolution_setScale (s : Q) (this : ScanlineEffect)
  : option ScanlineEffect :=
  if Resolution.changes_scale s (resolution (super this)) then
    let r := Resolution.setScale s (resolution (super this)) in
    onResolutionChange r (with_super (set_resolution r) this)
  else Some this.

(** What a client can do with an effect. *)
Inductive Call : Type :=
  | SetDensity (value : Q)
  | SetScrollSpeed (value : Q)
  | SetSize (width height : Z)
  | ResolutionBaseSize (width height : Z)
  | ResolutionScale (s : Q).

Definition call (c : Call) (this : ScanlineEffect) : option ScanlineEffect :=
  match c with
  | SetDensity v => set_density v this
  | SetScrollSpeed v => set_scrollSpeed v this
  | SetSize w h => setSize w h this
  | ResolutionBaseSize w h => resolution_setBaseSize w h this
  | ResolutionScale s => resolution_setScale s this
  end.

Fixpoint calls (cs : list Call) (this : ScanlineEffect)
  : option ScanlineEffect :=
  match cs with
  | [] => Some this
  | c :: cs' => this1 ← call c this; calls cs' this1
  end.

(** The value of the [count] uniform. *)
Definition count (this : ScanlineEffect) : option UniformValue :=
  uniform_value "count" this.

(** The value [count] has when it agrees with the resolution and the
    density. *)
Definition expected_count (this : ScanlineEffect) : UniformValue :=
  VNumber (inject_Z (Math_round
    (number_mul (inject_Z (Resolution.height (resolution (super this))))
       (density this)))).

(** The two uniforms that the constructor installs are there. *)
Definition declared (this : ScanlineEffect) : Prop :=
  is_Some (uniforms (super this) !! "count") ∧
  is_Some (uniforms (super this) !! "scrollSpeed").

(** The macro [SCROLL] is declared exactly when the [scrollSpeed] uniform
    holds a number other than 0. *)
Definition in_step (this : ScanlineEffect) : Prop :=
  ∃ v : Q, scrollSpeed this = Some (VNumber v) ∧
    has_SCROLL this = negb (number_eq v 0).

(** The change signals that a call sends to an effect in that state. *)
Definition signals (c : Call) (this : ScanlineEffect) : nat :=
  match c with
  | SetScrollSpeed v =>
      if eqb (has_SCROLL this) (negb (number_eq v 0)) then 0 else 1
  | _ => 0
  end.

(** The assignments to [scrollSpeed] among some calls. *)
Definition is_SetScrollSpeed (c : Call) : bool :=
  match c with SetScrollSpeed _ => true | _ => false end.

Definition scrollSpeed_calls (cs : list Call) : nat :=
  length (List.filter is_SetScrollSpeed cs).

(** The object that [super("ScanlineEffectOptions")] leaves, for the
    examples: nothing declared yet, no signal sent. *)
Definition plain_effect : Effect :=
  {| name := "ScanlineEffectOptions"; fragmentShader := EmptyString;
     uniforms := ∅; defines := ∅;
     resolution :=
       {| Resolution.baseWidth := 1; Resolution.baseHeight := 1;
          Resolution.scale := 1 |};
     changed := 0 |}.

(** What [new ScanlineEffect()] makes of it. *)
Definition default_effect : ScanlineEffect :=
  {| super :=
       {| name := "ScanlineEffectOptions"; fragmentShader := "scanline.frag";
          uniforms :=
            <["scrollSpeed" := mkUniform (VNumber 0)]>
              (<["count" := mkUniform (VNumber 0)]> ∅);
          defines := ∅;
          resolution :=
            {| Resolution.baseWidth := 1; Resolution.baseHeight := 1;
               Resolution.scale := 1 |};
          changed := 0 |};
     d := (5 # 4)%Q |}.

End ScanlineEffect.

(** ** [HalftoneEffect] *)

Module HalftoneEffect.

(** Modelled from the spec: the blend functions are not among the sources;
    the spec names these variants. *)
Inductive BlendFunction : Type :=
  | NormalBlendFunction
  | OverlayBlendFunction
  | AddBlendFunction
  | MultiplyBlendFunction
  | SkipBlendFunction.

(** The state of the base class (see [ScanlineEffect.Effect]) and the blend
    function of its blend mode, [this.blendMode.blendFunction]. *)
Record HalftoneEffect : Type := mkHalftoneEffect {
  super : ScanlineEffect.Effect;
  blendFunction : BlendFunction
}.

(** [HalftoneEffectOptions]: an omitted field is [None].  The members of
    [enums/HalftoneShape], which is not among the sources, are the uniform
    values that stand for them. *)
Record HalftoneEffectOptions : Type := mkOptions {
  opt_shape : option UniformValue;
  opt_radius : option Q;
  opt_rotateR : option Q;
  opt_rotateG : option Q;
  opt_rotateB : option Q;
  opt_scatter : option Q
}.

Definition with_super (f : ScanlineEffect.Effect → ScanlineEffect.Effect)
  (this : HalftoneEffect) : HalftoneEffect :=
  {| super := f (super this); blendFunction := blendFunction this |}.

(** [this.input.uniforms.get(key)!.value = v]: a [TypeError] ([None]) when
    the map has no uniform of that name. *)
Definition set_uniform_value (key : string) (v : UniformValue)
  (this : HalftoneEffect) : option HalftoneEffect :=
  match ScanlineEffect.uniforms (super this) !! key with
  | Some _ =>
      Some (with_super
              (ScanlineEffect.set_uniforms
                 (<[key := mkUniform v]> (ScanlineEffect.uniforms (super this))))
              this)
  | None => None
  end.

(** [this.input.uniforms.get(key)!.value] *)
Definition uniform_value (key : string) (this : HalftoneEffect)
  : option UniformValue :=
  value <$> ScanlineEffect.uniforms (super this) !! key.

(** The six pairs of accessors. *)
Definition radius (this : HalftoneEffect) := uniform_value "radius" this.

Definition set_radius (value : Q) (this : HalftoneEffect) :=
  set_uniform_value "radius" (VNumber value) this.

Definition scatter (this : HalftoneEffect) := uniform_value "scatter" this.

Definition set_scatter (value : Q) (this : HalftoneEffect) :=
  set_uniform_value "scatter" (VNumber value) this.

Definition rotateR (this : HalftoneEffect) := uniform_value "rotateR" this.

Definition set_rotateR (value : Q) (this : HalftoneEffect) :=
  set_uniform_value "rotateR" (VNumber value) this.

Definition rotateG (this : HalftoneEffect) := uniform_value "rotateG" this.

Definition set_rotateG (value : Q) (this : HalftoneEffect) :=
  set_uniform_value "rotateG" (VNumber value) this.

Definition rotateB (this : HalftoneEffect) := uniform_value "rotateB" this.

Definition set_rotateB (value : Q) (this : HalftoneEffect) :=
  set_uniform_value "rotateB" (VNumber value) this.

Definition shape (this : HalftoneEffect) := uniform_value "shape" this.

Definition set_shape (value : UniformValue) (this : HalftoneEffect) :=
  set_uniform_value "shape" value this.

Section Shape.

(** [HalftoneShape.ELLIPSE] *)
Variable ELLIPSE : UniformValue.

(** [constructor]: [base] is the object as [super("HalftoneEffectOptions")]
    leaves it, [shader] the text of [shaders/halftone.frag]. *)
Definition constructor (options : HalftoneEffectOptions) (shader : string)
  (base : ScanlineEffect.Effect) : HalftoneEffect :=
  let shape := default ELLIPSE (opt_shape options) in
  let radius := default 10%Q (opt_radius options) in
  let rotateR := default 14%Q (opt_rotateR options) in
  let rotateG := default 45%Q (opt_rotateG options) in
  let rotateB := default 30%Q (opt_rotateB options) in
  let scatter := default 0%Q (opt_scatter options) in
  let e := ScanlineEffect.set_fragmentShader shader base in
  let u1 := <["radius" := mkUniform (VNumber radius)]>
              (ScanlineEffect.uniforms e) in
  let u2 := <["rotateR" := mkUniform (VNumber rotateR)]> u1 in
  let u3 := <["rotateG" := mkUniform (VNumber rotateG)]> u2 in
  let u4 := <["rotateB" := mkUniform (VNumber rotateB)]> u3 in
  let u5 := <["scatter" := mkUniform (VNumber scatter)]> u4 in
  let u6 := <["shape" := mkUniform shape]> u5 in
  {| super := ScanlineEffect.set_uniforms u6 e;
     blendFunction := OverlayBlendFunction |}.

End Shape.

(** What a client can do with an effect. *)
Inductive Call : Type :=
  | SetRadius (value : Q)
  | SetScatter (value : Q)
  | SetRotateR (value : Q)
  | SetRotateG (value : Q)
  | SetRotateB (value : Q)
  | SetShape (value : UniformValue).

Definition call (c : Call) (this : HalftoneEffect) : option HalftoneEffect :=
  match c with
  | SetRadius v => set_radius v this
  | SetScatter v => set_scatter v this
  | SetRotateR v => set_rotateR v this
  | SetRotateG v => set_rotateG v this
  | SetRotateB v => set_rotateB v this
  | SetShape v => set_shape v this
  end.

Fixpoint calls (cs : list Call) (this : HalftoneEffect)
  : option HalftoneEffect :=
  match cs with
  | [] => Some this
  | c :: cs' => this1 ← call c this; calls cs' this1
  end.

(** The name of the uniform that a call is about, and the value that the
    call carries. *)
Definition target (c : Call) : string :=
  match c with
  | SetRadius _ => "radius"
  | SetScatter _ => "scatter"
  | SetRotateR _ => "rotateR"
  | SetRotateG _ => "rotateG"
  | SetRotateB _ => "rotateB"
  | SetShape _ => "shape"
  end.

Definition assigned (c : Call) : UniformValue :=
  match c with
  | SetRadius v | SetScatter v | SetRotateR v | SetRotateG v | SetRotateB v =>
      VNumber v
  | SetShape v => v
  end.

(** The value carried by the last of the calls [cs] that is about the
    uniform [key], and [init] when there is none. *)
Definition last_assigned (key : string) (cs : list Call) (init : UniformValue)
  : UniformValue :=
  foldl (λ acc c, if decide (target c = key) then assigned c else acc) init cs.

(** The six uniforms that the constructor installs are there. *)
Definition declared (this : HalftoneEffect) : Prop :=
  ∀ c : Call, is_Some (ScanlineEffect.uniforms (super this) !! target c).

End HalftoneEffect.

(** ** The objects a pipeline works with *)

Module WebGLRenderer.

(** three.js [WebGLRenderer], as far as the pipeline uses it: a logical
    size, a device pixel ratio, and the size last written to the style of
    the canvas. *)
Record t : Type := mk {
  width : Z;
  height : Z;
  pixelRatio : Q;
  style : option (Z * Z)
}.

(** [getSize] *)
Definition getSize (r : t) : Z * Z := (width r, height r).

(** [setSize] *)
Definition setSize (w h : Z) (updateStyle : bool) (r : t) : t :=
  {| width := w; height := h; pixelRatio := pixelRatio r;
     style := if updateStyle then Some (w, h) else style r |}.

Section DevicePixels.

(** How the renderer turns a length scaled by the pixel ratio into a whole
    number of buffer pixels is the renderer's business. *)
Variable device_pixels : Q → Z.

(** [getDrawingBufferSize] *)
Definition getDrawingBufferSize (r : t) : Z * Z :=
  (device_pixels (inject_Z (width r) * pixelRatio r)%Q,
   device_pixels (inject_Z (height r) * pixelRatio r)%Q).

End DevicePixels.

(** What three.js does: the drawing buffer has [floor(width × pixelRatio)]
    by [floor(height × pixelRatio)] pixels, the products being those of
    JavaScript. *)
Definition floor_pixels (q : Q) : Z := Qfloor (double q).

End WebGLRenderer.

Module Pass.

(** Modelled from the spec: [core/Pass] is not among the sources.  A pass
    has a name, an enable flag, a resolution of its own, and nullable
    handles to a renderer and to a timer; a timer is named by the pipeline
    that owns it. *)
Record t : Type := mk {
  name : string;
  enabled : bool;
  renderer : option nat;
  timer : option nat;
  resolution : Resolution.t
}.

Definition set_enabled (b : bool) (p : t) : t :=
  {| name := name p; enabled := b; renderer := renderer p; timer := timer p;
     resolution := resolution p |}.

Definition set_renderer (r : option nat) (p : t) : t :=
  {| name := name p; enabled := enabled p; renderer := r; timer := timer p;
     resolution := resolution p |}.

Definition set_timer (tm : option nat) (p : t) : t :=
  {| name := name p; enabled := enabled p; renderer := renderer p;
     timer := tm; resolution := resolution p |}.

(** [pass.resolution.setBaseSize(w, h)] *)
Definition resolution_setBaseSize (w h : Z) (p : t) : t :=
  {| name := name p; enabled := enabled p; renderer := renderer p;
     timer := timer p;
     resolution := Resolution.setBaseSize w h (resolution p) |}.

(** The base size of the resolution of a pass. *)
Definition baseSize (p : t) : Z * Z :=
  (Resolution.baseWidth (resolution p), Resolution.baseHeight (resolution p)).

(** The two handles of a pass. *)
Definition handles (p : t) : option nat * option nat := (renderer p, timer p).

End Pass.

(** ** [RenderPipeline] *)

Module RenderPipeline.

(** The fields of a pipeline.  Its timer ([_timer]) is not a field here: a
    timer is named by the reference of the pipeline that owns it, and what
    is done to it is recorded as an event. *)
Record RenderPipeline : Type := mkRenderPipeline {
  _renderer : option nat;
  _passes : list nat;
  resolution : Resolution.t;
  updateStyle : bool;
  autoRenderToScreen : bool
}.

Definition set__renderer (value : option nat) (this : RenderPipeline) :=
  {| _renderer := value; _passes := _passes this;
     resolution := resolution this; updateStyle := updateStyle this;
     autoRenderToScreen := autoRenderToScreen this |}.

Definition set__passes (l : list nat) (this : RenderPipeline) :=
  {| _renderer := _renderer this; _passes := l;
     resolution := resolution this; updateStyle := updateStyle this;
     autoRenderToScreen := autoRenderToScreen this |}.

Definition set_resolution (r : Resolution.t) (this : RenderPipeline) :=
  {| _renderer := _renderer this; _passes := _passes this;
     resolution := r; updateStyle := updateStyle this;
     autoRenderToScreen := autoRenderToScreen this |}.

Definition set_updateStyle (b : bool) (this : RenderPipeline) :=
  {| _renderer := _renderer this; _passes := _passes this;
     resolution := resolution this; updateStyle := b;
     autoRenderToScreen := autoRenderToScreen this |}.

(** Calls into collaborators whose code is elsewhere (the timer, the
    passes' own [render] and [dispose], the shared [IOManager], the log),
    and the resizes of a renderer, in the order in which they happen. *)
Inductive Event : Type :=
  | ShaderChunkExtensionsRegister
  | IOManagerAddPipeline (pipeline : nat)
  | IOManagerRemovePipeline (pipeline : nat)
  | IOManagerUpdate
  | TimerUpdate (pipeline : nat) (timestamp : option Q)
  | TimerDispose (pipeline : nat)
  | PassRender (pass : nat)
  | PassDispose (pass : nat)
  | RendererSetSize (renderer : nat) (width height : Z) (updateStyle : bool)
  | LogDebug (message : string).

(** The heap: every renderer, pass and pipeline created so far, under its
    reference, and the calls made so far. *)
Record World : Type := mkWorld {
  renderers : gmap nat WebGLRenderer.t;
  passes : gmap nat Pass.t;
  pipelines : gmap nat RenderPipeline;
  events : list Event
}.

Definition empty : World :=
  {| renderers := ∅; passes := ∅; pipelines := ∅; events := [] |}.

Definition emit (e : Event) (w : World) : World :=
  {| renderers := renderers w; passes := passes w; pipelines := pipelines w;
     events := events w ++ [e] |}.

Definition update_renderer (r : nat) (f : WebGLRenderer.t → WebGLRenderer.t)
  (w : World) : World :=
  {| renderers := alter f r (renderers w); passes := passes w;
     pipelines := pipelines w; events := events w |}.

Definition update_pass (x : nat) (f : Pass.t → Pass.t) (w : World) : World :=
  {| renderers := renderers w; passes := alter f x (passes w);
     pipelines := pipelines w; events := events w |}.

Definition update_pipeline (pl : nat) (f : RenderPipeline → RenderPipeline)
  (w : World) : World :=
  {| renderers := renderers w; passes := passes w;
     pipelines := alter f pl (pipelines w); events := events w |}.

(** The outcome of a method that can throw. *)
Inductive Completion : Type :=
  | Normal
  | Throw (message : string).

(** [Array.prototype.indexOf], [None] for -1. *)
Fixpoint indexOf (x : nat) (l : list nat) : option nat :=
  match l with
  | [] => None
  | y :: l' => if decide (y = x) then Some 0 else S <$> indexOf x l'
  end.

(** [pass.enabled] *)
Definition pass_enabled (w : World) (x : nat) : bool :=
  match passes w !! x with
  | Some p => Pass.enabled p
  | None => false
  end.

(** [pass.name] *)
Definition pass_name (w : World) (x : nat) : string :=
  match passes w !! x with
  | Some p => Pass.name p
  | None => EmptyString
  end.

Definition dquote : string := String (ascii_of_nat 34) EmptyString.

(** Whether [onResolutionChange] has to resize the renderer of a pipeline,
    and the renderer it leaves. *)
Definition resized (this : RenderPipeline) (R : WebGLRenderer.t) : bool :=
  negb (WebGLRenderer.width R =? Resolution.width (resolution this))%Z
  || negb (WebGLRenderer.height R =? Resolution.height (resolution this))%Z.

Definition fitted (this : RenderPipeline) (R : WebGLRenderer.t)
  : WebGLRenderer.t :=
  if resized this R
  then WebGLRenderer.setSize (Resolution.width (resolution this))
         (Resolution.height (resolution this)) (updateStyle this) R
  else R.

(** The resizes of a renderer among some events, with their
    [updateStyle] argument. *)
Definition style_arguments (evs : list Event) : list bool :=
  omap (λ ev, match ev with
              | RendererSetSize _ _ _ style => Some style
              | _ => None
              end) evs.

Section Methods.

Variable device_pixels : Q → Z.

(** The base size of a resolution made by [new Resolution()], which the
    spec leaves open; its scale is 1. *)
Variable initial_base : Z * Z.

Definition new_Resolution : Resolution.t :=
  {| Resolution.baseWidth := initial_base.1;
     Resolution.baseHeight := initial_base.2;
     Resolution.scale := 1 |}.

(** [renderer.setSize(width, height, updateStyle)] *)
Definition renderer_setSize (r : nat) (width height : Z) (style : bool)
  (w : World) : World :=
  emit (RendererSetSize r width height style)
    (update_renderer r (WebGLRenderer.setSize width height style) w).

(** [RenderPipeline.ioManager.update()] *)
Definition ioManager_update (w : World) : World := emit IOManagerUpdate w.

(** [for(const pass of this.passes) pass.resolution.setBaseSize(...)] *)
Definition resize_passes (size : Z * Z) (l : list nat) (w : World) : World :=
  foldl (λ w x, update_pass x (Pass.resolution_setBaseSize size.1 size.2) w)
    w l.

(** [onResolutionChange] *)
Definition onResolutionChange (pl : nat) (w : World) : World :=
  match pipelines w !! pl with
  | None => w
  | Some this =>
      match _renderer this with
      | None =>
          emit (LogDebug
            "Unable to update the render size because the renderer is null") w
      | Some r =>
          match renderers w !! r with
          | None => w
          | Some R =>
              let width := Resolution.width (resolution this) in
              let height := Resolution.height (resolution this) in
              let logicalSize := WebGLRenderer.getSize R in
              let w1 :=
                if negb (logicalSize.1 =? width)%Z
                   || negb (logicalSize.2 =? height)%Z
                then renderer_setSize r width height (updateStyle this) w
                else w in
              match renderers w1 !! r with
              | None => w1
              | Some R1 =>
                  let effectiveSize :=
                    WebGLRenderer.getDrawingBufferSize device_pixels R1 in
                  resize_passes effectiveSize (_passes this) w1
              end
          end
      end
  end.

(** [constructor]; the reference of the new pipeline is the first unused
    one. *)
Definition next_pipeline (w : World) : nat := fresh (dom (pipelines w)).

Definition constructor (renderer : option nat) (w : World) : World :=
  let pl := next_pipeline w in
  let w1 := emit (IOManagerAddPipeline pl) (emit ShaderChunkExtensionsRegister w) in
  {| renderers := renderers w1; passes := passes w1;
     pipelines :=
       <[pl := {| _renderer := renderer; _passes := [];
                  resolution := new_Resolution;
                  updateStyle := true; autoRenderToScreen := true |}]>
         (pipelines w1);
     events := events w1 |}.

(** [set renderer] *)
Definition set_renderer (pl : nat) (value : option nat) (w : World) : World :=
  match pipelines w !! pl with
  | None => w
  | Some this =>
      let w1 := update_pipeline pl (set__renderer value) w in
      let w2 :=
        foldl (λ w x, update_pass x (Pass.set_renderer value) w) w1
          (_passes this) in
      match value with
      | Some _ => ioManager_update (onResolutionChange pl w2)
      | None => w2
      end
  end.

(** [registerPass] *)
Definition registerPass (pl x : nat) (w : World) : World :=
  match pipelines w !! pl with
  | None => w
  | Some this =>
      let w1 :=
        match _renderer this with
        | Some r =>
            match renderers w !! r with
            | Some R =>
                let v := WebGLRenderer.getDrawingBufferSize device_pixels R in
                update_pass x (Pass.resolution_setBaseSize v.1 v.2) w
            | None => w
            end
        | None => w
        end in
      update_pass x
        (λ p, Pass.set_timer (Some pl) (Pass.set_renderer (_renderer this) p))
        w1
  end.

(** [unregisterPass] *)
Definition unregisterPass (x : nat) (w : World) : World :=
  update_pass x (λ p, Pass.set_timer None (Pass.set_renderer None p)) w.

(** [addPass] *)
Definition addPass (pl x : nat) (w : World) : Completion * World :=
  match pipelines w !! pl with
  | None => (Normal, w)
  | Some this =>
      if bool_decide (is_Some (indexOf x (_passes this))) then
        (Throw ("Unable to add pass " +:+ dquote +:+ pass_name w x +:+ dquote
                +:+ " because it was already added"), w)
      else
        let w1 := registerPass pl x w in
        let w2 := update_pipeline pl (λ p, set__passes (_passes p ++ [x]) p) w1 in
        (Normal, ioManager_update w2)
  end.

(** [removePass]; [splice(index, 1)] takes one element out at [index] and
    returns what it took. *)
Definition removePass (pl x : nat) (w : World) : World :=
  match pipelines w !! pl with
  | None => w
  | Some this =>
      match indexOf x (_passes this) with
      | None => w
      | Some index =>
          let spliced := take 1 (drop index (_passes this)) in
          let w1 :=
            update_pipeline pl (λ p, set__passes (delete index (_passes p)) p)
              w in
          if (0 <? length spliced)%nat
          then ioManager_update (unregisterPass x w1)
          else w1
      end
  end.

(** [removeAllPasses] *)
Definition removeAllPasses (pl : nat) (w : World) : World :=
  match pipelines w !! pl with
  | None => w
  | Some this =>
      let w1 := foldl (λ w x, unregisterPass x w) w (_passes this) in
      ioManager_update (update_pipeline pl (set__passes []) w1)
  end.

(** [render] *)
Definition render (pl : nat) (timestamp : option Q) (w : World) : World :=
  match pipelines w !! pl with
  | None => w
  | Some this =>
      match _renderer this with
      | None => w
      | Some _ =>
          let w1 := emit (TimerUpdate pl timestamp) w in
          foldl (λ w x, if pass_enabled w x then emit (PassRender x) w else w)
            w1 (_passes this)
      end
  end.

(** [this.resolution.setBaseSize(width, height)]: when the base size
    changes, the resolution notifies the listener that the constructor
    registered, which is [onResolutionChange]; when the resolution has that
    base size already, nothing happens. *)
Definition resolution_setBaseSize (pl : nat) (width height : Z) (w : World)
  : World :=
  match pipelines w !! pl with
  | None => w
  | Some this =>
      if Resolution.changes_baseSize width height (resolution this) then
        onResolutionChange pl
          (update_pipeline pl
             (λ p, set_resolution
                     (Resolution.setBaseSize width height (resolution p)) p)
             w)
      else w
  end.

(** [setSize] *)
Definition setSize (pl : nat) (width height : Z) (style : option bool)
  (w : World) : World :=
  let updateStyle := default true style in
  resolution_setBaseSize pl width height
    (update_pipeline pl (set_updateStyle updateStyle) w).

(** [dispose] *)
Definition dispose (pl : nat) (w : World) : World :=
  match pipelines w !! pl with
  | None => w
  | Some this =>
      let w1 := emit (IOManagerRemovePipeline pl) w in
      let w2 := foldl (λ w x, emit (PassDispose x) w) w1 (_passes this) in
      emit (TimerDispose pl) (removeAllPasses pl w2)
  end.

(** What a client can do: create a renderer, a pass or a pipeline, flip
    the enable flag of a pass, and call the public methods of a pipeline. *)
Inductive Call : Type :=
  | NewRenderer (width height : Z) (pixelRatio : Q)
  | NewPass (name : string) (enabled : bool) (scale : Q)
  | New (renderer : option nat)
  | PassSetEnabled (pass : nat) (enabled : bool)
  | SetRenderer (pipeline : nat) (value : option nat)
  | AddPass (pipeline pass : nat)
  | RemovePass (pipeline pass : nat)
  | RemoveAllPasses (pipeline : nat)
  | Render (pipeline : nat) (timestamp : option Q)
  | SetSize (pipeline : nat) (width height : Z) (style : option bool)
  | Dispose (pipeline : nat).

Definition new_renderer (width height : Z) (pixelRatio : Q) (w : World)
  : World :=
  {| renderers :=
       <[fresh (dom (renderers w)) :=
           {| WebGLRenderer.width := width; WebGLRenderer.height := height;
              WebGLRenderer.pixelRatio := pixelRatio;
              WebGLRenderer.style := None |}]> (renderers w);
     passes := passes w; pipelines := pipelines w; events := events w |}.

(** A new pass is attached to nothing. *)
Definition new_pass (name : string) (enabled : bool) (scale : Q) (w : World)
  : World :=
  {| renderers := renderers w;
     passes :=
       <[fresh (dom (passes w)) :=
           {| Pass.name := name; Pass.enabled := enabled;
              Pass.renderer := None; Pass.timer := None;
              Pass.resolution := Resolution.setScale scale new_Resolution |}]>
         (passes w);
     pipelines := pipelines w; events := events w |}.

Definition call (c : Call) (w : World) : World :=
  match c with
  | NewRenderer width height pixelRatio => new_renderer width height pixelRatio w
  | NewPass name enabled scale => new_pass name enabled scale w
  | New renderer => constructor renderer w
  | PassSetEnabled x b => update_pass x (Pass.set_enabled b) w
  | SetRenderer pl value => set_renderer pl value w
  | AddPass pl x => (addPass pl x w).2
  | RemovePass pl x => removePass pl x w
  | RemoveAllPasses pl => removeAllPasses pl w
  | Render pl timestamp => render pl timestamp w
  | SetSize pl width height style => setSize pl width height style w
  | Dispose pl => dispose pl w
  end.

(** A client holds references to objects that exist, and hands a pass to
    one pipeline at a time. *)
Definition has_renderer (r : nat) (w : World) : bool :=
  bool_decide (is_Some (renderers w !! r)).

Definition has_pass (x : nat) (w : World) : bool :=
  bool_decide (is_Some (passes w !! x)).

Definition has_pipeline (pl : nat) (w : World) : bool :=
  bool_decide (is_Some (pipelines w !! pl)).

Definition unshared (pl x : nat) (w : World) : bool :=
  bool_decide
    (map_Forall (λ pl' this, pl' = pl ∨ x ∉ _passes this) (pipelines w)).

Definition permitted (c : Call) (w : World) : bool :=
  match c with
  | NewRenderer _ _ _ | NewPass _ _ _ | New None => true
  | New (Some r) => has_renderer r w
  | PassSetEnabled x _ => has_pass x w
  | SetRenderer pl None => has_pipeline pl w
  | SetRenderer pl (Some r) => has_pipeline pl w && has_renderer r w
  | AddPass pl x => has_pipeline pl w && has_pass x w && unshared pl x w
  | RemovePass pl x => has_pipeline pl w && has_pass x w
  | RemoveAllPasses pl | Render pl _ | SetSize pl _ _ _ | Dispose pl =>
      has_pipeline pl w
  end.

(** [run cs w]: the world after the calls [cs], made one after the other
    from [w]. *)
Fixpoint run (cs : list Call) (w : World) : option World :=
  match cs with
  | [] => Some w
  | c :: cs' => if permitted c w then run cs' (call c w) else None
  end.

(** [c] is a call of [setSize] on pipeline [pl]. *)
Definition is_setSize (pl : nat) (c : Call) : bool :=
  match c with
  | SetSize pl' _ _ _ => bool_decide (pl' = pl)
  | _ => false
  end.

(** What a call does to the pass list [l] of pipeline [pl], told on
    lists alone. *)
Definition list_step (pl : nat) (c : Call) (l : list nat) : list nat :=
  match c with
  | AddPass pl' x =>
      if decide (pl' = pl)
      then (if decide (x ∈ l) then l else l ++ [x])
      else l
  | RemovePass pl' x =>
      if decide (pl' = pl) then filter (λ y, y ≠ x) l else l
  | RemoveAllPasses pl' | Dispose pl' => if decide (pl' = pl) then [] else l
  | _ => l
  end.

(** Pass [x] is in the list of pipeline [pl]. *)
Definition member (x pl : nat) (w : World) : Prop :=
  ∃ this, pipelines w !! pl = Some this ∧ x ∈ _passes this.

(** Every pass in the list of a pipeline exists, is listed once, and holds
    the renderer of the pipeline (which may be [null]) and its timer. *)
Definition attached_wired (w : World) : Prop :=
  ∀ pl this, pipelines w !! pl = Some this →
    NoDup (_passes this) ∧
    ∀ x, x ∈ _passes this →
      Pass.handles <$> passes w !! x = Some (_renderer this, Some pl).

(** A pass in the list of no pipeline holds no renderer and no timer. *)
Definition detached_clear (w : World) : Prop :=
  ∀ x, is_Some (passes w !! x) → (∀ pl, ¬ member x pl w) →
    Pass.handles <$> passes w !! x = Some (None, None).

Definition consistent (w : World) : Prop :=
  attached_wired w ∧ detached_clear w.

End Methods.

(** A small world for the examples: a renderer of logical size 300×150 and
    pixel ratio 1.5 (a drawing buffer of 450×225, however the halves of
    pixels are dealt with), two passes (the second disabled and at half
    scale), and a pipeline that has the renderer and lists both passes. *)
Definition studio_calls : list Call :=
  [NewRenderer 300 150 (3 # 2)%Q;
   NewPass "clear" true 1%Q;
   NewPass "effects" false (1 # 2)%Q;
   New (Some 0);
   AddPass 0 0;
   AddPass 0 1].

Definition studio : World :=
  Eval vm_compute in
    default empty (run Math_round (1, 1)%Z studio_calls empty).

(** Its pipeline, its second pass and its renderer. *)
Definition studio_pipeline : RenderPipeline :=
  {| _renderer := Some 0; _passes := [0; 1];
     resolution :=
       {| Resolution.baseWidth := 1; Resolution.baseHeight := 1;
          Resolution.scale := 1 |};
     updateStyle := true; autoRenderToScreen := true |}.

Definition studio_effects : Pass.t :=
  {| Pass.name := "effects"; Pass.enabled := false;
     Pass.renderer := Some 0; Pass.timer := Some 0;
     Pass.resolution :=
       {| Resolution.baseWidth := 450; Resolution.baseHeight := 225;
          Resolution.scale := (1 # 2)%Q |} |}.

Definition studio_renderer : WebGLRenderer.t :=
  {| WebGLRenderer.width := 300; WebGLRenderer.height := 150;
     WebGLRenderer.pixelRatio := (3 # 2)%Q; WebGLRenderer.style := None |}.

(** A second small world: the same renderer and the pass [clear], and a
    pipeline that was made without a renderer and lists the pass. *)
Definition backstage_calls : list Call :=
  [NewRenderer 300 150 (3 # 2)%Q;
   NewPass "clear" true 1%Q;
   New None;
   AddPass 0 0].

Definition backstage : World :=
  Eval vm_compute in
    default empty (run Math_round (1, 1)%Z backstage_calls empty).

Definition backstage_pipeline : RenderPipeline :=
  {| _renderer := None; _passes := [0];
     resolution :=
       {| Resolution.baseWidth := 1; Resolution.baseHeight := 1;
          Resolution.scale := 1 |};
     updateStyle := true; autoRenderToScreen := true |}.

Definition backstage_clear : Pass.t :=
  {| Pass.name := "clear"; Pass.enabled := true;
     Pass.renderer := None; Pass.timer := Some 0;
     Pass.resolution :=
       {| Resolution.baseWidth := 1; Resolution.baseHeight := 1;
          Resolution.scale := 1 |} |}.

(** The first world with one more pass, [copy], that no pipeline lists. *)
Definition studio_with_copy : World :=
  Eval vm_compute in
    call Math_round (1, 1)%Z (NewPass "copy" true 1%Q) studio.

Definition copy_pass : Pass.t :=
  {| Pass.name := "copy"; Pass.enabled := true;
     Pass.renderer := None; Pass.timer := None;
     Pass.resolution :=
       {| Resolution.baseWidth := 1; Resolution.baseHeight := 1;
          Resolution.scale := 1 |} |}.

End RenderPipeline.

(** * Properties *)

#[local] Set Default Proof Using "Type".

(** ** Rounding *)

Lemma Math_round_comp (x y : Q) : (x == y)%Q → Math_round x = Math_round y.
Proof. intros Hxy. unfold Math_round. by rewrite Hxy. Qed.

Lemma double_comp (x y : Q) : (x == y)%Q → double x = double y.
Proof. intros H. unfold double. by rewrite (Qred_complete _ _ H). Qed.

Lemma number_mul_comp (a b b' : Q) :
  (b == b')%Q → number_mul a b = number_mul a b'.
Proof. intros H. unfold number_mul. by rewrite (double_comp _ _ H). Qed.

Lemma changes_baseSize_false (w h : Z) (r : Resolution.t) :
  Resolution.changes_baseSize w h r = false →
  Resolution.setBaseSize w h r = r.
Proof.
  unfold Resolution.changes_baseSize. intros Hsame.
  apply negb_false_iff, andb_true_iff in Hsame as [Hw Hh].
  apply Z.eqb_eq in Hw, Hh. destruct r. simpl in *. by subst.
Qed.

Lemma Math_round_inject_Z (z : Z) : Math_round (inject_Z z) = z.
Proof.
  unfold Math_round, Qfloor, Qplus, inject_Z. simpl.
  rewrite Z.div_add_l by done.
  change ((1 * 1) `div` Z.pos (1 * 2))%Z with 0%Z. lia.
Qed.

Lemma Math_round_unscaled (z : Z) (s : Q) :
  (s == 1)%Q → Math_round (inject_Z z * s) = z.
Proof.
  intros Hs.
  rewrite (Math_round_comp _ (inject_Z z)); [apply Math_round_inject_Z|].
  rewrite Hs. apply Qmult_1_r.
Qed.

(** ** Strings *)

Section JSStringFacts.

Import JSString.

Lemma append_cons (c : ascii) (a b : string) :
  String c a +:+ b = String c (a +:+ b).
Proof. reflexivity. Qed.

Lemma append_nil_r (a : string) : a +:+ EmptyString = a.
Proof. induction a as [|c a IH]; [done|]. by rewrite append_cons, IH. Qed.

Lemma append_assoc (a b c : string) : (a +:+ b) +:+ c = a +:+ b +:+ c.
Proof.
  induction a as [|x a IH]; [done|]. by rewrite !append_cons, IH.
Qed.

Lemma strip_prefix_Some (pat s post : string) :
  strip_prefix pat s = Some post ↔ s = pat +:+ post.
Proof.
  revert s. induction pat as [|a pat IH]; intros s; simpl.
  - split; [by intros [= ->]|by intros ->].
  - destruct s as [|b s]; [by split|].
    rewrite append_cons. destruct (Ascii.eqb_spec a b) as [->|Hne].
    + rewrite IH. split; [by intros ->|by intros [= ->]].
    + split; [done|]. intros [= -> _]. done.
Qed.

Lemma strip_prefix_None (pat s : string) :
  strip_prefix pat s = None ↔ ∀ post, s ≠ pat +:+ post.
Proof.
  split.
  - intros Hnone post Heq. apply strip_prefix_Some in Heq. congruence.
  - intros Hno. destruct (strip_prefix pat s) as [post|] eqn:E; [|done].
    apply strip_prefix_Some in E. by destruct (Hno post).
Qed.

Lemma split_first_sound (pat s pre post : string) :
  split_first pat s = Some (pre, post) → first_occurrence pat s pre post.
Proof.
  revert pre post. induction s as [|c s IH]; intros pre post; simpl.
  - destruct (strip_prefix pat EmptyString) as [p|] eqn:E; [|done].
    intros [= <- <-]. apply strip_prefix_Some in E.
    split; [done|]. intros a b _. simpl. lia.
  - destruct (strip_prefix pat (String c s)) as [p|] eqn:E.
    + intros [= <- <-]. apply strip_prefix_Some in E.
      split; [done|]. intros a b _. simpl. lia.
    + destruct (split_first pat s) as [[pre' post']|] eqn:E'; [|done].
      intros [= <- <-]. destruct (IH _ _ eq_refl) as [Hs Hfirst].
      split; [by rewrite append_cons, <- Hs|].
      intros a b Hab. destruct a as [|x a].
      * exfalso. by apply (proj1 (strip_prefix_None _ _) E b).
      * rewrite append_cons in Hab. injection Hab as _ Hab.
        simpl. apply Hfirst in Hab. lia.
Qed.

Lemma split_first_None (pat s : string) :
  split_first pat s = None ↔ ¬ occurs pat s.
Proof.
  induction s as [|c s IH]; simpl.
  - destruct (strip_prefix pat EmptyString) as [p|] eqn:E.
    + split; [done|]. intros Hno. exfalso. apply Hno.
      apply strip_prefix_Some in E. exists EmptyString, p. exact E.
    + split; [|done]. intros _ (a & b & Hab).
      destruct a; [|done].
      by apply (proj1 (strip_prefix_None _ _) E b).
  - destruct (strip_prefix pat (String c s)) as [p|] eqn:E.
    + split; [done|]. intros Hno. exfalso. apply Hno.
      apply strip_prefix_Some in E. exists EmptyString, p. exact E.
    + destruct (split_first pat s) as [[pre post]|] eqn:E'.
      * split; [done|]. intros Hno. exfalso. apply Hno.
        apply split_first_sound in E' as [-> _].
        by exists (String c pre), post.
      * split; [|done]. intros _ (a & b & Hab). destruct a as [|x a].
        -- by apply (proj1 (strip_prefix_None _ _) E b).
        -- rewrite append_cons in Hab. injection Hab as _ Hab.
           apply (proj1 IH eq_refl). by exists a, b.
Qed.

Lemma append_inj_length (a a' b b' : string) :
  a +:+ b = a' +:+ b' → String.length a = String.length a' →
  a = a' ∧ b = b'.
Proof.
  revert a'. induction a as [|x a IH]; intros [|x' a']; simpl; try done.
  rewrite !append_cons. intros [= -> Hab] [= Hlen].
  destruct (IH _ Hab Hlen) as [-> ->]. done.
Qed.

Lemma first_occurrence_unique (pat s pre post pre' post' : string) :
  first_occurrence pat s pre post → first_occurrence pat s pre' post' →
  pre = pre' ∧ post = post'.
Proof.
  intros [Hs Hmin] [Hs' Hmin'].
  assert (String.length pre = String.length pre') as Hlen.
  { apply Nat.le_antisymm; [by eapply Hmin|by eapply Hmin']. }
  rewrite Hs in Hs'. apply append_inj_length in Hs' as [-> Hrest]; [|done].
  split; [done|]. apply append_inj_length in Hrest as [_ ->]; done.
Qed.

Lemma split_first_complete (pat s pre post : string) :
  first_occurrence pat s pre post → split_first pat s = Some (pre, post).
Proof.
  intros Hfirst. destruct (split_first pat s) as [[pre' post']|] eqn:E.
  - apply split_first_sound in E.
    by destruct (first_occurrence_unique _ _ _ _ _ _ E Hfirst) as [-> ->].
  - apply split_first_None in E. destruct E.
    destruct Hfirst as [-> _]. by exists pre, post.
Qed.


(** Without an occurrence of the pattern the string is returned as it is. *)
Lemma replace_absent (pat s replacement : string) :
  ¬ occurs pat s → replace s pat replacement = s.
Proof.
  intros Hno. unfold replace.
  by rewrite (proj2 (split_first_None _ _) Hno).
Qed.

Lemma GetSubstitution_escape (matched pre post text : string) :
  GetSubstitution matched pre post (escape_dollars text) = text.
Proof.
  induction text as [|c text IH]; [done|]. simpl.
  destruct (Ascii.eqb_spec c "$") as [->|Hne]; simpl.
  - by rewrite IH.
  - rewrite (proj2 (Ascii.eqb_neq _ _) Hne). by rewrite IH.
Qed.


End JSStringFacts.

(** ** [EffectMaterial] *)

(** One stage of [well_placed] on a concrete layout: the pieces before and
    after the placeholder are given, the rest is computed. *)
Ltac well_placed_step before after :=
  split;
  [exists before, after;
   split; [reflexivity|];
   split; [apply (bool_decide_unpack _); vm_compute; exact I|];
   split; [apply (bool_decide_unpack _); vm_compute; exact I|];
   apply split_first_sound; vm_compute; reflexivity
  |].

Section EffectMaterialFacts.

Import JSString EffectMaterial.

Lemma setUniforms_cons (entry : string * UniformRef)
  (entries : list (string * UniformRef)) (this : EffectMaterial) :
  setUniforms (entry :: entries) this =
  setUniforms entries
    (set_uniforms (<[entry.1 := entry.2]> (uniforms this)) this).
Proof. reflexivity. Qed.

Lemma setUniforms_lookup (entries : list (string * UniformRef))
  (this : EffectMaterial) (key : string) :
  uniforms (setUniforms entries this) !! key =
  match lookup_last key entries with
  | Some u => Some u
  | None => uniforms this !! key
  end.
Proof.
  revert this. induction entries as [|entry entries IH]; intros this; [done|].
  rewrite setUniforms_cons, IH. simpl.
  destruct (lookup_last key entries); [done|].
  destruct (decide (entry.1 = key)) as [<-|Hne].
  - by rewrite lookup_insert_eq.
  - by rewrite lookup_insert_ne.
Qed.

Lemma setUniforms_values (entries : list (string * UniformRef))
  (this : EffectMaterial) :
  values (setUniforms entries this) = values this.
Proof.
  revert this. induction entries as [|entry entries IH]; intros this; [done|].
  rewrite setUniforms_cons.
  exact (IH (set_uniforms (<[entry.1 := entry.2]> (uniforms this)) this)).
Qed.

Lemma setUniforms_frame (entries : list (string * UniformRef))
  (this : EffectMaterial) :
  version (setUniforms entries this) = version this ∧
  defines (setUniforms entries this) = defines this ∧
  fragmentShader (setUniforms entries this) = fragmentShader this ∧
  vertexShader (setUniforms entries this) = vertexShader this.
Proof.
  revert this. induction entries as [|entry entries IH]; intros this; [done|].
  rewrite setUniforms_cons.
  exact (IH (set_uniforms (<[entry.1 := entry.2]> (uniforms this)) this)).
Qed.

(** C6, as the code has it: [setUniforms(u)] merges [u] into the uniform
    map of the material, the last writer of a name winning (an entry of [u]
    over the material's, a later entry of [u] over an earlier one), and it
    leaves the recompilation counter, the macros and both shader texts as
    they were, whether or not [u] brings names that the material did not
    have. *)
Theorem setUniforms_merges_without_flag
  (entries : list (string * UniformRef))
  (this : EffectMaterial) :
  let this' := setUniforms entries this in
  (∀ key : string,
     uniforms this' !! key =
     match lookup_last key entries with
     | Some u => Some u
     | None => uniforms this !! key
     end) ∧
  version this' = version this ∧
  defines this' = defines this ∧
  fragmentShader this' = fragmentShader this ∧
  vertexShader this' = vertexShader this.
Proof.
  split; [intros key; apply setUniforms_lookup|apply setUniforms_frame].
Qed.

(** C6, as the claim has it, fails: a material that declares [gBuffer] and
    [time] is given the new name [tint]; the name is added and the
    recompilation counter stays at 0. *)
Lemma setUniforms_new_name_not_flagged :
  let this :=
    {| defines := ∅;
       uniforms := <["gBuffer" := 0]> (<["time" := 1]> ∅);
       values := λ o, match o with 0 => VNull | 1 => VNumber 0 | _ => VNumber 1 end;
       fragmentShader := "void main() {}";
       vertexShader := "void main() {}";
       version := 0 |} in
  let u := [("tint", 2)] in
  uniforms this !! "tint" = None ∧
  uniforms (setUniforms u this) !! "tint" = Some 2 ∧
  uniform_value "tint" (setUniforms u this) = Some (VNumber 1) ∧
  version (setUniforms u this) = 0.
Proof. vm_compute. done. Qed.

(** C7: assigning [colorSpaceConversion] the value it has changes nothing
    at all; assigning the other value flips the property, adds the macro
    [COLOR_SPACE_CONVERSION] (with value "1") or removes it, touches no
    other macro, and raises the recompilation counter by exactly one. *)
Theorem colorSpaceConversion_assignment (this : EffectMaterial) :
  set_colorSpaceConversion (colorSpaceConversion this) this = this ∧
  let this' :=
    set_colorSpaceConversion (negb (colorSpaceConversion this)) this in
  colorSpaceConversion this' = negb (colorSpaceConversion this) ∧
  defines this' !! "COLOR_SPACE_CONVERSION" =
    (if colorSpaceConversion this then None else Some (DString "1")) ∧
  (∀ key : string,
     key ≠ "COLOR_SPACE_CONVERSION" →
     defines this' !! key = defines this !! key) ∧
  version this' = S (version this) ∧
  uniforms this' = uniforms this ∧
  fragmentShader this' = fragmentShader this ∧
  vertexShader this' = vertexShader this.
Proof.
  unfold set_colorSpaceConversion.
  destruct (colorSpaceConversion this) eqn:Hcur; simpl.
  - split; [done|]. unfold colorSpaceConversion. simpl.
    rewrite lookup_delete_eq.
    split; [apply bool_decide_eq_false; by intros [? ?]|].
    split; [done|].
    split; [intros key Hne; by rewrite lookup_delete_ne|done].
  - split; [done|]. unfold colorSpaceConversion. simpl.
    rewrite lookup_insert_eq.
    split; [by apply bool_decide_eq_true|].
    split; [done|].
    split; [intros key Hne; by rewrite lookup_insert_ne|done].
Qed.

Section Templates.

Variable marker : EffectShaderSection → string.
Variable fragmentTemplate vertexTemplate : string.

Local Abbreviation replace_section := (replace_section marker).
Local Abbreviation setShaderParts :=
  (setShaderParts marker fragmentTemplate vertexTemplate).


Lemma fill_app (f : EffectShaderSection → string) (a b : list Piece) :
  fill f (a ++ b) = fill f a +:+ fill f b.
Proof.
  induction a as [|piece a IH]; [done|].
  simpl. by rewrite IH, append_assoc.
Qed.

Lemma fill_placeholder (f : EffectShaderSection → string)
  (key : EffectShaderSection) (layout : list Piece) :
  fill f (Placeholder key :: layout) = f key +:+ fill f layout.
Proof. reflexivity. Qed.

Lemma fill_ext (f g : EffectShaderSection → string) (layout : list Piece) :
  (∀ key, Placeholder key ∈ layout → f key = g key) →
  fill f layout = fill g layout.
Proof.
  induction layout as [|piece layout IH]; intros Hfg; [done|].
  simpl. rewrite IH by (intros key Hin; apply Hfg; by right).
  destruct piece as [t|key]; [done|]. rewrite (Hfg key); [done|by left].
Qed.

(** The chain of [replace] calls on a template whose placeholders are well
    placed fills in all of them. *)
Lemma chain_fills (parts : gmap EffectShaderSection (option string))
  (text : EffectShaderSection → string)
  (keys earlier : list EffectShaderSection) (layout : list Piece) :
  (∀ key, part parts key = escape_dollars (text key)) →
  well_placed marker text earlier keys layout →
  foldl (replace_section parts) (fill (filled marker text earlier) layout) keys =
  fill (filled marker text (rev keys ++ earlier)) layout.
Proof.
  intros Hparts. revert earlier.
  induction keys as [|key keys IH]; intros earlier Hplaced; [done|].
  destruct Hplaced as [(before & after & Hlayout & Hb & Ha & Hfirst) Hrest].
  simpl foldl.
  assert (replace_section parts (fill (filled marker text earlier) layout) key =
          fill (filled marker text (key :: earlier)) layout) as ->.
  { unfold EffectMaterial.replace_section, replace.
    rewrite (split_first_complete _ _ _ _ Hfirst), Hparts,
      GetSubstitution_escape.
    rewrite Hlayout, fill_app, fill_placeholder.
    assert (filled marker text (key :: earlier) key = text key) as ->.
    { unfold filled. rewrite decide_True; [done|by left]. }
    rewrite (fill_ext (filled marker text (key :: earlier))
               (filled marker text earlier) before),
      (fill_ext (filled marker text (key :: earlier))
         (filled marker text earlier) after); [done| |].
    - intros k Hk. unfold filled.
      assert (k ≠ key) as Hne by (by intros ->).
      destruct (decide (k ∈ earlier)) as [Hin|Hnin].
      + rewrite decide_True; [done|by right].
      + rewrite decide_False; [done|].
        by intros [?|?]%elem_of_cons.
    - intros k Hk. unfold filled.
      assert (k ≠ key) as Hne by (by intros ->).
      destruct (decide (k ∈ earlier)) as [Hin|Hnin].
      + rewrite decide_True; [done|by right].
      + rewrite decide_False; [done|].
        by intros [?|?]%elem_of_cons. }
  rewrite (IH _ Hrest). simpl. by rewrite <- app_assoc.
Qed.

(** [setShaderParts] on templates that are laid out so. *)
Lemma setShaderParts_fills
  (parts : gmap EffectShaderSection (option string))
  (text : EffectShaderSection → string) (this : EffectMaterial)
  (fragmentLayout vertexLayout : list Piece) :
  fragmentTemplate = fill marker fragmentLayout →
  vertexTemplate = fill marker vertexLayout →
  (∀ key, Placeholder key ∈ fragmentLayout →
     key ∈ [FRAGMENT_MAIN_IMAGE; FRAGMENT_MAIN_GDATA; FRAGMENT_MAIN_UV;
            FRAGMENT_HEAD; FRAGMENT_HEAD_GBUFFER]) →
  (∀ key, Placeholder key ∈ vertexLayout →
     key ∈ [VERTEX_MAIN_SUPPORT; VERTEX_HEAD]) →
  (∀ key, part parts key = escape_dollars (text key)) →
  well_placed marker text []
    [FRAGMENT_MAIN_IMAGE; FRAGMENT_MAIN_GDATA; FRAGMENT_MAIN_UV;
     FRAGMENT_HEAD; FRAGMENT_HEAD_GBUFFER] fragmentLayout →
  well_placed marker text [] [VERTEX_MAIN_SUPPORT; VERTEX_HEAD] vertexLayout →
  fragmentShader (setShaderParts parts this) = fill text fragmentLayout ∧
  vertexShader (setShaderParts parts this) = fill text vertexLayout.
Proof.
  intros Hf Hv Hfkeys Hvkeys Hparts Hfplaced Hvplaced.
  unfold EffectMaterial.setShaderParts, set_needsUpdate, set_shaders.
  cbn [fragmentShader vertexShader].
  unfold fragment_sections, vertex_sections.
  assert (∀ layout, fill marker layout = fill (filled marker text []) layout)
    as Hstart.
  { intros layout. apply fill_ext. intros key _. unfold filled.
    rewrite decide_False; [done|]. by intros ?%elem_of_nil. }
  rewrite Hf, Hv, (Hstart fragmentLayout), (Hstart vertexLayout).
  rewrite (chain_fills parts text _ [] _ Hparts Hfplaced),
    (chain_fills parts text _ [] _ Hparts Hvplaced).
  split; apply fill_ext; intros key Hkey; unfold filled.
  - rewrite decide_True; [done|].
    rewrite app_nil_r. apply elem_of_reverse. by apply Hfkeys.
  - rewrite decide_True; [done|].
    rewrite app_nil_r. apply elem_of_reverse. by apply Hvkeys.
Qed.


End Templates.

Lemma example_fragment_keys (key : EffectShaderSection) :
  Placeholder key ∈ example_fragment_layout →
  key ∈ [FRAGMENT_MAIN_IMAGE; FRAGMENT_MAIN_GDATA; FRAGMENT_MAIN_UV;
         FRAGMENT_HEAD; FRAGMENT_HEAD_GBUFFER].
Proof.
  intros Hin. apply (bool_decide_unpack _).
  destruct key; try (vm_compute; exact I);
    apply (bool_decide_pack _) in Hin; vm_compute in Hin; destruct Hin.
Defined.

Lemma example_vertex_keys (key : EffectShaderSection) :
  Placeholder key ∈ example_vertex_layout →
  key ∈ [VERTEX_MAIN_SUPPORT; VERTEX_HEAD].
Proof.
  intros Hin. apply (bool_decide_unpack _).
  destruct key; try (vm_compute; exact I);
    apply (bool_decide_pack _) in Hin; vm_compute in Hin; destruct Hin.
Defined.


(** The texts of that call. *)
Example setShaderParts_texts :
  let parts : gmap EffectShaderSection (option string) :=
    <[FRAGMENT_MAIN_IMAGE := Some "c = f(c);"]> (<[FRAGMENT_HEAD := None]> ∅) in
  fill (part parts) example_fragment_layout = "  void main() {   c = f(c); }" ∧
  fill (part parts) example_vertex_layout = " void main() {  }".
Proof. vm_compute. done. Qed.

(** A template with two placeholders, one of them filled in: the text that
    is filled in may itself use the [$] patterns of [replace]. *)
Example setShaderParts_example :
  let marker (key : EffectShaderSection) : string :=
    match key with
    | FRAGMENT_HEAD => "$HEAD"
    | FRAGMENT_MAIN_IMAGE => "$IMAGE"
    | FRAGMENT_HEAD_GBUFFER => "$GBUFFER"
    | FRAGMENT_MAIN_UV => "$UV"
    | FRAGMENT_MAIN_GDATA => "$GDATA"
    | VERTEX_HEAD => "$VHEAD"
    | VERTEX_MAIN_SUPPORT => "$VMAIN"
    end in
  let this :=
    {| defines := ∅; uniforms := ∅; values := λ _, VNull;
       fragmentShader := EmptyString;
       vertexShader := EmptyString; version := 3 |} in
  let this' :=
    EffectMaterial.setShaderParts marker "$HEAD void main() { $UV $IMAGE }"
      "$VHEAD void main() { $VMAIN }"
      (<[FRAGMENT_MAIN_IMAGE := Some "c = f(c);"]>
         (<[FRAGMENT_HEAD := None]> ∅)) this in
  fragmentShader this' = " void main() {  c = f(c); }" ∧
  vertexShader this' = " void main() {  }" ∧
  version this' = 4.
Proof. vm_compute. done. Qed.

End EffectMaterialFacts.

(** ** [ScanlineEffect] *)

Section ScanlineEffectFacts.

Import ScanlineEffect.

Lemma set_uniform_value_Some (key : string) (v : UniformValue)
  (this : ScanlineEffect) :
  is_Some (uniforms (super this) !! key) →
  set_uniform_value key v this =
  Some (with_super
          (set_uniforms (<[key := mkUniform v]> (uniforms (super this)))) this).
Proof. intros [u Hu]. unfold set_uniform_value. by rewrite Hu. Qed.

Lemma set_uniform_value_declared (key : string) (v : UniformValue)
  (this this' : ScanlineEffect) :
  set_uniform_value key v this = Some this' →
  declared this → declared this'.
Proof.
  unfold set_uniform_value.
  destruct (uniforms (super this) !! key) eqn:Hkey; [|done].
  intros [= <-] [Hc Hs]. split; simpl.
  - destruct (decide (key = "count")) as [->|Hne];
      [by rewrite lookup_insert_eq|by rewrite lookup_insert_ne].
  - destruct (decide (key = "scrollSpeed")) as [->|Hne];
      [by rewrite lookup_insert_eq|by rewrite lookup_insert_ne].
Qed.

(** What [set scrollSpeed] does to an effect that has the uniform. *)
Lemma set_scrollSpeed_unfold (v : Q) (this : ScanlineEffect) :
  is_Some (uniforms (super this) !! "scrollSpeed") →
  let this1 :=
    with_super
      (set_uniforms
         (<["scrollSpeed" := mkUniform (VNumber v)]> (uniforms (super this))))
      this in
  set_scrollSpeed v this =
  Some (if number_eq v 0 then
          if has_SCROLL this then
            with_super
              (λ e, setChanged (set_defines (delete "SCROLL" (defines e)) e))
              this1
          else this1
        else if has_SCROLL this then this1
        else
          with_super
            (λ e, setChanged
                    (set_defines (<["SCROLL" := DString "1"]> (defines e)) e))
            this1).
Proof.
  intros Hs. unfold set_scrollSpeed.
  rewrite (set_uniform_value_Some _ _ _ Hs). simpl.
  change (has_SCROLL (with_super _ this)) with (has_SCROLL this).
  by destruct (number_eq v 0), (has_SCROLL this).
Qed.

Lemma updateCount_unfold (h : Z) (this : ScanlineEffect) :
  is_Some (uniforms (super this) !! "count") →
  updateCount h this =
  Some (with_super
          (set_uniforms
             (<["count" :=
                  mkUniform
                    (VNumber
                       (inject_Z
                          (Math_round (number_mul (inject_Z h) (d this)))))]>
                (uniforms (super this))))
          this).
Proof. intros Hc. unfold updateCount. by rewrite set_uniform_value_Some. Qed.

Lemma constructor_unfold (options : ScanlineEffectOptions) (shader : string)
  (base : Effect) :
  ∃ this, constructor options shader base = Some this ∧ declared this ∧
    d this = default (5 # 4)%Q (opt_density options) ∧
    count this = Some (VNumber 0) ∧
    resolution (super this) = resolution base.
Proof.
  unfold constructor.
  set (this0 := {| super := _; d := _ |}).
  assert (declared this0) as Hd.
  { split; simpl.
    - rewrite lookup_insert_ne by done. by rewrite lookup_insert_eq.
    - by rewrite lookup_insert_eq. }
  assert (count this0 = Some (VNumber 0)) as Hc.
  { unfold count, uniform_value. simpl.
    rewrite lookup_insert_ne by done. by rewrite lookup_insert_eq. }
  pose proof (set_scrollSpeed_unfold (default 0%Q (opt_scrollSpeed options))
                this0 (proj2 Hd)) as Hset.
  simpl in Hset. eexists. split; [exact Hset|].
  clear Hset.
  destruct (number_eq _ 0), (has_SCROLL this0);
    (split; [split; simpl|split; [done|split; [|done]]]);
    try (rewrite lookup_insert_ne by done; by rewrite lookup_insert_eq);
    try (by rewrite lookup_insert_eq);
    try (rewrite lookup_insert_ne by done; by rewrite lookup_insert_ne,
           lookup_insert_eq by done);
    unfold count, uniform_value in *; simpl in *;
    by rewrite lookup_insert_ne by done.
Qed.

Lemma call_declared (c : Call) (this : ScanlineEffect) :
  declared this → ∃ this', call c this = Some this' ∧ declared this'.
Proof.
  intros Hd. destruct c as [v|v|w h|w h|s]; simpl.
  - unfold set_density.
    assert (declared (set_d v this)) as Hd' by exact Hd.
    rewrite (updateCount_unfold _ _ (proj1 Hd')). eexists. split; [done|].
    eapply set_uniform_value_declared; [|exact Hd'].
    by apply set_uniform_value_Some, Hd'.
  - rewrite (set_scrollSpeed_unfold _ _ (proj2 Hd)). eexists. split; [done|].
    assert (declared
              (with_super
                 (set_uniforms
                    (<["scrollSpeed" := mkUniform (VNumber v)]>
                       (uniforms (super this)))) this)) as Hd'.
    { eapply set_uniform_value_declared; [|exact Hd].
      by apply set_uniform_value_Some, Hd. }
    by destruct (number_eq v 0), (has_SCROLL this).
  - unfold setSize. rewrite (updateCount_unfold _ _ (proj1 Hd)).
    eexists. split; [done|].
    eapply set_uniform_value_declared; [|exact Hd].
    by apply set_uniform_value_Some, Hd.
  - unfold resolution_setBaseSize, onResolutionChange.
    destruct (Resolution.changes_baseSize _ _ _); [|by exists this].
    set (this1 := with_super _ this).
    assert (declared this1) as Hd' by exact Hd.
    rewrite (updateCount_unfold _ _ (proj1 Hd')). eexists. split; [done|].
    eapply set_uniform_value_declared; [|exact Hd'].
    by apply set_uniform_value_Some, Hd'.
  - unfold resolution_setScale, onResolutionChange.
    destruct (Resolution.changes_scale _ _); [|by exists this].
    set (this1 := with_super _ this).
    assert (declared this1) as Hd' by exact Hd.
    rewrite (updateCount_unfold _ _ (proj1 Hd')). eexists. split; [done|].
    eapply set_uniform_value_declared; [|exact Hd'].
    by apply set_uniform_value_Some, Hd'.
Qed.

(** No call on a constructed effect throws. *)
Lemma calls_total (cs : list Call) (this : ScanlineEffect) :
  declared this → ∃ this', calls cs this = Some this' ∧ declared this'.
Proof.
  revert this. induction cs as [|c cs IH]; intros this Hd; simpl.
  - by exists this.
  - destruct (call_declared c this Hd) as (this1 & -> & Hd1). simpl.
    by apply IH.
Qed.

Lemma set_scrollSpeed_effect (v : Q) (this : ScanlineEffect) :
  declared this →
  ∃ this', set_scrollSpeed v this = Some this' ∧ declared this' ∧
    scrollSpeed this' = Some (VNumber v) ∧
    has_SCROLL this' = negb (number_eq v 0) ∧
    changed (super this') =
      (if eqb (has_SCROLL this) (negb (number_eq v 0))
       then changed (super this) else S (changed (super this))) ∧
    defines (super this') =
      (if number_eq v 0 then delete "SCROLL" (defines (super this))
       else if has_SCROLL this then defines (super this)
       else <["SCROLL" := DString "1"]> (defines (super this))).
Proof.
  intros Hd. rewrite (set_scrollSpeed_unfold _ _ (proj2 Hd)).
  eexists. split; [done|].
  assert (declared
            (with_super
               (set_uniforms
                  (<["scrollSpeed" := mkUniform (VNumber v)]>
                     (uniforms (super this)))) this)) as Hd'.
  { eapply set_uniform_value_declared; [|exact Hd].
    by apply set_uniform_value_Some, Hd. }
  unfold scrollSpeed, uniform_value.
  destruct (number_eq v 0), (has_SCROLL this) eqn:Hhas; simpl;
    rewrite ?lookup_insert_eq; (split; [exact Hd'|]); (split; [done|]).
  - split; [|done]. unfold has_SCROLL. simpl. rewrite lookup_delete_eq.
    apply bool_decide_eq_false. by intros [? ?].
  - split; [done|split; [done|]].
    apply bool_decide_eq_false in Hhas. symmetry. apply delete_id.
    by apply eq_None_not_Some.
  - done.
  - split; [|done]. unfold has_SCROLL. simpl. rewrite lookup_insert_eq.
    by apply bool_decide_eq_true.
Qed.

(** Assigning the speed that is set already, the macro being in step with
    it, changes nothing. *)
Lemma set_scrollSpeed_same (v : Q) (this : ScanlineEffect) :
  scrollSpeed this = Some (VNumber v) →
  has_SCROLL this = negb (number_eq v 0) →
  set_scrollSpeed v this = Some this.
Proof.
  unfold scrollSpeed, uniform_value. intros Hv Hhas.
  destruct (uniforms (super this) !! "scrollSpeed") as [[u]|] eqn:Hu; [|done].
  simpl in Hv. injection Hv as ->.
  rewrite set_scrollSpeed_unfold by (by rewrite Hu).
  rewrite Hhas. rewrite (insert_id _ _ _ Hu).
  destruct this as [[] ?]. by destruct (number_eq v 0).
Qed.

(** C5: an effect constructed with scroll speed 0 (given or by default)
    does not declare [SCROLL]; assigning a nonzero speed then adds the
    macro and sends the change signal once; assigning the same speed again
    changes nothing, the signal count included; assigning 0 takes the macro
    out and sends the signal once, and a second 0 changes nothing. *)
Theorem scrollSpeed_SCROLL_macro (density speed : option Q) (shader : string)
  (base : Effect) (v : Q) :
  number_eq (default 0%Q speed) 0 = true →
  number_eq v 0 = false →
  ∃ e0 e1 e2 : ScanlineEffect,
    constructor {| opt_density := density; opt_scrollSpeed := speed |}
      shader base = Some e0 ∧
    defines (super e0) !! "SCROLL" = None ∧
    set_scrollSpeed v e0 = Some e1 ∧
    defines (super e1) = <["SCROLL" := DString "1"]> (defines (super e0)) ∧
    changed (super e1) = S (changed (super e0)) ∧
    set_scrollSpeed v e1 = Some e1 ∧
    set_scrollSpeed 0 e1 = Some e2 ∧
    defines (super e2) = defines (super e0) ∧
    changed (super e2) = S (changed (super e1)) ∧
    set_scrollSpeed 0 e2 = Some e2.
Proof.
  intros Hzero Hv. unfold constructor.
  set (this0 := {| super := _; d := _ |}).
  assert (declared this0) as Hd.
  { split; simpl.
    - rewrite lookup_insert_ne by done. by rewrite lookup_insert_eq.
    - by rewrite lookup_insert_eq. }
  destruct (set_scrollSpeed_effect (default 0%Q speed) this0 Hd)
    as (e0 & He0 & Hd0 & Hs0 & Hh0 & _ & Hdef0).
  rewrite Hzero in Hh0, Hdef0. simpl in Hh0.
  destruct (set_scrollSpeed_effect v e0 Hd0)
    as (e1 & He1 & Hd1 & Hs1 & Hh1 & Hc1 & Hdef1).
  rewrite Hv, Hh0 in Hc1, Hdef1. rewrite Hv in Hh1. simpl in Hh1, Hc1.
  destruct (set_scrollSpeed_effect 0 e1 Hd1)
    as (e2 & He2 & Hd2 & Hs2 & Hh2 & Hc2 & Hdef2).
  rewrite Hh1 in Hc2. simpl in Hh2, Hc2, Hdef2.
  assert (defines (super e0) !! "SCROLL" = None) as Hnone.
  { apply bool_decide_eq_false in Hh0. by apply eq_None_not_Some. }
  exists e0, e1, e2. repeat split; try done.
  - apply set_scrollSpeed_same; [done|by rewrite Hv].
  - rewrite Hdef2, Hdef1. rewrite delete_insert_eq. by apply delete_id.
  - by apply set_scrollSpeed_same.
Qed.

Lemma scrollSpeed_SCROLL_macro_witness :
  ∃ e0 e1 e2 : ScanlineEffect,
    constructor {| opt_density := None; opt_scrollSpeed := None |}
      "scanline.frag" plain_effect = Some e0 ∧
    defines (super e0) !! "SCROLL" = None ∧
    set_scrollSpeed (3 # 500) e0 = Some e1 ∧
    defines (super e1) = <["SCROLL" := DString "1"]> (defines (super e0)) ∧
    changed (super e1) = S (changed (super e0)) ∧
    set_scrollSpeed (3 # 500) e1 = Some e1 ∧
    set_scrollSpeed 0 e1 = Some e2 ∧
    defines (super e2) = defines (super e0) ∧
    changed (super e2) = S (changed (super e1)) ∧
    set_scrollSpeed 0 e2 = Some e2.
Proof.
  apply (scrollSpeed_SCROLL_macro None None "scanline.frag" plain_effect
           (3 # 500)); reflexivity.
Defined.

Lemma updateCount_effect (h : Z) (this : ScanlineEffect) :
  declared this →
  ∃ this', updateCount h this = Some this' ∧ declared this' ∧
    d this' = d this ∧
    resolution (super this') = resolution (super this) ∧
    defines (super this') = defines (super this) ∧
    changed (super this') = changed (super this) ∧
    count this' =
      Some (VNumber (inject_Z (Math_round (number_mul (inject_Z h) (d this))))).
Proof.
  intros Hd. rewrite (updateCount_unfold _ _ (proj1 Hd)).
  eexists. split; [done|]. split.
  { eapply set_uniform_value_declared; [|exact Hd].
    by apply set_uniform_value_Some, Hd. }
  repeat split. unfold count, uniform_value. simpl.
  by rewrite lookup_insert_eq.
Qed.

Lemma onResolutionChange_in_step (r : Resolution.t) (e : ScanlineEffect) :
  declared e →
  ∃ e', onResolutionChange r (with_super (set_resolution r) e) = Some e' ∧
    declared e' ∧ d e' = d e ∧ resolution (super e') = r ∧
    count e' = Some (expected_count e').
Proof.
  intros He. unfold onResolutionChange.
  destruct (updateCount_effect (Resolution.height r)
              (with_super (set_resolution r) e) He)
    as (e' & He' & Hd' & Hdd & Hr & _ & _ & Hc).
  exists e'. split; [done|]. split; [done|]. split; [done|].
  split; [done|]. rewrite Hc. unfold expected_count, density.
  by rewrite Hr, Hdd.
Qed.

(** C9, as the code has it: the [count] uniform is [round(h × d)] (the
    product being the double that [h * d] gives), [h] being the height of
    the effect's resolution and [d] its density, right after every
    assignment to [density] and every change of the resolution (base size
    or scale); an assignment of the base size or of the scale that the
    resolution has already changes nothing, so a count that was in step
    stays in step; a change of the width alone leaves a count that was in
    step as it was; with density 1.25 and scale 1 a change to the height
    600 gives 750 and one to 640 gives 800.  [setSize(width, height)]
    computes the count from its own [height] and leaves the resolution
    alone. *)
Theorem count_follows_density_and_resolution (this : ScanlineEffect) :
  declared this →
  (∀ v : Q, ∃ this',
     set_density v this = Some this' ∧ d this' = v ∧
     resolution (super this') = resolution (super this) ∧
     count this' = Some (expected_count this')) ∧
  (∀ w h : Z,
     Resolution.changes_baseSize w h (resolution (super this)) = true →
     ∃ this',
       resolution_setBaseSize w h this = Some this' ∧ d this' = d this ∧
       resolution (super this') =
         Resolution.setBaseSize w h (resolution (super this)) ∧
       count this' = Some (expected_count this')) ∧
  (∀ s : Q,
     Resolution.changes_scale s (resolution (super this)) = true →
     ∃ this',
       resolution_setScale s this = Some this' ∧ d this' = d this ∧
       resolution (super this') =
         Resolution.setScale s (resolution (super this)) ∧
       count this' = Some (expected_count this')) ∧
  (∀ w h : Z,
     Resolution.changes_baseSize w h (resolution (super this)) = false →
     resolution_setBaseSize w h this = Some this) ∧
  (∀ s : Q,
     Resolution.changes_scale s (resolution (super this)) = false →
     resolution_setScale s this = Some this) ∧
  (count this = Some (expected_count this) →
   (∀ w h : Z, ∃ this',
      resolution_setBaseSize w h this = Some this' ∧
      count this' = Some (expected_count this')) ∧
   (∀ s : Q, ∃ this',
      resolution_setScale s this = Some this' ∧
      count this' = Some (expected_count this')) ∧
   (∀ w : Z, ∃ this',
      resolution_setBaseSize w
        (Resolution.baseHeight (resolution (super this))) this = Some this' ∧
      count this' = count this)) ∧
  (∀ w h : Z, ∃ this',
     setSize w h this = Some this' ∧ d this' = d this ∧
     resolution (super this') = resolution (super this) ∧
     count this' =
       Some (VNumber
               (inject_Z (Math_round (number_mul (inject_Z h) (d this)))))) ∧
  ((Resolution.scale (resolution (super this)) == 1)%Q →
   (d this == 5 # 4)%Q →
   ∀ w w' : Z,
     Resolution.changes_baseSize w 600 (resolution (super this)) = true →
     ∃ e1 e2,
       resolution_setBaseSize w 600 this = Some e1 ∧
       count e1 = Some (VNumber (inject_Z 750)) ∧
       resolution_setBaseSize w' 640 e1 = Some e2 ∧
       count e2 = Some (VNumber (inject_Z 800))).
Proof.
  intros Hd.
  pose proof onResolutionChange_in_step as Hres.
  split; [|split; [|split; [|split; [|split; [|split; [|split]]]]]].
  - intros v. unfold set_density.
    destruct (updateCount_effect
                (Resolution.height (resolution (super (set_d v this))))
                (set_d v this) Hd)
      as (e' & He' & _ & Hdd & Hr & _ & _ & Hc).
    exists e'. split; [done|]. split; [done|]. split; [done|].
    rewrite Hc. unfold expected_count, density. by rewrite Hr, Hdd.
  - intros w h Hch. unfold resolution_setBaseSize. rewrite Hch.
    destruct (Hres (Resolution.setBaseSize w h (resolution (super this)))
                this Hd) as (e' & He' & _ & Hdd & Hr & Hc).
    by exists e'.
  - intros s Hch. unfold resolution_setScale. rewrite Hch.
    destruct (Hres (Resolution.setScale s (resolution (super this)))
                this Hd) as (e' & He' & _ & Hdd & Hr & Hc).
    by exists e'.
  - intros w h Hch. unfold resolution_setBaseSize. by rewrite Hch.
  - intros s Hch. unfold resolution_setScale. by rewrite Hch.
  - intros Hstep. split; [|split].
    + intros w h. unfold resolution_setBaseSize.
      destruct (Resolution.changes_baseSize _ _ _); [|by exists this].
      destruct (Hres (Resolution.setBaseSize w h (resolution (super this)))
                  this Hd) as (e' & He' & _ & _ & _ & Hc).
      by exists e'.
    + intros s. unfold resolution_setScale.
      destruct (Resolution.changes_scale _ _); [|by exists this].
      destruct (Hres (Resolution.setScale s (resolution (super this)))
                  this Hd) as (e' & He' & _ & _ & _ & Hc).
      by exists e'.
    + intros w. unfold resolution_setBaseSize.
      destruct (Resolution.changes_baseSize _ _ _); [|by exists this].
      destruct (Hres (Resolution.setBaseSize w
                        (Resolution.baseHeight (resolution (super this)))
                        (resolution (super this)))
                  this Hd) as (e' & He' & _ & Hdd & Hr & Hc).
      exists e'. split; [done|]. rewrite Hc, Hstep.
      unfold expected_count, density. by rewrite Hr, Hdd.
  - intros w h. unfold setSize.
    destruct (updateCount_effect h this Hd)
      as (e' & He' & _ & Hdd & Hr & _ & _ & Hc).
    by exists e'.
  - intros Hscale Hdens w w' Hch.
    destruct (Hres (Resolution.setBaseSize w 600 (resolution (super this)))
                this Hd) as (e1 & He1 & Hd1 & Hdd1 & Hr1 & Hc1).
    assert (resolution_setBaseSize w 600 this = Some e1) as Hcall1.
    { unfold resolution_setBaseSize. by rewrite Hch. }
    assert (Resolution.changes_baseSize w' 640 (resolution (super e1)) = true)
      as Hch1.
    { rewrite Hr1. unfold Resolution.changes_baseSize. simpl.
      by rewrite andb_false_r. }
    destruct (Hres (Resolution.setBaseSize w' 640 (resolution (super e1)))
                e1 Hd1) as (e2 & He2 & _ & Hdd2 & Hr2 & Hc2).
    assert (resolution_setBaseSize w' 640 e1 = Some e2) as Hcall2.
    { unfold resolution_setBaseSize. by rewrite Hch1. }
    exists e1, e2. split; [done|].
    split; [|split; [done|]].
    + rewrite Hc1. unfold expected_count, density, Resolution.height.
      rewrite Hr1, Hdd1. simpl. rewrite (Math_round_unscaled _ _ Hscale).
      by rewrite (number_mul_comp _ _ _ Hdens).
    + rewrite Hc2. unfold expected_count, density, Resolution.height.
      rewrite Hr2, Hdd2, Hr1, Hdd1. simpl.
      rewrite (Math_round_unscaled _ _ Hscale).
      by rewrite (number_mul_comp _ _ _ Hdens).
Qed.

(** The scenario of the spec: an effect of density 1.25 (the default) whose
    resolution goes to 800×600, then to 1000×600, then to 1000×640. *)
Example scenario_750_800 :
  let counts (sizes : list (Z * Z)) :=
    this ← constructor {| opt_density := None; opt_scrollSpeed := None |}
             "scanline.frag" plain_effect;
    this' ← calls ((λ s, ResolutionBaseSize s.1 s.2) <$> sizes) this;
    count this' in
  counts [(800, 600)%Z] = Some (VNumber (inject_Z 750)) ∧
  counts [(800, 600)%Z; (1000, 600)%Z] = Some (VNumber (inject_Z 750)) ∧
  counts [(800, 600)%Z; (1000, 600)%Z; (1000, 640)%Z] =
    Some (VNumber (inject_Z 800)).
Proof. vm_compute. done. Qed.

Example constructor_default :
  constructor {| opt_density := None; opt_scrollSpeed := None |}
    "scanline.frag" plain_effect = Some default_effect.
Proof. vm_compute. done. Qed.

Lemma default_effect_declared : declared default_effect.
Proof. split; vm_compute; eauto. Defined.

Lemma count_follows_density_and_resolution_witness :
  ∃ this',
    resolution_setBaseSize 800 600 default_effect = Some this' ∧
    d this' = d default_effect ∧
    resolution (super this') =
      Resolution.setBaseSize 800 600 (resolution (super default_effect)) ∧
    count this' = Some (expected_count this').
Proof.
  apply (proj1 (proj2 (count_follows_density_and_resolution default_effect
                         default_effect_declared))).
  reflexivity.
Defined.

(** C9, as the claim has it, fails: an effect of density 1.25 is resized
    to 800×600 through its resolution and then handed [setSize(800, 640)]:
    the count becomes 800 while the height of the resolution is still 600,
    for which the claim wants 750. *)
Lemma count_out_of_step_after_setSize :
  let outcome :=
    this ← constructor {| opt_density := Some (5 # 4)%Q;
                          opt_scrollSpeed := None |}
             "scanline.frag" plain_effect;
    calls [ResolutionBaseSize 800 600; SetSize 800 640] this in
  count <$> outcome = Some (Some (VNumber (inject_Z 800))) ∧
  (λ this, Resolution.height (resolution (super this))) <$> outcome
    = Some 600%Z ∧
  expected_count <$> outcome = Some (VNumber (inject_Z 750)).
Proof. vm_compute. done. Qed.

(** The product is the one of JavaScript: [45 * 0.7] is the double below
    31.5 and [5 * 0.3] is the double 1.5, though 0.3 is below three tenths;
    the exact products of the decimal fractions would give 32 and 2, the one
    of 5 and the double 0.3 would give 1. *)
Example updateCount_double_product :
  let count_of (height : Z) (density : Q) :=
    this ← updateCount height (set_d density default_effect); count this in
  count_of 45%Z (7 # 10)%Q = Some (VNumber (inject_Z 31)) ∧
  count_of 45%Z (double (7 # 10)) = Some (VNumber (inject_Z 31)) ∧
  count_of 5%Z (3 # 10)%Q = Some (VNumber (inject_Z 2)) ∧
  count_of 5%Z (double (3 # 10)) = Some (VNumber (inject_Z 2)) ∧
  Math_round (45 * (7 # 10))%Q = 32%Z ∧
  Math_round (5 * double (3 # 10))%Q = 1%Z.
Proof. vm_compute. done. Qed.

(** A resolution that is given the size it has sends no notification: the
    count of a new effect stays 0 until the size changes. *)
Example same_size_keeps_count :
  let counts (sizes : list (Z * Z)) :=
    this ← constructor {| opt_density := None; opt_scrollSpeed := None |}
             "scanline.frag" plain_effect;
    this' ← calls ((λ s, ResolutionBaseSize s.1 s.2) <$> sizes) this;
    count this' in
  counts [] = Some (VNumber 0) ∧
  counts [(1, 1)%Z] = Some (VNumber 0) ∧
  counts [(1, 4)%Z] = Some (VNumber (inject_Z 5)).
Proof. vm_compute. done. Qed.

End ScanlineEffectFacts.

(** ** [RenderPipeline] *)

Section RenderPipelineFacts.

Import RenderPipeline.

Lemma indexOf_Some_lookup (x : nat) (l : list nat) (i : nat) :
  indexOf x l = Some i → l !! i = Some x.
Proof.
  revert i. induction l as [|y l IH]; intros i; simpl; [done|].
  destruct (decide (y = x)) as [->|Hne].
  - by intros [= <-].
  - destruct (indexOf x l) as [j|]; [|done]. intros [= <-]. by apply IH.
Qed.

Lemma indexOf_is_Some (x : nat) (l : list nat) :
  is_Some (indexOf x l) ↔ x ∈ l.
Proof.
  induction l as [|y l IH]; simpl.
  - split; [by intros [? ?]|by intros ?%elem_of_nil].
  - destruct (decide (y = x)) as [->|Hne].
    + split; [intros _; by left|by eexists].
    + rewrite elem_of_cons, <- IH. split.
      * intros [i Hi]. right. destruct (indexOf x l); [by eexists|done].
      * intros [?|[i Hi]]; [congruence|]. rewrite Hi. by eexists.
Qed.

Lemma indexOf_None (x : nat) (l : list nat) : indexOf x l = None ↔ x ∉ l.
Proof.
  by rewrite eq_None_not_Some, indexOf_is_Some.
Qed.

Lemma NoDup_delete_lookup (l : list nat) (i x : nat) :
  NoDup l → l !! i = Some x →
  NoDup (delete i l) ∧ ∀ y, y ∈ l ↔ y = x ∨ y ∈ delete i l.
Proof.
  intros Hnd Hi. rewrite delete_take_drop.
  rewrite <- (take_drop_middle l i x Hi) in Hnd.
  apply NoDup_app in Hnd as (Hnd1 & Hdisj & Hnd2).
  apply NoDup_cons in Hnd2 as [Hx Hnd2]. split.
  - apply NoDup_app. split; [done|]. split; [|done].
    intros y Hy1 Hy2. apply (Hdisj y Hy1). by right.
  - intros y. rewrite <- (take_drop_middle l i x Hi) at 1.
    rewrite !elem_of_app, elem_of_cons. tauto.
Qed.

Lemma NoDup_delete_lookup_notin (l : list nat) (i x : nat) :
  NoDup l → l !! i = Some x → x ∉ delete i l.
Proof.
  intros Hnd Hi. rewrite delete_take_drop.
  rewrite <- (take_drop_middle l i x Hi) in Hnd.
  apply NoDup_app in Hnd as (Hnd1 & Hdisj & Hnd2).
  apply NoDup_cons in Hnd2 as [Hx Hnd2].
  intros [Hin|Hin]%elem_of_app; [|done].
  apply (Hdisj x Hin). by left.
Qed.

Context (device_pixels : Q → Z) (initial_base : Z * Z).

(** *** Loops over the pass list *)

Lemma foldl_update_pass_frame (f : Pass.t → Pass.t) (l : list nat) (w : World) :
  renderers (foldl (λ w x, update_pass x f w) w l) = renderers w ∧
  pipelines (foldl (λ w x, update_pass x f w) w l) = pipelines w ∧
  events (foldl (λ w x, update_pass x f w) w l) = events w.
Proof.
  revert w. induction l as [|x l IH]; intros w; [done|]. simpl.
  exact (IH (update_pass x f w)).
Qed.

Lemma foldl_update_pass_lookup (f : Pass.t → Pass.t) (l : list nat) (w : World)
  (y : nat) :
  (∀ p, f (f p) = f p) →
  passes (foldl (λ w x, update_pass x f w) w l) !! y =
  if decide (y ∈ l) then f <$> passes w !! y else passes w !! y.
Proof.
  intros Hidem. revert w. induction l as [|x l IH]; intros w.
  - destruct (decide (y ∈ [])) as [Hin|_]; [by apply elem_of_nil in Hin|done].
  - change (foldl (λ w x, update_pass x f w) w (x :: l))
      with (foldl (λ w x, update_pass x f w) (update_pass x f w) l).
    rewrite IH.
    change (passes (update_pass x f w)) with (alter f x (passes w)).
    rewrite lookup_alter.
    destruct (decide (y ∈ l)) as [Hin|Hnin];
      destruct (decide (y ∈ x :: l)) as [Hin'|Hnin'];
      destruct (decide (x = y)) as [->|Hne]; try done.
    + destruct (passes w !! y); simpl; [|done]. by rewrite Hidem.
    + destruct Hnin'. by right.
    + destruct Hnin'. by right.
    + apply elem_of_cons in Hin' as [?|?]; [congruence|done].
    + destruct Hnin'. by left.
Qed.

Lemma render_loop (l : list nat) (w : World) :
  foldl (λ w x, if pass_enabled w x then emit (PassRender x) w else w) w l =
  {| renderers := renderers w; passes := passes w; pipelines := pipelines w;
     events :=
       events w ++ (PassRender <$> filter (λ x, pass_enabled w x = true) l) |}.
Proof.
  revert w. induction l as [|x l IH]; intros w; simpl.
  - rewrite app_nil_r. by destruct w.
  - rewrite IH. rewrite filter_cons.
    destruct (pass_enabled w x) eqn:Hen.
    + rewrite decide_True by done. simpl.
      change (pass_enabled (emit (PassRender x) w)) with (pass_enabled w).
      by rewrite <- app_assoc.
    + by rewrite decide_False by done.
Qed.

(** C2: [render(timestamp)] on a pipeline without a renderer changes
    nothing: it calls nobody and makes no error.  With a renderer it first
    updates the timer of the pipeline with the timestamp and then calls
    [render()] on the passes whose [enabled] flag is set, in the order of
    the pass list, leaving out the others; when the list has no pass twice,
    every enabled pass of the list is rendered once and no other pass is.
    Nothing else changes. *)
Theorem render_spec (pl : nat) (timestamp : option Q) (w : World)
  (this : RenderPipeline) :
  pipelines w !! pl = Some this →
  (_renderer this = None → render pl timestamp w = w) ∧
  (is_Some (_renderer this) →
   render pl timestamp w =
   {| renderers := renderers w; passes := passes w; pipelines := pipelines w;
      events :=
        events w ++
        TimerUpdate pl timestamp ::
        (PassRender <$>
           filter (λ x, pass_enabled w x = true) (_passes this)) |}) ∧
  (NoDup (_passes this) →
   ∀ x : nat,
     length (filter (λ y, y = x)
               (filter (λ x, pass_enabled w x = true) (_passes this))) =
     if decide (x ∈ _passes this ∧ pass_enabled w x = true) then 1 else 0).
Proof.
  intros Hpl. unfold render. rewrite Hpl. split; [|split].
  - by intros ->.
  - intros [r ->]. rewrite render_loop. simpl.
    change (pass_enabled (emit _ w)) with (pass_enabled w).
    by rewrite <- app_assoc.
  - intros Hnodup x.
    set (enabled := filter _ (_passes this)).
    assert (NoDup enabled) as Hnd by by apply NoDup_filter.
    assert (x ∈ enabled ↔ x ∈ _passes this ∧ pass_enabled w x = true) as Hin.
    { unfold enabled. rewrite list_elem_of_filter.
      split; intros [? ?]; by split. }
    clearbody enabled. case_decide as Hx.
    + apply Hin in Hx. clear Hin.
      induction Hnd as [|y l Hy Hnd IH]; [by apply elem_of_nil in Hx|].
      rewrite filter_cons. apply elem_of_cons in Hx as [->|Hx].
      * rewrite decide_True by done. simpl. f_equal.
        clear IH. induction l as [|z l IH]; [done|].
        rewrite filter_cons. rewrite decide_False.
        -- apply IH; [|by apply NoDup_cons in Hnd as [_ ?]].
           intros ?. apply Hy. by right.
        -- intros ->. apply Hy. by left.
      * rewrite decide_False; [by apply IH|]. intros ->. done.
    + assert (x ∉ enabled) as Hnin by (by rewrite Hin). clear Hin Hx Hnd.
      induction enabled as [|y l IH]; [done|].
      rewrite filter_cons, decide_False.
      * apply IH. intros ?. apply Hnin. by right.
      * intros ->. apply Hnin. by left.
Qed.

(** *** [registerPass] and [addPass] *)

Lemma registerPass_frame (pl x : nat) (w : World) :
  renderers (registerPass device_pixels pl x w) = renderers w ∧
  pipelines (registerPass device_pixels pl x w) = pipelines w ∧
  events (registerPass device_pixels pl x w) = events w.
Proof.
  unfold registerPass. destruct (pipelines w !! pl) as [this|]; [|done].
  destruct (_renderer this) as [r|]; [|done].
  by destruct (renderers w !! r).
Qed.

Lemma registerPass_lookup_ne (pl x y : nat) (w : World) :
  y ≠ x →
  passes (registerPass device_pixels pl x w) !! y = passes w !! y.
Proof.
  intros Hne. unfold registerPass.
  destruct (pipelines w !! pl) as [this|]; [|done].
  destruct (_renderer this) as [r|]; [destruct (renderers w !! r)|]; simpl;
    by rewrite ?lookup_alter_ne by done.
Qed.

Lemma registerPass_lookup (pl x : nat) (w : World) (this : RenderPipeline)
  (p : Pass.t) :
  pipelines w !! pl = Some this → passes w !! x = Some p →
  ∃ p', passes (registerPass device_pixels pl x w) !! x = Some p' ∧
    Pass.renderer p' = _renderer this ∧ Pass.timer p' = Some pl ∧
    Pass.name p' = Pass.name p ∧ Pass.enabled p' = Pass.enabled p ∧
    ∀ r R, _renderer this = Some r → renderers w !! r = Some R →
      Pass.baseSize p' = WebGLRenderer.getDrawingBufferSize device_pixels R.
Proof.
  intros Hpl Hx. unfold registerPass. rewrite Hpl.
  destruct (_renderer this) as [r|] eqn:Hr;
    [destruct (renderers w !! r) as [R|] eqn:HR|]; simpl;
    rewrite ?lookup_alter_eq, Hx; simpl; eexists; (split; [done|]);
    repeat split; try done.
  - intros r' R' [= <-]. rewrite HR. by intros [= <-].
  - intros r' R' [= <-]. by rewrite HR.
Qed.

Lemma addPass_effect (pl x : nat) (w : World) (this : RenderPipeline) :
  pipelines w !! pl = Some this →
  (x ∈ _passes this →
   ∃ message, addPass device_pixels pl x w = (Throw message, w)) ∧
  (x ∉ _passes this →
   ∃ w', addPass device_pixels pl x w = (Normal, w') ∧
     pipelines w' !! pl = Some (set__passes (_passes this ++ [x]) this) ∧
     ∀ pl', pl' ≠ pl → pipelines w' !! pl' = pipelines w !! pl').
Proof.
  intros Hpl. unfold addPass. rewrite Hpl. split.
  - intros Hin. rewrite bool_decide_eq_true_2 by (by apply indexOf_is_Some).
    by eexists.
  - intros Hnin.
    rewrite bool_decide_eq_false_2 by (by rewrite indexOf_is_Some).
    eexists. split; [done|]. simpl.
    destruct (registerPass_frame pl x w) as (_ & -> & _).
    split.
    + by rewrite lookup_alter_eq, Hpl.
    + intros pl' Hne. by rewrite lookup_alter_ne.
Qed.

(** C3: [addPass(x)] on a pipeline that lists the pass [x] already (the
    same object, whatever its contents) throws and leaves the whole state,
    the pass list included, as it was; for a pass that is not listed it
    returns normally, and the pass list is then the old one with [x] added
    at its end, the rest of this pipeline and every other pipeline being
    untouched. *)
Theorem addPass_spec (pl x : nat) (w : World) (this : RenderPipeline) :
  pipelines w !! pl = Some this →
  (x ∈ _passes this →
   ∃ message,
     addPass device_pixels pl x w = (Throw message, w) ∧
     (addPass device_pixels pl x w).2 = w) ∧
  (x ∉ _passes this →
   ∃ w', addPass device_pixels pl x w = (Normal, w') ∧
     pipelines w' !! pl = Some (set__passes (_passes this ++ [x]) this) ∧
     ∀ pl', pl' ≠ pl → pipelines w' !! pl' = pipelines w !! pl').
Proof.
  intros Hpl. destruct (addPass_effect pl x w this Hpl) as [Hin Hnin].
  split; [|done]. intros Hx. destruct (Hin Hx) as [message Heq].
  exists message. by rewrite Heq.
Qed.

(** *** [onResolutionChange] *)

Lemma resize_passes_frame (size : Z * Z) (l : list nat) (w : World) :
  renderers (resize_passes size l w) = renderers w ∧
  pipelines (resize_passes size l w) = pipelines w ∧
  events (resize_passes size l w) = events w.
Proof. apply foldl_update_pass_frame. Qed.

Lemma resize_passes_lookup (size : Z * Z) (l : list nat) (w : World)
  (y : nat) :
  passes (resize_passes size l w) !! y =
  if decide (y ∈ l)
  then Pass.resolution_setBaseSize size.1 size.2 <$> passes w !! y
  else passes w !! y.
Proof. by apply foldl_update_pass_lookup. Qed.

Lemma fitted_size (this : RenderPipeline) (R : WebGLRenderer.t) :
  WebGLRenderer.width (fitted this R) = Resolution.width (resolution this) ∧
  WebGLRenderer.height (fitted this R) = Resolution.height (resolution this) ∧
  WebGLRenderer.pixelRatio (fitted this R) = WebGLRenderer.pixelRatio R.
Proof.
  unfold fitted, resized.
  destruct (Z.eqb_spec (WebGLRenderer.width R)
              (Resolution.width (resolution this)));
    destruct (Z.eqb_spec (WebGLRenderer.height R)
                (Resolution.height (resolution this))); done.
Qed.

Lemma onResolutionChange_attached (pl : nat) (w : World)
  (this : RenderPipeline) (r : nat) (R : WebGLRenderer.t) :
  pipelines w !! pl = Some this → _renderer this = Some r →
  renderers w !! r = Some R →
  let w' := onResolutionChange device_pixels pl w in
  renderers w' !! r = Some (fitted this R) ∧
  (∀ r', r' ≠ r → renderers w' !! r' = renderers w !! r') ∧
  pipelines w' = pipelines w ∧
  events w' =
    events w ++
    (if resized this R
     then [RendererSetSize r (Resolution.width (resolution this))
             (Resolution.height (resolution this)) (updateStyle this)]
     else []) ∧
  ∀ y, passes w' !! y =
       if decide (y ∈ _passes this)
       then Pass.resolution_setBaseSize
              (WebGLRenderer.getDrawingBufferSize device_pixels
                 (fitted this R)).1
              (WebGLRenderer.getDrawingBufferSize device_pixels
                 (fitted this R)).2 <$> passes w !! y
       else passes w !! y.
Proof.
  intros Hpl Hr HR. unfold onResolutionChange. rewrite Hpl, Hr, HR.
  unfold fitted, resized. simpl.
  destruct (negb (WebGLRenderer.width R =? _)%Z || negb _) eqn:Hres; simpl.
  - rewrite lookup_alter_eq, HR. simpl.
    destruct (resize_passes_frame
      (WebGLRenderer.getDrawingBufferSize device_pixels
         (WebGLRenderer.setSize (Resolution.width (resolution this))
            (Resolution.height (resolution this)) (updateStyle this) R))
      (_passes this)
      (renderer_setSize r (Resolution.width (resolution this))
         (Resolution.height (resolution this)) (updateStyle this) w))
      as (-> & -> & ->).
    simpl. rewrite lookup_alter_eq, HR. simpl.
    split; [done|]. split; [by intros r' Hne; rewrite lookup_alter_ne|].
    split; [done|]. split; [done|].
    intros y. by rewrite resize_passes_lookup.
  - rewrite HR.
    destruct (resize_passes_frame
      (WebGLRenderer.getDrawingBufferSize device_pixels R) (_passes this) w)
      as (-> & -> & ->).
    rewrite app_nil_r.
    split; [done|]. split; [done|]. split; [done|]. split; [done|].
    intros y. by rewrite resize_passes_lookup.
Qed.

Lemma onResolutionChange_skeleton (pl : nat) (w : World) :
  let w' := onResolutionChange device_pixels pl w in
  pipelines w' = pipelines w ∧
  (∀ y, Pass.renderer <$> passes w' !! y = Pass.renderer <$> passes w !! y) ∧
  (∀ y, Pass.timer <$> passes w' !! y = Pass.timer <$> passes w !! y) ∧
  (∀ y, Pass.enabled <$> passes w' !! y = Pass.enabled <$> passes w !! y) ∧
  ∃ evs, events w' = events w ++ evs ∧
    ∀ ev, ev ∈ evs →
      (∃ message, ev = LogDebug message) ∨
      ∃ this r width height,
        pipelines w !! pl = Some this ∧
        ev = RendererSetSize r width height (updateStyle this).
Proof.
  simpl. destruct (pipelines w !! pl) as [this|] eqn:Hpl.
  2:{ unfold onResolutionChange. rewrite Hpl.
      repeat split; try done. exists []. split; [by rewrite app_nil_r|].
      by intros ev ?%elem_of_nil. }
  destruct (_renderer this) as [r|] eqn:Hr.
  2:{ unfold onResolutionChange. rewrite Hpl, Hr. simpl.
      repeat split; try done. eexists. split; [done|].
      intros ev ->%list_elem_of_singleton. left. by eexists. }
  destruct (renderers w !! r) as [R|] eqn:HR.
  2:{ unfold onResolutionChange. rewrite Hpl, Hr, HR.
      repeat split; try done. exists []. split; [by rewrite app_nil_r|].
      by intros ev ?%elem_of_nil. }
  destruct (onResolutionChange_attached pl w this r R Hpl Hr HR)
    as (_ & _ & Hpls & Hev & Hps).
  split; [done|].
  assert (∀ {A} (g : Pass.t → A) y,
            (∀ p a b, g (Pass.resolution_setBaseSize a b p) = g p) →
            g <$> passes (onResolutionChange device_pixels pl w) !! y
            = g <$> passes w !! y) as Hg.
  { intros A g y Hgp. rewrite Hps. case_decide; [|done].
    destruct (passes w !! y); simpl; [|done]. by rewrite Hgp. }
  split; [by intros y; apply Hg|]. split; [by intros y; apply Hg|].
  split; [by intros y; apply Hg|].
  eexists. split; [exact Hev|].
  intros ev Hin. right. exists this, r. destruct (resized this R).
  - apply list_elem_of_singleton in Hin as ->. eauto.
  - by apply elem_of_nil in Hin.
Qed.

(** *** [setSize] *)

Lemma setSize_unfold (pl : nat) (W H : Z) (style : option bool) (w : World)
  (this : RenderPipeline) :
  pipelines w !! pl = Some this →
  setSize device_pixels pl W H style w =
  if Resolution.changes_baseSize W H (resolution this)
  then onResolutionChange device_pixels pl
         (update_pipeline pl
            (λ p, set_resolution
                    (Resolution.setBaseSize W H (resolution p)) p)
            (update_pipeline pl (set_updateStyle (default true style)) w))
  else update_pipeline pl (set_updateStyle (default true style)) w.
Proof.
  intros Hpl. unfold setSize, resolution_setBaseSize. simpl.
  by rewrite lookup_alter_eq, Hpl.
Qed.

Lemma set_resolution_same (W H : Z) (this : RenderPipeline) :
  Resolution.changes_baseSize W H (resolution this) = false →
  set_resolution (Resolution.setBaseSize W H (resolution this)) this = this.
Proof.
  intros Hsame. rewrite (changes_baseSize_false _ _ _ Hsame). by destruct this.
Qed.

Lemma setSize_pipeline (pl : nat) (W H : Z) (style : option bool) (w : World)
  (this : RenderPipeline) :
  pipelines w !! pl = Some this →
  pipelines (setSize device_pixels pl W H style w) !! pl =
  Some (set_resolution (Resolution.setBaseSize W H (resolution this))
          (set_updateStyle (default true style) this)) ∧
  ∀ pl', pl' ≠ pl →
    pipelines (setSize device_pixels pl W H style w) !! pl' =
    pipelines w !! pl'.
Proof.
  intros Hpl. rewrite (setSize_unfold _ _ _ _ _ _ Hpl).
  destruct (Resolution.changes_baseSize W H (resolution this)) eqn:Hch.
  - destruct (onResolutionChange_skeleton pl
      (update_pipeline pl
         (λ p, set_resolution (Resolution.setBaseSize W H (resolution p)) p)
         (update_pipeline pl (set_updateStyle (default true style)) w)))
      as (-> & _).
    simpl. split.
    + by rewrite !lookup_alter_eq, Hpl.
    + intros pl' Hne. by rewrite !lookup_alter_ne.
  - simpl. split.
    + rewrite lookup_alter_eq, Hpl. simpl. f_equal. symmetry.
      by apply (set_resolution_same W H (set_updateStyle _ this)).
    + intros pl' Hne. by rewrite lookup_alter_ne.
Qed.

(** [setSize] with a new base size on a pipeline that has a renderer. *)
Lemma setSize_changed (pl : nat) (W H : Z) (style : option bool) (w : World)
  (this : RenderPipeline) (r : nat) (R : WebGLRenderer.t) :
  pipelines w !! pl = Some this → _renderer this = Some r →
  renderers w !! r = Some R →
  Resolution.changes_baseSize W H (resolution this) = true →
  let this2 :=
    set_resolution (Resolution.setBaseSize W H (resolution this))
      (set_updateStyle (default true style) this) in
  let w' := setSize device_pixels pl W H style w in
  pipelines w' !! pl = Some this2 ∧
  renderers w' !! r = Some (fitted this2 R) ∧
  (∀ r', r' ≠ r → renderers w' !! r' = renderers w !! r') ∧
  events w' =
    events w ++
    (if resized this2 R
     then [RendererSetSize r (Resolution.width (resolution this2))
             (Resolution.height (resolution this2)) (default true style)]
     else []) ∧
  ∀ y, passes w' !! y =
       if decide (y ∈ _passes this)
       then Pass.resolution_setBaseSize
              (WebGLRenderer.getDrawingBufferSize device_pixels
                 (fitted this2 R)).1
              (WebGLRenderer.getDrawingBufferSize device_pixels
                 (fitted this2 R)).2 <$> passes w !! y
       else passes w !! y.
Proof.
  intros Hpl Hr HR Hch this2 w'.
  destruct (setSize_pipeline pl W H style w this Hpl) as [Hpl' _].
  unfold w'. rewrite (setSize_unfold _ _ _ _ _ _ Hpl), Hch in *.
  set (w2 := update_pipeline pl
       (λ p, set_resolution (Resolution.setBaseSize W H (resolution p)) p)
       (update_pipeline pl (set_updateStyle (default true style)) w)) in *.
  assert (pipelines w2 !! pl = Some this2) as Hpl2.
  { unfold w2. simpl. by rewrite !lookup_alter_eq, Hpl. }
  destruct (onResolutionChange_attached pl w2 this2 r R Hpl2 Hr HR)
    as (HR' & Hoth & _ & Hev & Hps).
  split; [done|]. split; [done|]. split; [done|]. split; [done|]. done.
Qed.

(** *** What each method does to the pass lists and to the handles *)

Lemma foldl_emit_frame (f : nat → Event) (l : list nat) (w : World) :
  renderers (foldl (λ w x, emit (f x) w) w l) = renderers w ∧
  passes (foldl (λ w x, emit (f x) w) w l) = passes w ∧
  pipelines (foldl (λ w x, emit (f x) w) w l) = pipelines w.
Proof.
  revert w. induction l as [|x l IH]; intros w; [done|].
  exact (IH (emit (f x) w)).
Qed.

Lemma set_renderer_effect (pl : nat) (value : option nat) (w : World)
  (this : RenderPipeline) :
  pipelines w !! pl = Some this →
  let w' := set_renderer device_pixels pl value w in
  pipelines w' = alter (set__renderer value) pl (pipelines w) ∧
  ∀ y, Pass.handles <$> passes w' !! y =
       if decide (y ∈ _passes this)
       then (λ p, (value, Pass.timer p)) <$> passes w !! y
       else Pass.handles <$> passes w !! y.
Proof.
  intros Hpl. unfold set_renderer. rewrite Hpl.
  set (w1 := update_pipeline pl (set__renderer value) w).
  set (w2 := foldl (λ w x, update_pass x (Pass.set_renderer value) w) w1
               (_passes this)).
  destruct (foldl_update_pass_frame (Pass.set_renderer value) (_passes this) w1)
    as (_ & Hpls & _). fold w2 in Hpls.
  assert (∀ y, Pass.handles <$> passes w2 !! y =
               if decide (y ∈ _passes this)
               then (λ p, (value, Pass.timer p)) <$> passes w !! y
               else Pass.handles <$> passes w !! y) as Hps.
  { intros y. unfold w2. rewrite foldl_update_pass_lookup by done.
    change (passes w1) with (passes w). case_decide; [|done].
    by destruct (passes w !! y). }
  destruct value as [r|]; [|done]. simpl.
  destruct (onResolutionChange_skeleton pl w2) as (-> & Hren & Htim & _).
  split; [done|]. intros y. rewrite <- Hps.
  specialize (Hren y). specialize (Htim y). unfold Pass.handles.
  destruct (passes (onResolutionChange device_pixels pl w2) !! y),
    (passes w2 !! y); simpl in *; congruence.
Qed.

Lemma removePass_effect (pl x : nat) (w : World) (this : RenderPipeline) :
  pipelines w !! pl = Some this →
  let w' := removePass pl x w in
  (x ∉ _passes this → w' = w) ∧
  (x ∈ _passes this →
   ∃ i, _passes this !! i = Some x ∧
     pipelines w' =
       alter (set__passes (delete i (_passes this))) pl (pipelines w) ∧
     passes w' =
       alter (λ p, Pass.set_timer None (Pass.set_renderer None p)) x
         (passes w)).
Proof.
  intros Hpl. unfold removePass. rewrite Hpl. split.
  - intros Hnin. by rewrite (proj2 (indexOf_None _ _) Hnin).
  - intros Hin. apply indexOf_is_Some in Hin as [i Hi]. rewrite Hi.
    pose proof (indexOf_Some_lookup _ _ _ Hi) as Hlook.
    exists i. split; [done|].
    rewrite (drop_S _ _ _ Hlook). simpl. split; [|done].
    apply map_eq. intros pl'. rewrite !lookup_alter.
    case_decide; [subst; by rewrite Hpl|done].
Qed.

Lemma removeAllPasses_effect (pl : nat) (w : World) (this : RenderPipeline) :
  pipelines w !! pl = Some this →
  let w' := removeAllPasses pl w in
  pipelines w' = alter (set__passes []) pl (pipelines w) ∧
  ∀ y, passes w' !! y =
       if decide (y ∈ _passes this)
       then (λ p, Pass.set_timer None (Pass.set_renderer None p))
              <$> passes w !! y
       else passes w !! y.
Proof.
  intros Hpl. unfold removeAllPasses. rewrite Hpl. simpl.
  destruct (foldl_update_pass_frame
              (λ p, Pass.set_timer None (Pass.set_renderer None p))
              (_passes this) w) as (_ & Hpls & _).
  split.
  - unfold unregisterPass. by rewrite Hpls.
  - intros y. unfold unregisterPass.
    by rewrite foldl_update_pass_lookup.
Qed.

Lemma dispose_effect (pl : nat) (w : World) (this : RenderPipeline) :
  pipelines w !! pl = Some this →
  let w' := dispose pl w in
  pipelines w' = alter (set__passes []) pl (pipelines w) ∧
  ∀ y, passes w' !! y =
       if decide (y ∈ _passes this)
       then (λ p, Pass.set_timer None (Pass.set_renderer None p))
              <$> passes w !! y
       else passes w !! y.
Proof.
  intros Hpl. unfold dispose. rewrite Hpl.
  set (w2 := foldl (λ w x, emit (PassDispose x) w)
               (emit (IOManagerRemovePipeline pl) w) (_passes this)).
  destruct (foldl_emit_frame PassDispose (_passes this)
              (emit (IOManagerRemovePipeline pl) w)) as (_ & Hps & Hpls).
  fold w2 in Hps, Hpls. simpl in Hps, Hpls.
  assert (pipelines w2 !! pl = Some this) as Hpl2 by (by rewrite Hpls).
  destruct (removeAllPasses_effect pl w2 this Hpl2) as [H1 H2].
  simpl. rewrite H1, Hpls. split; [done|].
  intros y. by rewrite H2, Hps.
Qed.

(** *** The handles of the passes and the pass lists agree *)

Lemma consistent_owner (w : World) (x pl pl' : nat) :
  consistent w → member x pl w → member x pl' w → pl = pl'.
Proof.
  intros [Hatt _] (this & Hpl & Hin) (this' & Hpl' & Hin').
  destruct (Hatt _ _ Hpl) as [_ H1]. destruct (Hatt _ _ Hpl') as [_ H2].
  specialize (H1 _ Hin). specialize (H2 _ Hin'). congruence.
Qed.

Lemma consistent_skeleton (w w' : World) :
  (∀ pl, (λ t, (_renderer t, _passes t)) <$> pipelines w' !! pl =
         (λ t, (_renderer t, _passes t)) <$> pipelines w !! pl) →
  (∀ y, Pass.handles <$> passes w' !! y = Pass.handles <$> passes w !! y) →
  consistent w → consistent w'.
Proof.
  intros Hpls Hps [Hatt Hdet].
  assert (∀ x pl, member x pl w' ↔ member x pl w) as Hmem.
  { intros x pl. unfold member. specialize (Hpls pl).
    destruct (pipelines w' !! pl) as [t'|], (pipelines w !! pl) as [t|];
      simpl in Hpls; try done; try (by split; intros (? & ? & ?)).
    injection Hpls as Hr Hl. split; intros (? & [= <-] & ?); eexists;
      (split; [done|]); congruence. }
  split.
  - intros pl this' Hpl'. specialize (Hpls pl). rewrite Hpl' in Hpls.
    destruct (pipelines w !! pl) as [this|] eqn:Hpl; [|done].
    injection Hpls as Hr Hl. destruct (Hatt _ _ Hpl) as [Hnd Hin].
    rewrite Hr, Hl. split; [done|]. intros x Hx. rewrite Hps. by apply Hin.
  - intros x Hx Hno. rewrite Hps. apply Hdet.
    + specialize (Hps x). destruct (passes w !! x); [done|].
      destruct Hx as [? Hx]. by rewrite Hx in Hps.
    + intros pl Hm. apply (Hno pl). by apply Hmem.
Qed.

Lemma consistent_new_pass (name : string) (enabled : bool) (scale : Q)
  (w : World) :
  consistent w → consistent (new_pass initial_base name enabled scale w).
Proof.
  intros [Hatt Hdet].
  assert (passes w !! fresh (dom (passes w)) = None) as Hfresh.
  { apply not_elem_of_dom, is_fresh. }
  split.
  - intros pl this Hpl. destruct (Hatt _ _ Hpl) as [Hnd Hin].
    split; [done|]. intros x Hx. specialize (Hin _ Hx). simpl.
    rewrite lookup_insert_ne; [done|]. intros <-. by rewrite Hfresh in Hin.
  - intros x Hx Hno. simpl in *.
    destruct (decide (fresh (dom (passes w)) = x)) as [<-|Hne].
    + by rewrite lookup_insert_eq.
    + rewrite lookup_insert_ne in * by done. by apply Hdet.
Qed.

Lemma consistent_constructor (renderer : option nat) (w : World) :
  consistent w → consistent (constructor initial_base renderer w).
Proof.
  intros [Hatt Hdet].
  assert (pipelines w !! next_pipeline w = None) as Hfresh.
  { unfold next_pipeline. apply not_elem_of_dom, is_fresh. }
  split.
  - intros pl this. simpl.
    destruct (decide (next_pipeline w = pl)) as [<-|Hne].
    + rewrite lookup_insert_eq. intros [= <-]. simpl.
      split; [constructor|]. by intros x ?%elem_of_nil.
    + rewrite lookup_insert_ne by done. apply Hatt.
  - intros x Hx Hno. apply Hdet; [done|].
    intros pl (this & Hpl & Hin). apply (Hno pl). exists this.
    split; [|done]. simpl. rewrite lookup_insert_ne; [done|].
    intros <-. congruence.
Qed.

Lemma consistent_set_renderer (pl : nat) (value : option nat) (w : World) :
  is_Some (pipelines w !! pl) → consistent w →
  consistent (set_renderer device_pixels pl value w).
Proof.
  intros [this Hpl] Hcons.
  destruct (set_renderer_effect pl value w this Hpl) as [Hpls Hps].
  pose proof Hcons as [Hatt Hdet].
  assert (∀ x pl', member x pl' (set_renderer device_pixels pl value w)
                   ↔ member x pl' w) as Hmem.
  { intros x pl'. unfold member. rewrite Hpls, lookup_alter.
    case_decide as Heq; [subst pl'; rewrite Hpl|done].
    split; intros (? & [= <-] & ?); eexists; (split; [done|]); done. }
  split.
  - intros pl' this'. rewrite Hpls, lookup_alter.
    case_decide as Heq.
    + subst pl'. rewrite Hpl. intros [= <-]. simpl.
      destruct (Hatt _ _ Hpl) as [Hnd Hin]. split; [done|].
      intros x Hx. rewrite Hps, decide_True by done.
      specialize (Hin _ Hx). destruct (passes w !! x) as [p|]; [|done].
      simpl in *. injection Hin as _ Ht. by rewrite Ht.
    + intros Hpl'. destruct (Hatt _ _ Hpl') as [Hnd Hin]. split; [done|].
      intros x Hx. rewrite Hps, decide_False; [by apply Hin|].
      intros Hx'. apply Heq.
      apply (consistent_owner w x pl pl' Hcons); by eexists.
  - intros x Hx Hno.
    assert (x ∉ _passes this) as Hnin.
    { intros Hin. apply (Hno pl), Hmem. by exists this. }
    rewrite Hps, decide_False by done. apply Hdet.
    + specialize (Hps x). rewrite decide_False in Hps by done.
      destruct (passes w !! x); [done|].
      destruct Hx as [? Hx]. by rewrite Hx in Hps.
    + intros pl' Hm. apply (Hno pl'). by apply Hmem.
Qed.

Lemma consistent_addPass (pl x : nat) (w : World) :
  permitted (AddPass pl x) w = true → consistent w →
  consistent (addPass device_pixels pl x w).2.
Proof.
  simpl. intros Hperm Hcons.
  apply andb_true_iff in Hperm as [Hperm Hun].
  apply andb_true_iff in Hperm as [Hpl Hx].
  apply bool_decide_eq_true in Hpl as [this Hpl].
  apply bool_decide_eq_true in Hx as [p Hx].
  apply bool_decide_eq_true in Hun.
  destruct (decide (x ∈ _passes this)) as [Hin|Hnin].
  { destruct (proj1 (addPass_effect pl x w this Hpl) Hin) as [msg ->]. done. }
  destruct (proj2 (addPass_effect pl x w this Hpl) Hnin)
    as (w' & Hadd & Hpl' & Hother).
  rewrite Hadd. simpl.
  assert (passes w' = passes (registerPass device_pixels pl x w)) as Hps.
  { unfold addPass in Hadd. rewrite Hpl in Hadd.
    rewrite bool_decide_eq_false_2 in Hadd by (by rewrite indexOf_is_Some).
    by injection Hadd as <-. }
  destruct (registerPass_lookup pl x w this p Hpl Hx)
    as (p' & Hx' & Hr' & Ht' & _).
  pose proof Hcons as [Hatt Hdet].
  split.
  - intros pl' this'. destruct (decide (pl' = pl)) as [->|Hne].
    + rewrite Hpl'. intros [= <-]. simpl.
      destruct (Hatt _ _ Hpl) as [Hnd Hin]. split.
      * apply NoDup_app. split; [done|]. split; [|apply NoDup_singleton].
        intros y Hy ->%list_elem_of_singleton. done.
      * intros y [Hy| ->%list_elem_of_singleton]%elem_of_app.
        -- rewrite Hps, registerPass_lookup_ne by congruence. by apply Hin.
        -- rewrite Hps, Hx'. simpl. unfold Pass.handles. by rewrite Hr', Ht'.
    + rewrite Hother by done. intros Hpl''.
      destruct (Hatt _ _ Hpl'') as [Hnd Hin]. split; [done|].
      intros y Hy. rewrite Hps, registerPass_lookup_ne; [by apply Hin|].
      intros ->. destruct (Hun _ _ Hpl'') as [?|?]; done.
  - intros y Hy Hno.
    assert (y ≠ x) as Hne.
    { intros ->. apply (Hno pl). eexists. split; [done|]. simpl.
      apply elem_of_app. right. by apply list_elem_of_singleton. }
    rewrite Hps, registerPass_lookup_ne in * by done. apply Hdet; [done|].
    intros pl' (this' & Hpl'' & Hin). apply (Hno pl').
    destruct (decide (pl' = pl)) as [->|Hne'].
    + eexists. split; [done|]. simpl. rewrite Hpl in Hpl''.
      injection Hpl'' as <-. apply elem_of_app. by left.
    + exists this'. by rewrite Hother.
Qed.

Lemma consistent_removePass (pl x : nat) (w : World) :
  is_Some (pipelines w !! pl) → consistent w →
  consistent (removePass pl x w).
Proof.
  intros [this Hpl] Hcons.
  destruct (removePass_effect pl x w this Hpl) as [Hsame Hrem].
  destruct (decide (x ∈ _passes this)) as [Hin|Hnin];
    [|by rewrite Hsame].
  destruct (Hrem Hin) as (i & Hi & Hpls & Hps). clear Hsame Hrem.
  pose proof Hcons as [Hatt Hdet].
  destruct (Hatt _ _ Hpl) as [Hnd Hwired].
  destruct (NoDup_delete_lookup _ _ _ Hnd Hi) as [Hnd' Hsplit].
  pose proof (NoDup_delete_lookup_notin _ _ _ Hnd Hi) as Hgone.
  split.
  - intros pl' this'. rewrite Hpls, lookup_alter. case_decide as Heq.
    + subst pl'. rewrite Hpl. intros [= <-]. simpl. split; [done|].
      intros y Hy. rewrite Hps, lookup_alter_ne by (intros ->; done).
      apply Hwired, Hsplit. by right.
    + intros Hpl'. destruct (Hatt _ _ Hpl') as [Hnd'' Hwired''].
      split; [done|]. intros y Hy.
      rewrite Hps, lookup_alter_ne; [by apply Hwired''|].
      intros <-. apply Heq.
      apply (consistent_owner w x pl pl' Hcons); by eexists.
  - intros y Hy Hno. rewrite Hps in *.
    destruct (decide (x = y)) as [->|Hne].
    + rewrite lookup_alter_eq in *.
      destruct (passes w !! y); [done|]. by destruct Hy.
    + rewrite lookup_alter_ne in * by done. apply Hdet; [done|].
      intros pl' (this' & Hpl' & Hin'). apply (Hno pl'). unfold member.
      rewrite Hpls, lookup_alter. case_decide as Heq.
      * subst pl'. rewrite Hpl in *. injection Hpl' as <-.
        eexists. split; [done|]. simpl.
        apply Hsplit in Hin' as [->|?]; done.
      * by exists this'.
Qed.

Lemma consistent_clear_list (pl : nat) (w w' : World) (this : RenderPipeline) :
  pipelines w !! pl = Some this →
  pipelines w' = alter (set__passes []) pl (pipelines w) →
  (∀ y, passes w' !! y =
        if decide (y ∈ _passes this)
        then (λ p, Pass.set_timer None (Pass.set_renderer None p))
               <$> passes w !! y
        else passes w !! y) →
  consistent w → consistent w'.
Proof.
  intros Hpl Hpls Hps Hcons. pose proof Hcons as [Hatt Hdet]. split.
  - intros pl' this'. rewrite Hpls, lookup_alter. case_decide as Heq.
    + subst pl'. rewrite Hpl. intros [= <-]. simpl.
      split; [constructor|]. by intros y ?%elem_of_nil.
    + intros Hpl'. destruct (Hatt _ _ Hpl') as [Hnd Hwired].
      split; [done|]. intros y Hy.
      rewrite Hps, decide_False; [by apply Hwired|].
      intros Hy'. apply Heq.
      apply (consistent_owner w y pl pl' Hcons); by eexists.
  - intros y Hy Hno. rewrite Hps in *.
    destruct (decide (y ∈ _passes this)) as [Hin|Hnin].
    + destruct (passes w !! y); [done|]. by destruct Hy.
    + apply Hdet; [done|].
      intros pl' (this' & Hpl' & Hin'). apply (Hno pl'). unfold member.
      rewrite Hpls, lookup_alter. case_decide as Heq.
      * subst pl'. rewrite Hpl in *. by injection Hpl' as <-.
      * by exists this'.
Qed.

Lemma consistent_setSize (pl : nat) (W H : Z) (style : option bool)
  (w : World) :
  is_Some (pipelines w !! pl) → consistent w →
  consistent (setSize device_pixels pl W H style w).
Proof.
  intros [this Hpl]. apply consistent_skeleton.
  - intros pl'. destruct (setSize_pipeline pl W H style w this Hpl)
      as [Hat Hother].
    destruct (decide (pl' = pl)) as [->|Hne].
    + by rewrite Hat, Hpl.
    + by rewrite Hother.
  - intros y. rewrite (setSize_unfold _ _ _ _ _ _ Hpl).
    destruct (Resolution.changes_baseSize W H (resolution this)); [|done].
    destruct (onResolutionChange_skeleton pl
      (update_pipeline pl
         (λ p, set_resolution (Resolution.setBaseSize W H (resolution p)) p)
         (update_pipeline pl (set_updateStyle (default true style)) w)))
      as (_ & Hren & Htim & _).
    specialize (Hren y). specialize (Htim y). simpl in Hren, Htim.
    unfold Pass.handles.
    destruct (passes (onResolutionChange _ _ _) !! y), (passes w !! y);
      simpl in *; congruence.
Qed.

Lemma render_frame (pl : nat) (timestamp : option Q) (w : World) :
  renderers (render pl timestamp w) = renderers w ∧
  passes (render pl timestamp w) = passes w ∧
  pipelines (render pl timestamp w) = pipelines w.
Proof.
  unfold render. destruct (pipelines w !! pl) as [this|]; [|done].
  destruct (_renderer this); [|done]. by rewrite render_loop.
Qed.

(** Every permitted call keeps the handles and the pass lists in
    agreement. *)
Lemma consistent_call (c : Call) (w : World) :
  permitted c w = true → consistent w →
  consistent (call device_pixels initial_base c w).
Proof.
  intros Hperm Hcons.
  destruct c as [rw rh pr|nm en sc|ren|x b|pl v|pl x|pl x|pl|pl ts|pl W H st|pl];
    simpl.
  - by apply (consistent_skeleton w).
  - by apply consistent_new_pass.
  - by apply consistent_constructor.
  - apply (consistent_skeleton w); [done| |done].
    intros y. simpl. rewrite lookup_alter. case_decide; [subst|done].
    by destruct (passes w !! y).
  - apply consistent_set_renderer; [|done]. simpl in Hperm.
    destruct v; [apply andb_true_iff in Hperm as [Hperm _]|];
      by apply bool_decide_eq_true in Hperm.
  - by apply consistent_addPass.
  - apply consistent_removePass; [|done]. simpl in Hperm.
    apply andb_true_iff in Hperm as [Hperm _].
    by apply bool_decide_eq_true in Hperm.
  - simpl in Hperm. apply bool_decide_eq_true in Hperm as [this Hpl].
    destruct (removeAllPasses_effect pl w this Hpl) as [H1 H2].
    by apply (consistent_clear_list pl w _ this).
  - destruct (render_frame pl ts w) as (_ & Hps & Hpls).
    apply (consistent_skeleton w); [| |done].
    + intros pl'. by rewrite Hpls.
    + intros y. by rewrite Hps.
  - apply consistent_setSize; [|done]. simpl in Hperm.
    by apply bool_decide_eq_true in Hperm.
  - simpl in Hperm. apply bool_decide_eq_true in Hperm as [this Hpl].
    destruct (dispose_effect pl w this Hpl) as [H1 H2].
    by apply (consistent_clear_list pl w _ this).
Qed.

Lemma consistent_empty : consistent empty.
Proof.
  split.
  - intros pl this Hpl. simpl in Hpl. by rewrite lookup_empty in Hpl.
  - intros x [p Hp]. simpl in Hp. by rewrite lookup_empty in Hp.
Qed.

Lemma consistent_run (cs : list Call) (w w' : World) :
  consistent w → run device_pixels initial_base cs w = Some w' →
  consistent w'.
Proof.
  revert w. induction cs as [|c cs IH]; intros w Hcons; simpl.
  - by intros [= <-].
  - destruct (permitted c w) eqn:Hperm; [|done].
    apply IH. by apply consistent_call.
Qed.

(** C4, as the code has it: in every state reached by calls that never
    hand a pass to a pipeline while another pipeline lists it, the timer
    handle of a pass is non-null exactly when some pipeline lists the
    pass, and its renderer handle is the renderer of that pipeline, so it
    is non-null exactly when that pipeline has a renderer; a pass that no
    pipeline lists has neither.  [addPass] gives the pass the renderer
    (possibly [null]) and the timer of the pipeline; [removePass] and
    [removeAllPasses] set both handles to [null]. *)
Theorem handles_follow_membership (cs : list Call) (w : World) :
  run device_pixels initial_base cs empty = Some w →
  ∀ x p, passes w !! x = Some p →
    (is_Some (Pass.timer p) ↔ ∃ pl, member x pl w) ∧
    (is_Some (Pass.renderer p) ↔
     ∃ pl this, pipelines w !! pl = Some this ∧ x ∈ _passes this ∧
       is_Some (_renderer this)) ∧
    (∀ pl this, pipelines w !! pl = Some this → x ∈ _passes this →
       Pass.renderer p = _renderer this ∧ Pass.timer p = Some pl) ∧
    (∀ pl this, pipelines w !! pl = Some this → x ∉ _passes this →
       ∃ p', passes (addPass device_pixels pl x w).2 !! x = Some p' ∧
         Pass.renderer p' = _renderer this ∧ Pass.timer p' = Some pl) ∧
    (∀ pl, member x pl w →
       ∃ p', passes (removePass pl x w) !! x = Some p' ∧
         Pass.renderer p' = None ∧ Pass.timer p' = None) ∧
    (∀ pl, member x pl w →
       ∃ p', passes (removeAllPasses pl w) !! x = Some p' ∧
         Pass.renderer p' = None ∧ Pass.timer p' = None).
Proof.
  intros Hrun x p Hx.
  pose proof (consistent_run cs empty w consistent_empty Hrun) as Hcons.
  destruct Hcons as [Hatt Hdet].
  assert (∀ pl this, pipelines w !! pl = Some this → x ∈ _passes this →
            Pass.renderer p = _renderer this ∧ Pass.timer p = Some pl)
    as Hin.
  { intros pl this Hpl Hmem. destruct (Hatt _ _ Hpl) as [_ Hw].
    specialize (Hw _ Hmem). rewrite Hx in Hw. simpl in Hw.
    by injection Hw as -> ->. }
  assert ((∀ pl, ¬ member x pl w) →
          Pass.renderer p = None ∧ Pass.timer p = None) as Hout.
  { intros Hno. specialize (Hdet x (mk_is_Some _ _ Hx) Hno).
    rewrite Hx in Hdet. simpl in Hdet. by injection Hdet as -> ->. }
  assert (Decision (∃ pl, member x pl w)) as [(pl & this & Hpl & Hmem)|Hno].
  { unfold member.
    destruct (decide (map_Exists (λ _ this, x ∈ _passes this) (pipelines w)))
      as [Hex|Hnex]; [left|right].
    - destruct Hex as (pl & this & Hpl & Hmem). by exists pl, this.
    - intros (pl & this & Hpl & Hmem). apply Hnex. by exists pl, this. }
  - destruct (Hin _ _ Hpl Hmem) as [Hr Ht].
    split; [|split; [|split; [done|split; [|split]]]].
    + rewrite Ht. split; [intros _; by exists pl, this|by eexists].
    + rewrite Hr. split; [intros ?; by exists pl, this|].
      intros (pl' & this' & Hpl' & Hmem' & Hsome).
      destruct (Hin _ _ Hpl' Hmem') as [Hr' _]. by rewrite <- Hr, Hr'.
    + intros pl' this' Hpl' Hnin.
      destruct (registerPass_lookup pl' x w this' p Hpl' Hx)
        as (p' & Hx' & Hr' & Ht' & _).
      exists p'. split; [|done].
      unfold addPass. rewrite Hpl'.
      by rewrite bool_decide_eq_false_2 by (by rewrite indexOf_is_Some).
    + intros pl' (this' & Hpl' & Hmem').
      destruct (proj2 (removePass_effect pl' x w this' Hpl') Hmem')
        as (i & _ & _ & ->).
      rewrite lookup_alter_eq, Hx. by eexists.
    + intros pl' (this' & Hpl' & Hmem').
      destruct (removeAllPasses_effect pl' w this' Hpl') as [_ ->].
      rewrite decide_True, Hx by done. by eexists.
  - assert (∀ pl, ¬ member x pl w) as Hno' by (intros pl ?; apply Hno; eauto).
    destruct (Hout Hno') as [Hr Ht].
    split; [|split; [|split; [done|split; [|split]]]].
    + rewrite Ht. split; [by intros [? ?]|done].
    + rewrite Hr. split; [by intros [? ?]|].
      intros (pl & this & Hpl & Hmem & _). destruct (Hno' pl). by exists this.
    + intros pl' this' Hpl' Hnin.
      destruct (registerPass_lookup pl' x w this' p Hpl' Hx)
        as (p' & Hx' & Hr' & Ht' & _).
      exists p'. split; [|done].
      unfold addPass. rewrite Hpl'.
      by rewrite bool_decide_eq_false_2 by (by rewrite indexOf_is_Some).
    + intros pl' Hm. by destruct (Hno' pl').
    + intros pl' Hm. by destruct (Hno' pl').
Qed.

(** *** [updateStyle] *)

Lemma style_arguments_elem (evs : list Event) (b : bool) :
  b ∈ style_arguments evs ↔ ∃ r width height, RendererSetSize r width height b ∈ evs.
Proof.
  unfold style_arguments. rewrite list_elem_of_omap. split.
  - intros (ev & Hin & Hev). destruct ev; try done.
    injection Hev as ->. eauto.
  - intros (r & width & height & Hin). eexists. split; [done|]. done.
Qed.

Lemma onResolutionChange_styles (pl : nat) (w : World) (this : RenderPipeline) :
  pipelines w !! pl = Some this →
  ∃ evs, events (onResolutionChange device_pixels pl w) = events w ++ evs ∧
    Forall (λ b, b = updateStyle this) (style_arguments evs).
Proof.
  intros Hpl.
  destruct (onResolutionChange_skeleton pl w) as (_ & _ & _ & _ & evs & Hev & Hevs).
  exists evs. split; [done|]. apply Forall_forall. intros b Hb.
  apply style_arguments_elem in Hb as (r & width & height & Hin).
  destruct (Hevs _ Hin) as [[msg ?]|(this' & r' & w' & h' & Hpl' & Heq)];
    [done|].
  rewrite Hpl in Hpl'. injection Hpl' as <-. by injection Heq as _ _ _ ->.
Qed.

Lemma set_renderer_styles (pl : nat) (value : option nat) (w : World)
  (this : RenderPipeline) :
  pipelines w !! pl = Some this →
  ∃ evs, events (set_renderer device_pixels pl value w) = events w ++ evs ∧
    Forall (λ b, b = updateStyle this) (style_arguments evs).
Proof.
  intros Hpl. unfold set_renderer. rewrite Hpl.
  set (w1 := update_pipeline pl (set__renderer value) w).
  set (w2 := foldl (λ w x, update_pass x (Pass.set_renderer value) w) w1
               (_passes this)).
  destruct (foldl_update_pass_frame (Pass.set_renderer value) (_passes this) w1)
    as (_ & Hpls & Hev). fold w2 in Hpls, Hev.
  destruct value as [r|].
  - assert (pipelines w2 !! pl = Some (set__renderer (Some r) this)) as Hpl2.
    { rewrite Hpls. simpl. by rewrite lookup_alter_eq, Hpl. }
    destruct (onResolutionChange_styles pl w2 _ Hpl2) as (evs & Hevs & Hall).
    exists (evs ++ [IOManagerUpdate]). split.
    + simpl. rewrite Hevs, Hev. simpl. by rewrite <- app_assoc.
    + unfold style_arguments. rewrite omap_app. simpl.
      by rewrite app_nil_r.
  - exists []. split; [by rewrite app_nil_r|]. constructor.
Qed.

Lemma call_keeps_pipeline (c : Call) (w : World) (pl : nat)
  (this : RenderPipeline) :
  permitted c w = true → pipelines w !! pl = Some this →
  ∃ this', pipelines (call device_pixels initial_base c w) !! pl = Some this' ∧
    Resolution.scale (resolution this') = Resolution.scale (resolution this) ∧
    (is_setSize pl c = false → updateStyle this' = updateStyle this).
Proof.
  intros Hperm Hpl.
  destruct c as [rw rh pr|nm en sc|ren|x b|pl' v|pl' x|pl' x|pl'|pl' ts
                |pl' W H st|pl']; simpl in *.
  - by exists this.
  - by exists this.
  - exists this. split; [|done]. rewrite lookup_insert_ne; [done|].
    intros Heq. assert (pipelines w !! next_pipeline w = None) as Hfresh.
    { unfold next_pipeline. apply not_elem_of_dom, is_fresh. }
    congruence.
  - by exists this.
  - assert (is_Some (pipelines w !! pl')) as [this' Hpl'].
    { destruct v; [apply andb_true_iff in Hperm as [Hperm _]|];
        by apply bool_decide_eq_true in Hperm. }
    destruct (set_renderer_effect pl' v w this' Hpl') as [-> _].
    rewrite lookup_alter. case_decide; [subst|by exists this].
    rewrite Hpl. by eexists.
  - apply andb_true_iff in Hperm as [Hperm _].
    apply andb_true_iff in Hperm as [Hperm _].
    apply bool_decide_eq_true in Hperm as [this' Hpl'].
    destruct (decide (x ∈ _passes this')) as [Hin|Hnin].
    + destruct (proj1 (addPass_effect pl' x w this' Hpl') Hin) as [msg ->].
      by exists this.
    + destruct (proj2 (addPass_effect pl' x w this' Hpl') Hnin)
        as (w' & -> & Hat & Hother). simpl.
      destruct (decide (pl = pl')) as [->|Hne].
      * rewrite Hat. rewrite Hpl in Hpl'. injection Hpl' as <-. by eexists.
      * rewrite Hother by done. by exists this.
  - apply andb_true_iff in Hperm as [Hperm _].
    apply bool_decide_eq_true in Hperm as [this' Hpl'].
    destruct (removePass_effect pl' x w this' Hpl') as [Hsame Hrem].
    destruct (decide (x ∈ _passes this')) as [Hin|Hnin].
    + destruct (Hrem Hin) as (i & _ & -> & _). rewrite lookup_alter.
      case_decide; [subst|by exists this]. rewrite Hpl. by eexists.
    + rewrite Hsame by done. by exists this.
  - apply bool_decide_eq_true in Hperm as [this' Hpl'].
    destruct (removeAllPasses_effect pl' w this' Hpl') as [-> _].
    rewrite lookup_alter.
    case_decide; [subst|by exists this]. rewrite Hpl. by eexists.
  - destruct (render_frame pl' ts w) as (_ & _ & ->). by exists this.
  - apply bool_decide_eq_true in Hperm as [this' Hpl'].
    destruct (setSize_pipeline pl' W H st w this' Hpl') as [Hat Hother].
    destruct (decide (pl' = pl)) as [->|Hne].
    + rewrite Hat. rewrite Hpl in Hpl'. injection Hpl' as <-.
      eexists. split; [done|]. split; [done|].
      intros Hno. by apply bool_decide_eq_false in Hno.
    + rewrite Hother by congruence. by exists this.
  - apply bool_decide_eq_true in Hperm as [this' Hpl'].
    destruct (dispose_effect pl' w this' Hpl') as [-> _].
    rewrite lookup_alter.
    case_decide; [subst|by exists this]. rewrite Hpl. by eexists.
Qed.

(** A call makes a pipeline only by [new RenderPipeline], and the
    resolution of a new pipeline has scale 1. *)
Lemma call_new_pipeline (c : Call) (w : World) (pl : nat)
  (this' : RenderPipeline) :
  permitted c w = true → pipelines w !! pl = None →
  pipelines (call device_pixels initial_base c w) !! pl = Some this' →
  Resolution.scale (resolution this') = 1%Q.
Proof.
  intros Hperm Hpl.
  destruct c as [rw rh pr|nm en sc|ren|x b|pl' v|pl' x|pl' x|pl'|pl' ts
                |pl' W H st|pl']; simpl in *.
  - congruence.
  - congruence.
  - destruct (decide (next_pipeline w = pl)) as [<-|Hne].
    + rewrite lookup_insert_eq. by intros [= <-].
    + rewrite lookup_insert_ne by done. congruence.
  - congruence.
  - assert (is_Some (pipelines w !! pl')) as [t Hpl'].
    { destruct v; [apply andb_true_iff in Hperm as [Hperm _]|];
        by apply bool_decide_eq_true in Hperm. }
    destruct (set_renderer_effect pl' v w t Hpl') as [-> _].
    rewrite lookup_alter_ne by congruence. congruence.
  - apply andb_true_iff in Hperm as [Hperm _].
    apply andb_true_iff in Hperm as [Hperm _].
    apply bool_decide_eq_true in Hperm as [t Hpl'].
    destruct (decide (x ∈ _passes t)) as [Hin|Hnin].
    + destruct (proj1 (addPass_effect pl' x w t Hpl') Hin) as [msg ->].
      simpl. congruence.
    + destruct (proj2 (addPass_effect pl' x w t Hpl') Hnin)
        as (w' & -> & _ & Hother). simpl.
      rewrite Hother by congruence. congruence.
  - apply andb_true_iff in Hperm as [Hperm _].
    apply bool_decide_eq_true in Hperm as [t Hpl'].
    destruct (removePass_effect pl' x w t Hpl') as [Hsame Hrem].
    destruct (decide (x ∈ _passes t)) as [Hin|Hnin].
    + destruct (Hrem Hin) as (i & _ & -> & _).
      rewrite lookup_alter_ne by congruence. congruence.
    + rewrite Hsame by done. congruence.
  - apply bool_decide_eq_true in Hperm as [t Hpl'].
    destruct (removeAllPasses_effect pl' w t Hpl') as [-> _].
    rewrite lookup_alter_ne by congruence. congruence.
  - destruct (render_frame pl' ts w) as (_ & _ & ->). congruence.
  - apply bool_decide_eq_true in Hperm as [t Hpl'].
    destruct (setSize_pipeline pl' W H st w t Hpl') as [_ Hother].
    rewrite Hother by congruence. congruence.
  - apply bool_decide_eq_true in Hperm as [t Hpl'].
    destruct (dispose_effect pl' w t Hpl') as [-> _].
    rewrite lookup_alter_ne by congruence. congruence.
Qed.

(** The resolution of a pipeline keeps the scale 1 it is created with:
    no method of the pipeline assigns to it. *)
Lemma run_scale (cs : list Call) (w w' : World) :
  (∀ pl this, pipelines w !! pl = Some this →
     Resolution.scale (resolution this) = 1%Q) →
  run device_pixels initial_base cs w = Some w' →
  ∀ pl this, pipelines w' !! pl = Some this →
    Resolution.scale (resolution this) = 1%Q.
Proof.
  revert w. induction cs as [|c cs IH]; intros w Hone; simpl.
  - by intros [= <-].
  - destruct (permitted c w) eqn:Hperm; [|done]. apply IH.
    intros pl this Hpl.
    destruct (pipelines w !! pl) as [t|] eqn:Hold.
    + destruct (call_keeps_pipeline c w pl t Hperm Hold)
        as (t' & Hnew & Hscale & _).
      rewrite Hnew in Hpl. injection Hpl as <-.
      rewrite Hscale. by apply (Hone pl).
    + by apply (call_new_pipeline c w pl this Hperm Hold).
Qed.

Lemma reachable_scale (cs : list Call) (w : World) (pl : nat)
  (this : RenderPipeline) :
  run device_pixels initial_base cs empty = Some w →
  pipelines w !! pl = Some this →
  Resolution.scale (resolution this) = 1%Q.
Proof.
  intros Hrun. apply (run_scale cs empty w); [|done].
  intros pl' this' Hpl'. simpl in Hpl'. by rewrite lookup_empty in Hpl'.
Qed.

Lemma run_keeps_updateStyle (cs : list Call) (w w' : World) (pl : nat)
  (this : RenderPipeline) :
  forallb (λ c, negb (is_setSize pl c)) cs = true →
  run device_pixels initial_base cs w = Some w' →
  pipelines w !! pl = Some this →
  ∃ this', pipelines w' !! pl = Some this' ∧
    updateStyle this' = updateStyle this.
Proof.
  revert w this. induction cs as [|c cs IH]; intros w this Hall; simpl.
  - intros [= <-] Hpl. by exists this.
  - simpl in Hall. apply andb_true_iff in Hall as [Hc Hall].
    apply negb_true_iff in Hc.
    destruct (permitted c w) eqn:Hperm; [|done]. intros Hrun Hpl.
    destruct (call_keeps_pipeline c w pl this Hperm Hpl)
      as (this1 & Hpl1 & _ & Hus).
    rewrite <- (Hus Hc). by apply (IH _ _ Hall Hrun).
Qed.

Lemma alter_as_insert {A : Type} (f : A → A) (m : gmap nat A) (i : nat)
  (a : A) :
  m !! i = Some a → alter f i m = <[i := f a]> m.
Proof.
  intros Hi. apply map_eq. intros j. rewrite lookup_alter, lookup_insert.
  case_decide; [subst; by rewrite Hi|done].
Qed.

Lemma set_renderer_attach (pl r : nat) (w : World) (this : RenderPipeline)
  (R : WebGLRenderer.t) :
  pipelines w !! pl = Some this → renderers w !! r = Some R →
  let w' := set_renderer device_pixels pl (Some r) w in
  pipelines w' = <[pl := set__renderer (Some r) this]> (pipelines w) ∧
  renderers w' !! r = Some (fitted this R) ∧
  (∀ r', r' ≠ r → renderers w' !! r' = renderers w !! r') ∧
  events w' =
    events w ++
    (if resized this R
     then [RendererSetSize r (Resolution.width (resolution this))
             (Resolution.height (resolution this)) (updateStyle this)]
     else []) ++ [IOManagerUpdate] ∧
  ∀ y, passes w' !! y =
       if decide (y ∈ _passes this)
       then (λ p, Pass.resolution_setBaseSize
                    (WebGLRenderer.getDrawingBufferSize device_pixels
                       (fitted this R)).1
                    (WebGLRenderer.getDrawingBufferSize device_pixels
                       (fitted this R)).2
                    (Pass.set_renderer (Some r) p)) <$> passes w !! y
       else passes w !! y.
Proof.
  intros Hpl HR. unfold set_renderer. rewrite Hpl.
  set (w1 := update_pipeline pl (set__renderer (Some r)) w).
  set (w2 := foldl (λ w x, update_pass x (Pass.set_renderer (Some r)) w) w1
               (_passes this)).
  destruct (foldl_update_pass_frame (Pass.set_renderer (Some r))
              (_passes this) w1) as (Hr2 & Hpls2 & He2).
  fold w2 in Hr2, Hpls2, He2.
  assert (pipelines w2 !! pl = Some (set__renderer (Some r) this)) as Hpl2.
  { rewrite Hpls2. unfold w1. simpl. by rewrite lookup_alter_eq, Hpl. }
  assert (renderers w2 !! r = Some R) as HR2 by (by rewrite Hr2).
  destruct (onResolutionChange_attached pl w2 _ r R Hpl2
              eq_refl HR2) as (HR' & Hoth & Hpls & Hev & Hps).
  simpl. split; [|split; [exact HR'|split; [|split]]].
  - rewrite Hpls, Hpls2. unfold w1. simpl. by apply alter_as_insert.
  - intros r' Hne. by rewrite Hoth, Hr2.
  - rewrite Hev, He2. unfold w1. simpl. by rewrite <- app_assoc.
  - intros y. rewrite Hps. simpl. unfold w2.
    rewrite foldl_update_pass_lookup by done.
    change (passes w1) with (passes w).
    case_decide; [|done]. by destruct (passes w !! y).
Qed.

Lemma resized_true (this : RenderPipeline) (R : WebGLRenderer.t) :
  WebGLRenderer.getSize R ≠
    (Resolution.width (resolution this), Resolution.height (resolution this)) →
  resized this R = true.
Proof.
  unfold resized, WebGLRenderer.getSize. intros Hsize.
  destruct (Z.eqb_spec (WebGLRenderer.width R)
              (Resolution.width (resolution this)));
    destruct (Z.eqb_spec (WebGLRenderer.height R)
                (Resolution.height (resolution this))); try done.
  destruct Hsize. congruence.
Qed.

(** C10: [setSize(w, h, updateStyle)] writes its third argument ([true]
    when it is left out) to the [updateStyle] property before it hands the
    size to the resolution: when the size is new and the renderer does not
    have it, the renderer is resized during the call, with that value.
    The property keeps the value through every later call other than a
    [setSize] of this pipeline, and when a renderer of another size is
    assigned to [renderer] afterwards, that renderer is resized with it,
    not with the [true] that the constructor wrote. *)
Theorem setSize_overwrites_updateStyle (pl : nat) (W H : Z)
  (style : option bool) (w : World) (this : RenderPipeline) :
  pipelines w !! pl = Some this →
  let b := default true style in
  let w1 := setSize device_pixels pl W H style w in
  (∃ this1, pipelines w1 !! pl = Some this1 ∧ updateStyle this1 = b) ∧
  (∃ evs, events w1 = events w ++ evs ∧
     Forall (λ s, s = b) (style_arguments evs)) ∧
  (∀ r R, _renderer this = Some r → renderers w !! r = Some R →
     Resolution.changes_baseSize W H (resolution this) = true →
     WebGLRenderer.getSize R ≠
       (Resolution.width (Resolution.setBaseSize W H (resolution this)),
        Resolution.height (Resolution.setBaseSize W H (resolution this))) →
     events w1 =
       events w ++
       [RendererSetSize r
          (Resolution.width (Resolution.setBaseSize W H (resolution this)))
          (Resolution.height (Resolution.setBaseSize W H (resolution this)))
          b] ∧
     WebGLRenderer.style <$> renderers w1 !! r =
       Some (if b
             then Some (Resolution.width
                          (Resolution.setBaseSize W H (resolution this)),
                        Resolution.height
                          (Resolution.setBaseSize W H (resolution this)))
             else WebGLRenderer.style R)) ∧
  ∀ cs w2,
    forallb (λ c, negb (is_setSize pl c)) cs = true →
    run device_pixels initial_base cs w1 = Some w2 →
    ∃ this2, pipelines w2 !! pl = Some this2 ∧ updateStyle this2 = b ∧
      (∀ value, ∃ evs,
         events (set_renderer device_pixels pl value w2) = events w2 ++ evs ∧
         Forall (λ s, s = b) (style_arguments evs)) ∧
      (∀ r R, renderers w2 !! r = Some R →
         WebGLRenderer.getSize R ≠
           (Resolution.width (resolution this2),
            Resolution.height (resolution this2)) →
         events (set_renderer device_pixels pl (Some r) w2) =
           events w2 ++
           [RendererSetSize r (Resolution.width (resolution this2))
              (Resolution.height (resolution this2)) b;
            IOManagerUpdate]).
Proof.
  intros Hpl b w1.
  set (this1 := set_resolution (Resolution.setBaseSize W H (resolution this))
                  (set_updateStyle b this)).
  destruct (setSize_pipeline pl W H style w this Hpl) as [Hpl1 _].
  fold b in Hpl1. fold this1 in Hpl1. fold w1 in Hpl1.
  set (w0 := update_pipeline pl
       (λ p, set_resolution (Resolution.setBaseSize W H (resolution p)) p)
       (update_pipeline pl (set_updateStyle b) w)).
  assert (pipelines w0 !! pl = Some this1) as Hpl0.
  { unfold w0. simpl. by rewrite !lookup_alter_eq, Hpl. }
  split; [by exists this1|]. split; [|split].
  - unfold w1. rewrite (setSize_unfold _ _ _ _ _ _ Hpl).
    destruct (Resolution.changes_baseSize W H (resolution this)).
    + exact (onResolutionChange_styles pl w0 this1 Hpl0).
    + exists []. split; [by rewrite app_nil_r|]. constructor.
  - intros r R Hr HR Hch Hsize.
    destruct (setSize_changed pl W H style w this r R Hpl Hr HR Hch)
      as (_ & HR1 & _ & Hev & _).
    fold b this1 w1 in HR1, Hev.
    assert (resized this1 R = true) as Hres by (by apply resized_true).
    rewrite Hev, HR1. unfold fitted. rewrite Hres. simpl.
    split; [done|]. by destruct b.
  - intros cs w2 Hall Hrun.
    destruct (run_keeps_updateStyle cs w1 w2 pl this1 Hall Hrun Hpl1)
      as (this2 & Hpl2 & Hus).
    exists this2. split; [done|]. split; [done|]. split.
    + intros value.
      destruct (set_renderer_styles pl value w2 this2 Hpl2)
        as (evs & Hev & Hall').
      exists evs. split; [done|]. by rewrite Hus in Hall'.
    + intros r R HR Hsize.
      destruct (set_renderer_attach pl r w2 this2 R Hpl2 HR)
        as (_ & _ & _ & Hev & _).
      rewrite Hev, (resized_true _ _ Hsize). simpl. by rewrite Hus.
Qed.

End RenderPipelineFacts.

(** *** With the renderer of three.js *)

Section RenderPipelineThree.

Import RenderPipeline.

(** C1, as the code has it: when [setSize(W, H)] with a new base size
    returns on a pipeline with a renderer, the renderer has the effective
    size of the resolution of the pipeline as its logical size, and the
    base size of the resolution of every pass in the list is the size of
    the drawing buffer of the renderer, as the renderer then has it; no
    further call is needed.  three.js cuts the scaled lengths down to whole
    pixels: for a pipeline resolution of scale 1 (the scale it is created
    with and keeps) the size is [floor(W × S)] by [floor(H × S)], [S] being
    the pixel ratio of the renderer.  A [setSize] with the base size that
    the resolution has already stores [updateStyle] and does nothing
    else. *)
Theorem setSize_syncs_passes (pl : nat) (W H : Z) (style : option bool)
  (w : World) (this : RenderPipeline) (r : nat) (R : WebGLRenderer.t) :
  pipelines w !! pl = Some this → _renderer this = Some r →
  renderers w !! r = Some R →
  let w' := setSize WebGLRenderer.floor_pixels pl W H style w in
  (Resolution.changes_baseSize W H (resolution this) = true →
   ∃ this' R',
     pipelines w' !! pl = Some this' ∧ _passes this' = _passes this ∧
     _renderer this' = Some r ∧
     renderers w' !! r = Some R' ∧
     WebGLRenderer.pixelRatio R' = WebGLRenderer.pixelRatio R ∧
     WebGLRenderer.getSize R' =
       (Math_round (inject_Z W * Resolution.scale (resolution this))%Q,
        Math_round (inject_Z H * Resolution.scale (resolution this))%Q) ∧
     (∀ x p, x ∈ _passes this → passes w !! x = Some p →
        ∃ p', passes w' !! x = Some p' ∧
          Pass.baseSize p' =
          WebGLRenderer.getDrawingBufferSize WebGLRenderer.floor_pixels R') ∧
     WebGLRenderer.getDrawingBufferSize WebGLRenderer.floor_pixels R' =
       (WebGLRenderer.floor_pixels
          (inject_Z
             (Math_round (inject_Z W * Resolution.scale (resolution this))%Q)
           * WebGLRenderer.pixelRatio R)%Q,
        WebGLRenderer.floor_pixels
          (inject_Z
             (Math_round (inject_Z H * Resolution.scale (resolution this))%Q)
           * WebGLRenderer.pixelRatio R)%Q) ∧
     ((Resolution.scale (resolution this) == 1)%Q →
      WebGLRenderer.getDrawingBufferSize WebGLRenderer.floor_pixels R' =
      (WebGLRenderer.floor_pixels (inject_Z W * WebGLRenderer.pixelRatio R)%Q,
       WebGLRenderer.floor_pixels
         (inject_Z H * WebGLRenderer.pixelRatio R)%Q))) ∧
  (Resolution.changes_baseSize W H (resolution this) = false →
   w' = update_pipeline pl (set_updateStyle (default true style)) w).
Proof.
  intros Hpl Hr HR w'. split.
  - intros Hch.
    set (this2 := set_resolution (Resolution.setBaseSize W H (resolution this))
                    (set_updateStyle (default true style) this)).
    destruct (setSize_changed WebGLRenderer.floor_pixels pl W H style w this
                r R Hpl Hr HR Hch) as (Hpl' & HR' & _ & _ & Hps).
    fold this2 w' in Hpl', HR', Hps.
    destruct (fitted_size this2 R) as (Hw & Hh & Hpr).
    assert (WebGLRenderer.getDrawingBufferSize WebGLRenderer.floor_pixels
              (fitted this2 R) =
       (WebGLRenderer.floor_pixels
          (inject_Z
             (Math_round (inject_Z W * Resolution.scale (resolution this))%Q)
           * WebGLRenderer.pixelRatio R)%Q,
        WebGLRenderer.floor_pixels
          (inject_Z
             (Math_round (inject_Z H * Resolution.scale (resolution this))%Q)
           * WebGLRenderer.pixelRatio R)%Q)) as Hsize.
    { unfold WebGLRenderer.getDrawingBufferSize. by rewrite Hw, Hh, Hpr. }
    exists this2, (fitted this2 R).
    split; [done|]. split; [done|]. split; [done|]. split; [done|].
    split; [done|]. split; [|split; [|split; [done|]]].
    + unfold WebGLRenderer.getSize. by rewrite Hw, Hh.
    + intros x p Hin Hx. rewrite Hps, decide_True, Hx by done. simpl.
      eexists. split; [done|]. done.
    + intros Hscale. rewrite Hsize.
      by rewrite !(Math_round_unscaled _ _ Hscale).
  - intros Hch. unfold w'.
    by rewrite (setSize_unfold _ _ _ _ _ _ _ Hpl), Hch.
Qed.

End RenderPipelineThree.

(** *** The example world *)

Section RenderPipelineExamples.

Import RenderPipeline.

Example studio_reachable :
  run Math_round (1, 1)%Z studio_calls empty = Some studio.
Proof. vm_compute. reflexivity. Qed.

Lemma studio_pipeline_lookup : pipelines studio !! 0 = Some studio_pipeline.
Proof. vm_compute. reflexivity. Defined.

Lemma studio_renderer_lookup : renderers studio !! 0 = Some studio_renderer.
Proof. vm_compute. reflexivity. Defined.

Lemma studio_effects_lookup : passes studio !! 1 = Some studio_effects.
Proof. vm_compute. reflexivity. Defined.

Lemma handles_follow_membership_witness :
  is_Some (Pass.timer studio_effects) ↔ ∃ pl, member 1 pl studio.
Proof.
  refine (proj1 (handles_follow_membership Math_round (1, 1)%Z studio_calls
                   studio _ 1 studio_effects studio_effects_lookup)).
  vm_compute. reflexivity.
Defined.

(** C4, as the claim has it, fails: a pass is added to a pipeline that was
    made without a renderer.  The pipeline lists the pass, the pass has
    the timer of the pipeline, and its renderer handle is [null]. *)
Lemma member_with_null_renderer :
  let w :=
    run Math_round (1, 1)%Z [NewPass "clear" true 1; New None; AddPass 0 0]
      empty in
  (w ≫= λ w, _passes <$> pipelines w !! 0) = Some [0] ∧
  (w ≫= λ w, Pass.handles <$> passes w !! 0) = Some (None, Some 0).
Proof. vm_compute. done. Qed.

Lemma render_spec_witness :
  render 0 (Some 16%Q) studio =
  {| renderers := renderers studio; passes := passes studio;
     pipelines := pipelines studio;
     events := events studio ++ [TimerUpdate 0 (Some 16%Q); PassRender 0] |}.
Proof.
  refine (proj1 (proj2 (render_spec 0 (Some 16%Q) studio studio_pipeline
                          studio_pipeline_lookup)) _).
  by eexists.
Defined.

Lemma addPass_spec_witness :
  ∃ message,
    addPass Math_round 0 1 studio = (Throw message, studio) ∧
    (addPass Math_round 0 1 studio).2 = studio.
Proof.
  refine (proj1 (addPass_spec Math_round 0 1 studio studio_pipeline
                   studio_pipeline_lookup) _).
  apply list_elem_of_In. simpl. tauto.
Defined.

(** The example world is the same with the renderer of three.js. *)
Example studio_reachable_three :
  run WebGLRenderer.floor_pixels (1, 1)%Z studio_calls empty = Some studio.
Proof. vm_compute. reflexivity. Qed.

Lemma setSize_syncs_passes_witness :
  ∃ this' R',
    pipelines (setSize WebGLRenderer.floor_pixels 0 801 601 None studio) !! 0
      = Some this' ∧
    _passes this' = [0; 1] ∧ _renderer this' = Some 0 ∧
    renderers (setSize WebGLRenderer.floor_pixels 0 801 601 None studio) !! 0
      = Some R' ∧
    WebGLRenderer.pixelRatio R' = (3 # 2)%Q ∧
    WebGLRenderer.getSize R' =
      (Math_round (inject_Z 801 * 1)%Q, Math_round (inject_Z 601 * 1)%Q) ∧
    (∀ x p, x ∈ [0; 1] → passes studio !! x = Some p →
       ∃ p',
         passes (setSize WebGLRenderer.floor_pixels 0 801 601 None studio)
           !! x = Some p' ∧
         Pass.baseSize p' =
         WebGLRenderer.getDrawingBufferSize WebGLRenderer.floor_pixels R') ∧
    WebGLRenderer.getDrawingBufferSize WebGLRenderer.floor_pixels R' =
      (WebGLRenderer.floor_pixels
         (inject_Z (Math_round (inject_Z 801 * 1)%Q) * (3 # 2))%Q,
       WebGLRenderer.floor_pixels
         (inject_Z (Math_round (inject_Z 601 * 1)%Q) * (3 # 2))%Q) ∧
    ((1 == 1)%Q →
     WebGLRenderer.getDrawingBufferSize WebGLRenderer.floor_pixels R' =
     (WebGLRenderer.floor_pixels (inject_Z 801 * (3 # 2))%Q,
      WebGLRenderer.floor_pixels (inject_Z 601 * (3 # 2))%Q)).
Proof.
  exact (proj1 (setSize_syncs_passes 0 801 601 None studio
                  studio_pipeline 0 studio_renderer studio_pipeline_lookup
                  eq_refl studio_renderer_lookup) eq_refl).
Defined.

(** C1, as the claim has it, fails: the pipeline of the example world,
    whose renderer has the pixel ratio 1.5, is resized to 801×601.  The
    drawing buffer of the renderer, and with it the base size of both
    passes, is 1201×901: 801 × 1.5 = 1201.5 and 601 × 1.5 = 901.5 are cut
    down, where the claim wants them rounded to 1202×902. *)
Lemma setSize_floors_the_drawing_buffer :
  let w' := setSize WebGLRenderer.floor_pixels 0 801 601 None studio in
  Pass.baseSize <$> passes w' !! 0 = Some (1201, 901)%Z ∧
  Pass.baseSize <$> passes w' !! 1 = Some (1201, 901)%Z ∧
  WebGLRenderer.getDrawingBufferSize WebGLRenderer.floor_pixels
    <$> renderers w' !! 0 = Some (1201, 901)%Z ∧
  (Math_round (inject_Z 801 * (3 # 2))%Q,
   Math_round (inject_Z 601 * (3 # 2))%Q) = (1202, 902)%Z.
Proof. vm_compute. done. Qed.

(** A [setSize] that repeats the base size of the resolution calls
    nobody: the renderer of the example world keeps its 300×150 although
    the resolution of the pipeline says 1×1. *)
Example setSize_same_size_is_silent :
  let w' := setSize WebGLRenderer.floor_pixels 0 1 1 None studio in
  events w' = events studio ∧ renderers w' = renderers studio ∧
  passes w' = passes studio.
Proof. vm_compute. done. Qed.

Lemma setSize_overwrites_updateStyle_witness :
  ∃ this1,
    pipelines (setSize Math_round 0 800 600 (Some false) studio) !! 0
      = Some this1 ∧
    updateStyle this1 = false.
Proof.
  exact (proj1 (setSize_overwrites_updateStyle Math_round (1, 1)%Z 0 800 600
                  (Some false) studio studio_pipeline
                  studio_pipeline_lookup)).
Defined.

(** [addPass] compares references: a second pass with the contents of a
    listed one is added, the listed one itself is refused. *)
Example addPass_compares_references :
  let w :=
    constructor (1, 1)%Z None
      (new_pass (1, 1)%Z "blur" true 1%Q
         (new_pass (1, 1)%Z "blur" true 1%Q empty)) in
  let w1 := (addPass Math_round 0 0 w).2 in
  passes w !! 0 = passes w !! 1 ∧
  _passes <$> pipelines (addPass Math_round 0 1 w1).2 !! 0 = Some [0; 1] ∧
  (addPass Math_round 0 0 w1).1 =
    Throw ("Unable to add pass " +:+ dquote +:+ "blur" +:+ dquote
           +:+ " because it was already added").
Proof. vm_compute. done. Qed.

(** What the restriction on the calls keeps out: a pass that two pipelines
    list loses its handles when one of them removes it, and the other
    still lists it. *)
Example shared_pass_loses_handles :
  let w1 := (addPass Math_round 0 0 (constructor (1, 1)%Z None
               (constructor (1, 1)%Z None
                  (new_pass (1, 1)%Z "clear" true 1%Q empty)))).2 in
  let w2 := removePass 0 0 (addPass Math_round 1 0 w1).2 in
  _passes <$> pipelines w2 !! 1 = Some [0] ∧
  Pass.handles <$> passes w2 !! 0 = Some (None, None).
Proof. vm_compute. done. Qed.

(** A pipeline made without a renderer is resized with [updateStyle]
    false and then given a renderer: the renderer is resized with [false],
    and the style of its canvas is not written. *)
Example late_renderer_uses_last_updateStyle :
  let w :=
    run Math_round (1, 1)%Z
      [NewRenderer 300 150 1%Q; New None; SetSize 0 800 600 (Some false);
       SetRenderer 0 (Some 0)] empty in
  (w ≫= λ w, Some (style_arguments (events w))) = Some [false] ∧
  (w ≫= λ w, renderers w !! 0) =
    Some {| WebGLRenderer.width := 800; WebGLRenderer.height := 600;
            WebGLRenderer.pixelRatio := 1%Q; WebGLRenderer.style := None |}.
Proof. vm_compute. done. Qed.

End RenderPipelineExamples.

(** * Further properties of the code *)

(** ** [EffectMaterial]: macros, uniforms and shader parts *)

Section EffectMaterialMore.

Import JSString EffectMaterial.

Lemma material_eq (a b : EffectMaterial) :
  defines a = defines b → uniforms a = uniforms b → values a = values b →
  fragmentShader a = fragmentShader b → vertexShader a = vertexShader b →
  version a = version b → a = b.
Proof. destruct a, b. simpl. by intros -> -> -> -> -> ->. Qed.

Lemma lookup_last_elem {A : Type} (key : string) (v : A)
  (entries : list (string * A)) :
  (key, v) ∈ entries → is_Some (lookup_last key entries).
Proof.
  induction entries as [|entry entries IH]; [by intros ?%elem_of_nil|].
  intros [<-|Hin]%elem_of_cons; simpl.
  - destruct (lookup_last key entries); [by eexists|].
    rewrite decide_True by done. by eexists.
  - destruct (IH Hin) as [u ->]. by eexists.
Qed.

Lemma lookup_last_NoDup {A : Type} (key : string) (v : A)
  (entries : list (string * A)) :
  NoDup entries.*1 →
  lookup_last key entries = Some v ↔ (key, v) ∈ entries.
Proof.
  revert v. induction entries as [|[k u] entries IH]; intros v; simpl.
  - intros _. split; [done|by intros ?%elem_of_nil].
  - intros [Hk Hnd]%NoDup_cons.
    destruct (lookup_last key entries) as [u'|] eqn:Hlast.
    + assert ((key, u') ∈ entries) as Hin by (by apply IH).
      assert (k ≠ key) as Hne.
      { intros ->. apply Hk. apply list_elem_of_fmap. by exists (key, u'). }
      rewrite elem_of_cons, <- (IH v Hnd). split; [by right|].
      intros [[= ? ?]|?]; [congruence|done].
    + rewrite elem_of_cons, <- (IH v Hnd).
      destruct (decide (k = key)) as [->|Hne].
      * split; [intros [= ->]; by left|].
        intros [[= ->]|?]; done.
      * split; [done|]. intros [[= ? ?]|?]; [congruence|done].
Qed.

Lemma lookup_last_Permutation {A : Type} (key : string)
  (entries entries' : list (string * A)) :
  entries ≡ₚ entries' → NoDup entries.*1 →
  lookup_last key entries = lookup_last key entries'.
Proof.
  intros Hperm Hnd.
  assert (NoDup entries'.*1) as Hnd' by (by rewrite <- Hperm).
  apply option_eq. intros v.
  rewrite !lookup_last_NoDup by done. by rewrite Hperm.
Qed.

Lemma fold_defines_lookup (entries : list (string * DefineValue))
  (this : EffectMaterial) (key : string) :
  defines
    (foldl (λ m entry, set_defines (<[entry.1 := entry.2]> (defines m)) m)
       this entries) !! key =
  match lookup_last key entries with
  | Some v => Some v
  | None => defines this !! key
  end.
Proof.
  revert this. induction entries as [|entry entries IH]; intros this; [done|].
  simpl. rewrite IH. simpl.
  destruct (lookup_last key entries); [done|].
  destruct (decide (entry.1 = key)) as [<-|Hne].
  - by rewrite lookup_insert_eq.
  - by rewrite lookup_insert_ne.
Qed.

Lemma fold_defines_frame (entries : list (string * DefineValue))
  (this : EffectMaterial) :
  let this' :=
    foldl (λ m entry, set_defines (<[entry.1 := entry.2]> (defines m)) m)
      this entries in
  version this' = version this ∧ uniforms this' = uniforms this ∧
  fragmentShader this' = fragmentShader this ∧
  vertexShader this' = vertexShader this ∧
  values this' = values this.
Proof.
  revert this. induction entries as [|entry entries IH]; intros this; [done|].
  exact (IH (set_defines (<[entry.1 := entry.2]> (defines this)) this)).
Qed.

(** X1: [setDefines(d)] merges [d] into the macros of the material, the
    last writer of a name winning; it takes no macro away; it raises the
    recompilation counter by exactly one, whatever [d] holds (an empty map
    included), and touches neither the uniforms nor the shader texts.
    [colorSpaceConversion] reads the presence of its macro and not its
    value: it is on after a [setDefines] that brings the name
    [COLOR_SPACE_CONVERSION] with any value, and a [setDefines] never turns
    it off. *)
Theorem setDefines_spec (entries : list (string * DefineValue))
  (this : EffectMaterial) :
  let this' := setDefines entries this in
  (∀ key : string,
     defines this' !! key =
     match lookup_last key entries with
     | Some v => Some v
     | None => defines this !! key
     end) ∧
  (∀ key : string,
     is_Some (defines this !! key) → is_Some (defines this' !! key)) ∧
  version this' = S (version this) ∧
  uniforms this' = uniforms this ∧
  fragmentShader this' = fragmentShader this ∧
  vertexShader this' = vertexShader this ∧
  (colorSpaceConversion this = true → colorSpaceConversion this' = true) ∧
  (∀ v : DefineValue,
     ("COLOR_SPACE_CONVERSION", v) ∈ entries →
     colorSpaceConversion this' = true).
Proof.
  assert (∀ key : string,
     defines (setDefines entries this) !! key =
     match lookup_last key entries with
     | Some v => Some v
     | None => defines this !! key
     end) as Hlook.
  { intros key. unfold setDefines. simpl. apply fold_defines_lookup. }
  assert (∀ key : string,
     is_Some (defines this !! key) →
     is_Some (defines (setDefines entries this) !! key)) as Hkeep.
  { intros key Hsome. rewrite Hlook.
    by destruct (lookup_last key entries). }
  destruct (fold_defines_frame entries this) as (Hv & Hu & Hf & Hvs & _).
  split; [done|]. split; [done|].
  split; [unfold setDefines; simpl; by rewrite Hv|].
  split; [done|]. split; [done|]. split; [done|]. split.
  - unfold colorSpaceConversion. intros Hon.
    apply bool_decide_eq_true in Hon. by apply bool_decide_eq_true, Hkeep.
  - intros v Hin. unfold colorSpaceConversion. apply bool_decide_eq_true.
    rewrite Hlook. destruct (lookup_last_elem _ _ _ Hin) as [u ->].
    by eexists.
Qed.

(** X2: the result of [setUniforms] and of [setDefines] does not depend on
    the order in which the entries of the argument are visited, as long as
    no name occurs twice among them (which is so for the entries of a
    [Map]). *)
Theorem merge_order_irrelevant (this : EffectMaterial)
  (u u' : list (string * UniformRef)) (d d' : list (string * DefineValue)) :
  (u ≡ₚ u' → NoDup u.*1 → setUniforms u this = setUniforms u' this) ∧
  (d ≡ₚ d' → NoDup d.*1 → setDefines d this = setDefines d' this).
Proof.
  split.
  - intros Hperm Hnd.
    destruct (setUniforms_frame u this) as (Hv & Hd & Hf & Hvs).
    destruct (setUniforms_frame u' this) as (Hv' & Hd' & Hf' & Hvs').
    pose proof (setUniforms_values u this) as Hvl.
    pose proof (setUniforms_values u' this) as Hvl'.
    apply material_eq; try congruence.
    apply map_eq. intros key. rewrite !setUniforms_lookup.
    by rewrite (lookup_last_Permutation key u u').
  - intros Hperm Hnd.
    destruct (fold_defines_frame d this) as (Hv & Hu & Hf & Hvs & Hvl).
    destruct (fold_defines_frame d' this) as (Hv' & Hu' & Hf' & Hvs' & Hvl').
    unfold setDefines. apply material_eq; simpl; try congruence.
    apply map_eq. intros key. rewrite !fold_defines_lookup.
    by rewrite (lookup_last_Permutation key d d').
Qed.

(** An order that matters: with a name twice among the entries the later
    entry wins. *)
Example setUniforms_later_entry_wins :
  uniforms (setUniforms [("a", 1); ("a", 2)] plain_material) !! "a"
    = Some 2 ∧
  uniforms (setUniforms [("a", 2); ("a", 1)] plain_material) !! "a"
    = Some 1.
Proof. vm_compute. done. Qed.

Section Templates.

Variable marker : EffectShaderSection → string.

(** A chain of [replace] calls in which no marker occurs in the text
    leaves the text as it is. *)
Lemma chain_absent (parts : gmap EffectShaderSection (option string))
  (keys : list EffectShaderSection) (s : string) :
  (∀ key, key ∈ keys → ¬ occurs (marker key) s) →
  foldl (replace_section marker parts) s keys = s.
Proof.
  induction keys as [|key keys IH]; intros Hno; [done|]. simpl.
  unfold replace_section at 2.
  rewrite replace_absent by (apply Hno; left).
  apply IH. intros key' Hin. apply Hno. by right.
Qed.

(** X3: [setShaderParts] hands the parts to [replace], which reads the [$]
    patterns in them.  On templates in which every section has one
    placeholder that the chain of [replace] calls finds in its turn, parts
    in which every [$] of a text is written twice arrive as those texts,
    with single [$], at the placeholders of their keys, in both shaders.
    A shader whose template holds none of the markers of its sections is
    the template itself, whatever the parts are: they are dropped without
    an error. *)
Theorem setShaderParts_inserts
  (fragmentTemplate vertexTemplate : string)
  (parts : gmap EffectShaderSection (option string))
  (this : EffectMaterial) :
  let this' :=
    setShaderParts marker fragmentTemplate vertexTemplate parts this in
  (∀ (text : EffectShaderSection → string)
     (fragmentLayout vertexLayout : list Piece),
     fragmentTemplate = fill marker fragmentLayout →
     vertexTemplate = fill marker vertexLayout →
     (∀ key, Placeholder key ∈ fragmentLayout →
        key ∈ [FRAGMENT_MAIN_IMAGE; FRAGMENT_MAIN_GDATA; FRAGMENT_MAIN_UV;
               FRAGMENT_HEAD; FRAGMENT_HEAD_GBUFFER]) →
     (∀ key, Placeholder key ∈ vertexLayout →
        key ∈ [VERTEX_MAIN_SUPPORT; VERTEX_HEAD]) →
     (∀ key, part parts key = escape_dollars (text key)) →
     well_placed marker text []
       [FRAGMENT_MAIN_IMAGE; FRAGMENT_MAIN_GDATA; FRAGMENT_MAIN_UV;
        FRAGMENT_HEAD; FRAGMENT_HEAD_GBUFFER] fragmentLayout →
     well_placed marker text [] [VERTEX_MAIN_SUPPORT; VERTEX_HEAD]
       vertexLayout →
     fragmentShader this' = fill text fragmentLayout ∧
     vertexShader this' = fill text vertexLayout) ∧
  ((∀ key, key ∈ [FRAGMENT_MAIN_IMAGE; FRAGMENT_MAIN_GDATA; FRAGMENT_MAIN_UV;
                  FRAGMENT_HEAD; FRAGMENT_HEAD_GBUFFER] →
      ¬ occurs (marker key) fragmentTemplate) →
   fragmentShader this' = fragmentTemplate) ∧
  ((∀ key, key ∈ [VERTEX_MAIN_SUPPORT; VERTEX_HEAD] →
      ¬ occurs (marker key) vertexTemplate) →
   vertexShader this' = vertexTemplate).
Proof.
  split; [|split].
  - intros text fragmentLayout vertexLayout Hf Hv Hfkeys Hvkeys Hparts
      Hfp Hvp.
    by apply setShaderParts_fills.
  - intros Hno. exact (chain_absent parts fragment_sections _ Hno).
  - intros Hno. exact (chain_absent parts vertex_sections _ Hno).
Qed.

End Templates.

Lemma setShaderParts_inserts_witness :
  let parts : gmap EffectShaderSection (option string) :=
    <[FRAGMENT_MAIN_IMAGE := Some "c = c * $$GAIN;"]>
      (<[VERTEX_HEAD := Some "#define PRICE $$1"]> ∅) in
  let text (key : EffectShaderSection) : string :=
    match key with
    | FRAGMENT_MAIN_IMAGE => "c = c * $GAIN;"
    | VERTEX_HEAD => "#define PRICE $1"
    | _ => EmptyString
    end in
  let this' :=
    EffectMaterial.setShaderParts example_marker example_fragment_template
      example_vertex_template parts plain_material in
  fragmentShader this' = fill text example_fragment_layout ∧
  vertexShader this' = fill text example_vertex_layout.
Proof.
  refine (proj1 (setShaderParts_inserts example_marker
                   example_fragment_template example_vertex_template
                   _ plain_material)
            _ example_fragment_layout example_vertex_layout eq_refl eq_refl
            example_fragment_keys example_vertex_keys _ _ _).
  - intros []; vm_compute; reflexivity.
  - well_placed_step [Placeholder FRAGMENT_HEAD; Text " ";
                      Placeholder FRAGMENT_HEAD_GBUFFER;
                      Text " void main() { "; Placeholder FRAGMENT_MAIN_UV;
                      Text " "; Placeholder FRAGMENT_MAIN_GDATA; Text " "]
                     [Text " }"].
    well_placed_step [Placeholder FRAGMENT_HEAD; Text " ";
                      Placeholder FRAGMENT_HEAD_GBUFFER;
                      Text " void main() { "; Placeholder FRAGMENT_MAIN_UV;
                      Text " "]
                     [Text " "; Placeholder FRAGMENT_MAIN_IMAGE; Text " }"].
    well_placed_step [Placeholder FRAGMENT_HEAD; Text " ";
                      Placeholder FRAGMENT_HEAD_GBUFFER;
                      Text " void main() { "]
                     [Text " "; Placeholder FRAGMENT_MAIN_GDATA; Text " ";
                      Placeholder FRAGMENT_MAIN_IMAGE; Text " }"].
    well_placed_step (@nil Piece)
                     [Text " "; Placeholder FRAGMENT_HEAD_GBUFFER;
                      Text " void main() { "; Placeholder FRAGMENT_MAIN_UV;
                      Text " "; Placeholder FRAGMENT_MAIN_GDATA; Text " ";
                      Placeholder FRAGMENT_MAIN_IMAGE; Text " }"].
    well_placed_step [Placeholder FRAGMENT_HEAD; Text " "]
                     [Text " void main() { "; Placeholder FRAGMENT_MAIN_UV;
                      Text " "; Placeholder FRAGMENT_MAIN_GDATA; Text " ";
                      Placeholder FRAGMENT_MAIN_IMAGE; Text " }"].
    exact I.
  - well_placed_step [Placeholder VERTEX_HEAD; Text " void main() { "]
                     [Text " }"].
    well_placed_step (@nil Piece)
                     [Text " void main() { "; Placeholder VERTEX_MAIN_SUPPORT;
                      Text " }"].
    exact I.
Defined.

(** The texts of that call. *)
Example escaped_parts_arrive_unescaped :
  let this' :=
    EffectMaterial.setShaderParts example_marker example_fragment_template
      example_vertex_template
      (<[FRAGMENT_MAIN_IMAGE := Some "c = c * $$GAIN;"]>
         (<[VERTEX_HEAD := Some "#define PRICE $$1"]> ∅)) plain_material in
  fragmentShader this' = "  void main() {   c = c * $GAIN; }" ∧
  vertexShader this' = "#define PRICE $1 void main() {  }".
Proof. vm_compute. done. Qed.

(** The chain reads the text it has filled in so far: a part that holds
    the marker of a section whose turn comes later, and that stands before
    the placeholder of that section, is rewritten by the later link, so the
    shader is not the template with each placeholder filled in.  Here the
    head part holds the marker of the G-buffer head. *)
Example setShaderParts_rewrites_inserted_text :
  let parts : gmap EffectShaderSection (option string) :=
    <[FRAGMENT_HEAD := Some "// see $GBUFFER"]>
      (<[FRAGMENT_HEAD_GBUFFER := Some "uniform float x;"]> ∅) in
  let this' :=
    EffectMaterial.setShaderParts example_marker example_fragment_template
      example_vertex_template parts plain_material in
  fill (part parts) example_fragment_layout
    = "// see $GBUFFER uniform float x; void main() {    }" ∧
  fragmentShader this'
    = "// see uniform float x; $GBUFFER void main() {    }".
Proof. vm_compute. done. Qed.

(** What [$] does to a part that uses it unawares: [$&] brings the marker
    back and [$$] loses a character. *)
Example setShaderParts_dollar :
  replace_section (λ _, "$UV") {[ FRAGMENT_MAIN_UV := Some "a$&b$$c" ]}
    "{ $UV }" FRAGMENT_MAIN_UV = "{ a$UVb$c }".
Proof. vm_compute. done. Qed.

Lemma set_uniform_value_effect (key : string) (v : UniformValue)
  (this : EffectMaterial) :
  (uniforms this !! key = None →
   set_uniform_value key v this = None ∧ uniform_value key this = None) ∧
  (∀ object, uniforms this !! key = Some object →
   ∃ this', set_uniform_value key v this = Some this' ∧
     uniforms this' = uniforms this ∧
     (∀ o, values this' o = if decide (o = object) then v else values this o) ∧
     version this' = version this ∧ defines this' = defines this ∧
     fragmentShader this' = fragmentShader this ∧
     vertexShader this' = vertexShader this).
Proof.
  unfold set_uniform_value, uniform_value. split.
  - by intros ->.
  - intros object ->. eexists. split; [done|]. done.
Qed.

Lemma set_uniform_value_reads (key : string) (v : UniformValue)
  (this : EffectMaterial) (object : UniformRef) :
  uniforms this !! key = Some object →
  ∃ this', set_uniform_value key v this = Some this' ∧
    uniforms this' = uniforms this ∧
    (∀ key', uniform_value key' this' =
       if decide (uniforms this !! key' = Some object) then Some v
       else uniform_value key' this) ∧
    version this' = version this ∧ defines this' = defines this ∧
    fragmentShader this' = fragmentShader this ∧
    vertexShader this' = vertexShader this.
Proof.
  intros Hkey.
  destruct (proj2 (set_uniform_value_effect key v this) object Hkey)
    as (this' & Hset & Hu & Hval & Hrest).
  exists this'. split; [done|]. split; [done|]. split; [|done].
  intros key'. unfold uniform_value. rewrite Hu.
  destruct (uniforms this !! key') as [o|] eqn:Ho; simpl.
  - rewrite Hval. destruct (decide (o = object)) as [->|Hne].
    + by rewrite decide_True.
    + rewrite decide_False; [done|]. by intros [= ?].
  - done.
Qed.

(** X4: the [time] and [gBuffer] setters write the [value] of the
    [Uniform] object that their name holds, and nothing else: the getter
    then returns what was written, and so does every other name that
    holds the same object (as [gBuffer] does after a [setUniforms] that
    put one object under both names), while the names that hold other
    objects read what they read before; the names, the macros and the
    shader texts are as before, and the recompilation counter is not
    raised.  On a material without the uniform both accessors end in a
    [TypeError]. *)
Theorem time_and_gBuffer_accessors (this : EffectMaterial) (v : Q)
  (g : UniformValue) :
  (uniforms this !! "time" = None →
   set_time v this = None ∧ time this = None) ∧
  (uniforms this !! "gBuffer" = None →
   set_gBuffer g this = None ∧ gBuffer this = None) ∧
  (∀ object, uniforms this !! "time" = Some object →
   ∃ this', set_time v this = Some this' ∧
     time this' = Some (VNumber v) ∧
     (∀ key, uniform_value key this' =
        if decide (uniforms this !! key = Some object) then Some (VNumber v)
        else uniform_value key this) ∧
     (uniforms this !! "gBuffer" = Some object →
      gBuffer this' = Some (VNumber v)) ∧
     (uniforms this !! "gBuffer" ≠ Some object →
      gBuffer this' = gBuffer this) ∧
     uniforms this' = uniforms this ∧
     version this' = version this ∧ defines this' = defines this ∧
     fragmentShader this' = fragmentShader this ∧
     vertexShader this' = vertexShader this) ∧
  (∀ object, uniforms this !! "gBuffer" = Some object →
   ∃ this', set_gBuffer g this = Some this' ∧
     gBuffer this' = Some g ∧
     (∀ key, uniform_value key this' =
        if decide (uniforms this !! key = Some object) then Some g
        else uniform_value key this) ∧
     (uniforms this !! "time" = Some object → time this' = Some g) ∧
     (uniforms this !! "time" ≠ Some object → time this' = time this) ∧
     uniforms this' = uniforms this ∧
     version this' = version this ∧ defines this' = defines this ∧
     fragmentShader this' = fragmentShader this ∧
     vertexShader this' = vertexShader this).
Proof.
  unfold set_time, set_gBuffer, time, gBuffer.
  split; [apply set_uniform_value_effect|].
  split; [apply set_uniform_value_effect|]. split.
  - intros object Hkey.
    destruct (set_uniform_value_reads "time" (VNumber v) this object Hkey)
      as (this' & Hset & Hu & Hread & Hrest).
    exists this'. split; [done|].
    split; [by rewrite Hread, decide_True|]. split; [done|].
    split; [by intros Hsame; rewrite Hread, decide_True|].
    split; [by intros Hother; rewrite Hread, decide_False|]. done.
  - intros object Hkey.
    destruct (set_uniform_value_reads "gBuffer" g this object Hkey)
      as (this' & Hset & Hu & Hread & Hrest).
    exists this'. split; [done|].
    split; [by rewrite Hread, decide_True|]. split; [done|].
    split; [by intros Hsame; rewrite Hread, decide_True|].
    split; [by intros Hother; rewrite Hread, decide_False|]. done.
Qed.

(** One object under both names: what is written to [time] is read from
    [gBuffer] too.  With the two objects of the constructor it is not. *)
Example one_object_under_two_names :
  let shared := setUniforms [("time", 5); ("gBuffer", 5)] plain_material in
  (set_time 3 shared ≫= time) = Some (VNumber 3) ∧
  (set_time 3 shared ≫= gBuffer) = Some (VNumber 3) ∧
  (set_time 3 plain_material ≫= time) = Some (VNumber 3) ∧
  (set_time 3 plain_material ≫= gBuffer) = Some VNull.
Proof. vm_compute. done. Qed.

Section Runs.

Variable marker : EffectShaderSection → string.
Variable fragmentTemplate vertexTemplate : string.

Local Abbreviation call := (call marker fragmentTemplate vertexTemplate).
Local Abbreviation calls := (calls marker fragmentTemplate vertexTemplate).

Lemma grows_refl (this : EffectMaterial) : grows this this.
Proof. by repeat split. Qed.

Lemma grows_trans (a b c : EffectMaterial) :
  grows a b → grows b c → grows a c.
Proof.
  intros (Hu & Hd & Hv) (Hu' & Hd' & Hv'). split; [|split].
  - intros key ?. by apply Hu', Hu.
  - intros key ? ?. by apply Hd', Hd.
  - lia.
Qed.

Lemma call_grows (c : Call) (this this' : EffectMaterial) :
  call c this = Some this' → grows this this'.
Proof.
  destruct c as [g|b|v|parts|entries|entries]; simpl.
  - intros Hset. destruct (uniforms this !! "gBuffer") as [u|] eqn:Hu.
    + destruct (proj2 (set_uniform_value_effect "gBuffer" g this) u Hu)
        as (t & Hset' & Hu' & _ & Hv & Hd & _).
      unfold set_gBuffer in Hset. rewrite Hset' in Hset.
      injection Hset as <-. split; [|split].
      * intros key Hsome. by rewrite Hu'.
      * intros key _ Hsome. by rewrite Hd.
      * by rewrite Hv.
    + unfold set_gBuffer, set_uniform_value in Hset. by rewrite Hu in Hset.
  - intros [= <-]. unfold set_colorSpaceConversion.
    destruct (negb (eqb (colorSpaceConversion this) b)); [|apply grows_refl].
    destruct b; (split; [done|split; [|simpl; lia]]); intros key Hkey Hsome;
      simpl.
    + by rewrite lookup_insert_ne.
    + by rewrite lookup_delete_ne.
  - intros Hset. destruct (uniforms this !! "time") as [u|] eqn:Hu.
    + destruct (proj2 (set_uniform_value_effect "time" (VNumber v) this) u Hu)
        as (t & Hset' & Hu' & _ & Hv & Hd & _).
      unfold set_time in Hset. rewrite Hset' in Hset.
      injection Hset as <-. split; [|split].
      * intros key Hsome. by rewrite Hu'.
      * intros key _ Hsome. by rewrite Hd.
      * by rewrite Hv.
    + unfold set_time, set_uniform_value in Hset. by rewrite Hu in Hset.
  - intros [= <-]. split; [done|]. split; [done|]. simpl. lia.
  - intros [= <-]. unfold setDefines.
    destruct (fold_defines_frame entries this) as (Hv & Hu & _).
    split; [|split]; simpl.
    + intros key Hsome. by rewrite Hu.
    + intros key _ Hsome. rewrite fold_defines_lookup.
      by destruct (lookup_last key entries).
    + rewrite Hv. lia.
  - intros [= <-].
    destruct (setUniforms_frame entries this) as (Hv & Hd & _).
    split; [|split].
    + intros key Hsome. rewrite setUniforms_lookup.
      by destruct (lookup_last key entries).
    + intros key _ Hsome. by rewrite Hd.
    + by rewrite Hv.
Qed.

(** X5: no method of the material takes a uniform away, and the only
    macro that a method takes away is [COLOR_SPACE_CONVERSION] (by the
    assignment of [false]); the recompilation counter never goes down.  A
    material that has the uniforms [time] and [gBuffer] therefore keeps
    them through every sequence of calls, and none of the calls ends in an
    error. *)
Theorem calls_keep_uniforms (cs : list Call) (this : EffectMaterial) :
  is_Some (uniforms this !! "time") →
  is_Some (uniforms this !! "gBuffer") →
  ∃ this', calls cs this = Some this' ∧
    (∀ key : string,
       is_Some (uniforms this !! key) → is_Some (uniforms this' !! key)) ∧
    (∀ key : string, key ≠ "COLOR_SPACE_CONVERSION" →
       is_Some (defines this !! key) → is_Some (defines this' !! key)) ∧
    version this ≤ version this'.
Proof.
  revert this. induction cs as [|c cs IH]; intros this Ht Hg.
  - exists this. split; [done|]. apply grows_refl.
  - assert (∃ this1, call c this = Some this1) as [this1 Hcall].
    { destruct c as [g|b|v|parts|entries|entries]; simpl; eauto.
      - destruct Hg as [o Hg].
        destruct (proj2 (set_uniform_value_effect "gBuffer" g this) o Hg)
          as (t & Hset & _). by exists t.
      - destruct Ht as [o Ht].
        destruct (proj2 (set_uniform_value_effect "time" (VNumber v) this)
                    o Ht) as (t & Hset & _). by exists t. }
    pose proof (call_grows c this this1 Hcall) as Hgrow.
    destruct (IH this1) as (this' & Hcalls & Hgrow').
    { by apply Hgrow. }
    { by apply Hgrow. }
    exists this'. split.
    + simpl. rewrite Hcall. simpl. exact Hcalls.
    + exact (grows_trans _ _ _ Hgrow Hgrow').
Qed.

End Runs.

Lemma plain_material_time : is_Some (uniforms plain_material !! "time").
Proof. vm_compute. eauto. Defined.

Lemma plain_material_gBuffer : is_Some (uniforms plain_material !! "gBuffer").
Proof. vm_compute. eauto. Defined.

Lemma calls_keep_uniforms_witness :
  ∃ this',
    calls (λ _, "$X") "$X" "$X"
      [SetTime 2; SetColorSpaceConversion true; SetUniforms []]
      plain_material = Some this' ∧
    (∀ key : string,
       is_Some (uniforms plain_material !! key) →
       is_Some (uniforms this' !! key)) ∧
    (∀ key : string, key ≠ "COLOR_SPACE_CONVERSION" →
       is_Some (defines plain_material !! key) →
       is_Some (defines this' !! key)) ∧
    version plain_material ≤ version this'.
Proof.
  exact (calls_keep_uniforms (λ _, "$X") "$X" "$X"
           [SetTime 2; SetColorSpaceConversion true; SetUniforms []]
           plain_material plain_material_time plain_material_gBuffer).
Defined.

End EffectMaterialMore.

(** ** [ScanlineEffect]: construction, the macro and the change signal *)

Section ScanlineEffectMore.

Import ScanlineEffect.

Lemma set_scrollSpeed_frame (v : Q) (this : ScanlineEffect) :
  declared this →
  ∃ this', set_scrollSpeed v this = Some this' ∧
    d this' = d this ∧
    resolution (super this') = resolution (super this) ∧
    fragmentShader (super this') = fragmentShader (super this) ∧
    name (super this') = name (super this) ∧
    (∀ key, key ≠ "scrollSpeed" →
       uniforms (super this') !! key = uniforms (super this) !! key) ∧
    (∀ key, key ≠ "SCROLL" →
       defines (super this') !! key = defines (super this) !! key).
Proof.
  intros Hd. rewrite (set_scrollSpeed_unfold _ _ (proj2 Hd)).
  eexists. split; [done|].
  destruct (number_eq v 0), (has_SCROLL this); simpl;
    repeat split; try done;
    intros key Hkey; rewrite ?lookup_insert_ne, ?lookup_delete_ne by done;
    done.
Qed.

Lemma updateCount_frame (h : Z) (this : ScanlineEffect) :
  declared this →
  ∃ this', updateCount h this = Some this' ∧
    uniforms (super this') =
      <["count" :=
          mkUniform
            (VNumber
               (inject_Z (Math_round (number_mul (inject_Z h) (d this)))))]>
        (uniforms (super this)) ∧
    d this' = d this ∧ defines (super this') = defines (super this) ∧
    changed (super this') = changed (super this) ∧
    resolution (super this') = resolution (super this).
Proof.
  intros Hd. rewrite (updateCount_unfold _ _ (proj1 Hd)). by eexists.
Qed.

(** What a call other than an assignment to [scrollSpeed] leaves alone. *)
Lemma call_frame (c : Call) (this : ScanlineEffect) :
  declared this → (∀ v, c ≠ SetScrollSpeed v) →
  ∃ this', call c this = Some this' ∧
    defines (super this') = defines (super this) ∧
    changed (super this') = changed (super this) ∧
    uniforms (super this') !! "scrollSpeed"
      = uniforms (super this) !! "scrollSpeed".
Proof.
  intros Hd Hc.
  assert (∀ h (e : ScanlineEffect), declared e →
            ∃ e', updateCount h e = Some e' ∧
              defines (super e') = defines (super e) ∧
              changed (super e') = changed (super e) ∧
              uniforms (super e') !! "scrollSpeed"
                = uniforms (super e) !! "scrollSpeed") as Hupd.
  { intros h e He.
    destruct (updateCount_frame h e He) as (e' & Hu & Hun & _ & Hdef & Hch & _).
    exists e'. split; [done|]. split; [done|]. split; [done|].
    by rewrite Hun, lookup_insert_ne. }
  destruct c as [v|v|w h|w h|s]; simpl.
  - unfold set_density. exact (Hupd _ (set_d v this) Hd).
  - by destruct (Hc v).
  - unfold setSize. by apply Hupd.
  - unfold resolution_setBaseSize, onResolutionChange.
    destruct (Resolution.changes_baseSize _ _ _); [|by exists this].
    exact (Hupd _ (with_super (set_resolution _) this) Hd).
  - unfold resolution_setScale, onResolutionChange.
    destruct (Resolution.changes_scale _ _); [|by exists this].
    exact (Hupd _ (with_super (set_resolution _) this) Hd).
Qed.

Lemma call_in_step (c : Call) (this : ScanlineEffect) :
  declared this → in_step this →
  ∃ this', call c this = Some this' ∧ declared this' ∧ in_step this'.
Proof.
  intros Hd (v0 & Hspeed & Hmacro).
  destruct (call_declared c this Hd) as (this' & Hcall & Hd').
  exists this'. split; [done|]. split; [done|].
  assert ((∃ v, c = SetScrollSpeed v) ∨ ∀ v, c ≠ SetScrollSpeed v) as [[v ->]|Hno].
  { destruct c; eauto. }
  - simpl in Hcall.
    destruct (set_scrollSpeed_effect v this Hd)
      as (e & He & _ & Hs & Hm & _).
    rewrite He in Hcall. injection Hcall as <-. by exists v.
  - destruct (call_frame c this Hd Hno) as (e & He & Hdef & _ & Hu).
    rewrite He in Hcall. injection Hcall as <-. exists v0. split.
    + unfold scrollSpeed, uniform_value in *. by rewrite Hu.
    + unfold has_SCROLL in *. by rewrite Hdef.
Qed.

Lemma calls_in_step (cs : list Call) (this : ScanlineEffect) :
  declared this → in_step this →
  ∃ this', calls cs this = Some this' ∧ declared this' ∧ in_step this'.
Proof.
  revert this. induction cs as [|c cs IH]; intros this Hd Hs.
  - by exists this.
  - destruct (call_in_step c this Hd Hs) as (this1 & Hcall & Hd1 & Hs1).
    destruct (IH this1 Hd1 Hs1) as (this' & Hcalls & Hdt & Hst).
    exists this'. simpl. rewrite Hcall. by simpl.
Qed.

(** X6: the constructor and every method after it succeed, and they keep
    the macro in step with the uniform: on an effect made by the
    constructor, after any sequence of calls, [SCROLL] is declared exactly
    when the scroll speed is not 0, and the uniforms [count] and
    [scrollSpeed] are there. *)
Theorem effect_stays_in_step (options : ScanlineEffectOptions)
  (shader : string) (base : Effect) (cs : list Call) :
  ∃ this0 this,
    constructor options shader base = Some this0 ∧
    calls cs this0 = Some this ∧ declared this ∧ in_step this.
Proof.
  unfold constructor.
  set (e := {| super := _; d := _ |}).
  assert (declared e) as Hd.
  { split; simpl.
    - rewrite lookup_insert_ne by done. by rewrite lookup_insert_eq.
    - by rewrite lookup_insert_eq. }
  destruct (set_scrollSpeed_effect (default 0%Q (opt_scrollSpeed options)) e Hd)
    as (this0 & Hset & Hd0 & Hs0 & Hm0 & _).
  assert (in_step this0) as Hstep0 by (by eexists).
  destruct (calls_in_step cs this0 Hd0 Hstep0) as (this & Hcalls & Hdt & Hst).
  by exists this0, this.
Qed.

Lemma call_signals (c : Call) (this : ScanlineEffect) :
  declared this →
  ∃ this', call c this = Some this' ∧ declared this' ∧
    changed (super this') = changed (super this) + signals c this ∧
    (∀ key, key ≠ "SCROLL" →
       defines (super this') !! key = defines (super this) !! key) ∧
    ((∀ v, c ≠ SetScrollSpeed v) →
     defines (super this') = defines (super this)).
Proof.
  intros Hd.
  destruct (call_declared c this Hd) as (this' & Hcall & Hd').
  exists this'. split; [done|]. split; [done|].
  assert ((∃ v, c = SetScrollSpeed v) ∨ ∀ v, c ≠ SetScrollSpeed v)
    as [[v ->]|Hno].
  { destruct c; eauto. }
  - simpl in *.
    destruct (set_scrollSpeed_effect v this Hd)
      as (e & He & _ & _ & _ & Hch & _).
    destruct (set_scrollSpeed_frame v this Hd)
      as (e' & He' & _ & _ & _ & _ & _ & Hdef).
    rewrite He in Hcall, He'. injection Hcall as <-. injection He' as <-.
    split; [|split; [done|]].
    + rewrite Hch. destruct (eqb _ _); lia.
    + intros Hc. by destruct (Hc v).
  - destruct (call_frame c this Hd Hno) as (e & He & Hdef & Hch & _).
    rewrite He in Hcall. injection Hcall as <-.
    split; [|split; [|done]].
    + rewrite Hch. destruct c as [v|v|W H|W H|k]; simpl; try lia.
      by destruct (Hno v).
    + intros key _. by rewrite Hdef.
Qed.

(** X7: the change signal is sent when [SCROLL] is added or removed and at
    no other time: an assignment to [scrollSpeed] sends it once when it
    turns a zero speed into a nonzero one or back, and not at all
    otherwise; assignments to [density], [setSize] and changes of the
    resolution never send it and leave the macros alone.  Over a sequence
    of calls there are at most as many signals as assignments to
    [scrollSpeed], and no macro but [SCROLL] ever changes. *)
Theorem change_signal_accounting (cs : list Call) (this : ScanlineEffect) :
  declared this →
  (∀ c, ∃ this', call c this = Some this' ∧
     changed (super this') = changed (super this) + signals c this ∧
     ((∀ v, c ≠ SetScrollSpeed v) →
      defines (super this') = defines (super this))) ∧
  ∃ this', calls cs this = Some this' ∧
    changed (super this) ≤ changed (super this') ∧
    changed (super this') ≤ changed (super this) + scrollSpeed_calls cs ∧
    ∀ key, key ≠ "SCROLL" →
      defines (super this') !! key = defines (super this) !! key.
Proof.
  intros Hd. split.
  - intros c. destruct (call_signals c this Hd)
      as (this' & Hcall & _ & Hch & _ & Hdef).
    by exists this'.
  - revert this Hd. induction cs as [|c cs IH]; intros this Hd.
    + exists this. split; [done|]. unfold scrollSpeed_calls. simpl.
      split; [lia|]. split; [lia|done].
    + destruct (call_signals c this Hd)
        as (this1 & Hcall & Hd1 & Hch & Hdef & _).
      destruct (IH this1 Hd1) as (this' & Hcalls & Hlo & Hhi & Hdef').
      exists this'. split; [simpl; rewrite Hcall; by simpl|].
      assert (signals c this + scrollSpeed_calls cs ≤
              scrollSpeed_calls (c :: cs)) as Hone.
      { unfold scrollSpeed_calls.
        destruct c; simpl; try lia. destruct (eqb _ _); lia. }
      split; [lia|]. split; [lia|].
      intros key Hkey. by rewrite Hdef', Hdef.
Qed.

Lemma change_signal_accounting_witness :
  ∃ this',
    calls [SetScrollSpeed (1 # 100); SetDensity 2; SetScrollSpeed (1 # 50);
           ResolutionBaseSize 800 600; SetScrollSpeed 0] default_effect
      = Some this' ∧
    changed (super default_effect) ≤ changed (super this') ∧
    changed (super this') ≤
      changed (super default_effect) +
      scrollSpeed_calls
        [SetScrollSpeed (1 # 100); SetDensity 2; SetScrollSpeed (1 # 50);
         ResolutionBaseSize 800 600; SetScrollSpeed 0] ∧
    ∀ key, key ≠ "SCROLL" →
      defines (super this') !! key = defines (super default_effect) !! key.
Proof.
  exact (proj2 (change_signal_accounting
                  [SetScrollSpeed (1 # 100); SetDensity 2;
                   SetScrollSpeed (1 # 50); ResolutionBaseSize 800 600;
                   SetScrollSpeed 0] default_effect default_effect_declared)).
Defined.

(** In that run the signal is sent twice, for three assignments. *)
Example two_signals_for_three_assignments :
  (λ this, changed (super this)) <$>
    calls [SetScrollSpeed (1 # 100); SetDensity 2; SetScrollSpeed (1 # 50);
           ResolutionBaseSize 800 600; SetScrollSpeed 0] default_effect
  = Some 2.
Proof. vm_compute. done. Qed.

(** X8: the constructor stores the density it is given, or 1.25, and the
    scroll speed it is given, or 0, and declares [SCROLL] when that speed
    is not 0; it leaves the [count] uniform at 0 whatever the density and
    the size of the resolution are, so that the count is first computed by
    the first change of the resolution or of the density.  It keeps the
    resolution, the other uniforms and the other macros of the base
    object. *)
Theorem constructor_spec (options : ScanlineEffectOptions) (shader : string)
  (base : Effect) :
  ∃ this,
    constructor options shader base = Some this ∧
    density this = default (5 # 4)%Q (opt_density options) ∧
    scrollSpeed this =
      Some (VNumber (default 0%Q (opt_scrollSpeed options))) ∧
    count this = Some (VNumber 0) ∧
    has_SCROLL this =
      negb (number_eq (default 0%Q (opt_scrollSpeed options)) 0) ∧
    fragmentShader (super this) = shader ∧
    resolution (super this) = resolution base ∧
    (∀ key, key ≠ "count" → key ≠ "scrollSpeed" →
       uniforms (super this) !! key = uniforms base !! key) ∧
    (∀ key, key ≠ "SCROLL" →
       defines (super this) !! key = defines base !! key).
Proof.
  unfold constructor.
  set (e := {| super := _; d := _ |}).
  assert (declared e) as Hd.
  { split; simpl.
    - rewrite lookup_insert_ne by done. by rewrite lookup_insert_eq.
    - by rewrite lookup_insert_eq. }
  destruct (set_scrollSpeed_effect (default 0%Q (opt_scrollSpeed options)) e Hd)
    as (this & Hset & _ & Hs & Hm & _).
  destruct (set_scrollSpeed_frame (default 0%Q (opt_scrollSpeed options)) e Hd)
    as (this' & Hset' & Hdd & Hr & Hf & _ & Hu & Hdef).
  rewrite Hset in Hset'. injection Hset' as <-.
  exists this. split; [done|]. split; [done|]. split; [done|].
  split; [|split; [done|split; [done|split; [done|split]]]].
  - unfold count, uniform_value. rewrite Hu by done. simpl.
    rewrite lookup_insert_ne by done. by rewrite lookup_insert_eq.
  - intros key Hc Hss. rewrite Hu by done. simpl.
    by rewrite !lookup_insert_ne.
  - intros key Hkey. by rewrite Hdef.
Qed.

End ScanlineEffectMore.

(** ** More on [RenderPipeline] *)

Section RenderPipelineMore.

Import RenderPipeline.

Lemma world_eq (a b : World) :
  renderers a = renderers b → passes a = passes b →
  pipelines a = pipelines b → events a = events b → a = b.
Proof. destruct a, b; simpl. by intros -> -> -> ->. Qed.

Lemma indexOf_first (x : nat) (l1 l2 : list nat) :
  x ∉ l1 → indexOf x (l1 ++ x :: l2) = Some (length l1).
Proof.
  induction l1 as [|y l1 IH]; intros Hnin; simpl.
  - by rewrite decide_True.
  - apply not_elem_of_cons in Hnin as [Hne Hnin].
    rewrite decide_False by done. by rewrite IH.
Qed.

Lemma filter_all (P : nat → Prop) `{!∀ y, Decision (P y)} (l : list nat) :
  (∀ y, y ∈ l → P y) → filter P l = l.
Proof.
  induction l as [|y l IH]; intros Hall; [done|].
  rewrite filter_cons, decide_True by (apply Hall; by left).
  f_equal. apply IH. intros z Hz. apply Hall. by right.
Qed.

Lemma NoDup_delete_filter (l : list nat) (i x : nat) :
  NoDup l → l !! i = Some x → delete i l = filter (λ y, y ≠ x) l.
Proof.
  revert i. induction l as [|y l IH]; intros i Hnd Hi; [done|].
  apply NoDup_cons in Hnd as [Hy Hnd].
  destruct i as [|i]; simpl in Hi.
  - injection Hi as ->. rewrite filter_cons, decide_False by (by intros ?).
    simpl. symmetry. apply filter_all. by intros z Hz ->.
  - rewrite filter_cons, decide_True.
    + simpl. f_equal. by apply IH.
    + intros ->. apply Hy. by apply list_elem_of_lookup_2 in Hi.
Qed.

Lemma foldl_emit_events (f : nat → Event) (l : list nat) (w : World) :
  events (foldl (λ w x, emit (f x) w) w l) = events w ++ (f <$> l).
Proof.
  revert w. induction l as [|x l IH]; intros w; simpl.
  - by rewrite app_nil_r.
  - rewrite IH. simpl. by rewrite <- app_assoc.
Qed.

Lemma removeAllPasses_frame (pl : nat) (w : World) (this : RenderPipeline) :
  pipelines w !! pl = Some this →
  renderers (removeAllPasses pl w) = renderers w ∧
  events (removeAllPasses pl w) = events w ++ [IOManagerUpdate].
Proof.
  intros Hpl. unfold removeAllPasses. rewrite Hpl. simpl.
  destruct (foldl_update_pass_frame
              (λ p, Pass.set_timer None (Pass.set_renderer None p))
              (_passes this) w) as (Hr & _ & He).
  unfold unregisterPass. by rewrite Hr, He.
Qed.

Lemma removeAllPasses_empty (pl : nat) (w : World) (this : RenderPipeline) :
  pipelines w !! pl = Some this → _passes this = [] →
  removeAllPasses pl w = emit IOManagerUpdate w.
Proof.
  intros Hpl Hnil. unfold removeAllPasses. rewrite Hpl, Hnil. simpl.
  unfold ioManager_update. f_equal. apply world_eq; try done. simpl.
  rewrite (alter_as_insert _ _ _ _ Hpl). apply insert_id.
  rewrite Hpl. f_equal. destruct this. simpl in *. by subst.
Qed.

(** X9: [removePass(x)] on a pipeline that does not list [x] does nothing
    at all: no handle is cleared and the IO manager is not updated.  On a
    pipeline that lists [x] it takes out the first occurrence of [x] and
    keeps the order of the others, sets the renderer and the timer of [x]
    to [null], leaves every other pass and the renderers alone, and
    updates the IO manager once. *)
Theorem removePass_spec (pl x : nat) (w : World) (this : RenderPipeline) :
  pipelines w !! pl = Some this →
  (x ∉ _passes this → removePass pl x w = w) ∧
  (∀ l1 l2, _passes this = l1 ++ x :: l2 → x ∉ l1 →
     removePass pl x w =
     {| renderers := renderers w;
        passes :=
          alter (λ p, Pass.set_timer None (Pass.set_renderer None p)) x
            (passes w);
        pipelines := <[pl := set__passes (l1 ++ l2) this]> (pipelines w);
        events := events w ++ [IOManagerUpdate] |}).
Proof.
  intros Hpl. split.
  - intros Hnin. unfold removePass.
    by rewrite Hpl, (proj2 (indexOf_None _ _) Hnin).
  - intros l1 l2 Hl Hnin. unfold removePass.
    rewrite Hpl, Hl, (indexOf_first _ _ _ Hnin), drop_app_length. simpl.
    apply world_eq; try done. simpl.
    rewrite (alter_as_insert _ _ _ _ Hpl). by rewrite Hl, delete_middle.
Qed.

(** X10: [removeAllPasses()] empties the pass list, sets the renderer and
    the timer of every pass that was listed to [null] and leaves the other
    passes and the renderers alone; it updates the IO manager once, also
    when the list was empty already. *)
Theorem removeAllPasses_spec (pl : nat) (w : World) (this : RenderPipeline) :
  pipelines w !! pl = Some this →
  let w' := removeAllPasses pl w in
  renderers w' = renderers w ∧
  pipelines w' = <[pl := set__passes [] this]> (pipelines w) ∧
  events w' = events w ++ [IOManagerUpdate] ∧
  (∀ y, passes w' !! y =
        if decide (y ∈ _passes this)
        then (λ p, Pass.set_timer None (Pass.set_renderer None p))
               <$> passes w !! y
        else passes w !! y) ∧
  removeAllPasses pl w' = emit IOManagerUpdate w'.
Proof.
  intros Hpl w'.
  destruct (removeAllPasses_frame pl w this Hpl) as [Hr He].
  destruct (removeAllPasses_effect pl w this Hpl) as [Hpls Hps].
  rewrite (alter_as_insert _ _ _ _ Hpl) in Hpls.
  split; [done|]. split; [done|]. split; [done|]. split; [done|].
  apply (removeAllPasses_empty pl w' (set__passes [] this)); [|done].
  unfold w'. by rewrite Hpls, lookup_insert_eq.
Qed.

(** X11: [dispose()] takes the pipeline out of the IO manager, then
    disposes the listed passes in the order of the list, then removes them
    all (one update of the IO manager), then disposes the timer.  The
    renderer of the pipeline stays: a second [dispose()] disposes no pass
    but repeats the other calls, and [render()] on a disposed pipeline
    that had a renderer still updates the timer and renders no pass. *)
Theorem dispose_spec (pl : nat) (w : World) (this : RenderPipeline) :
  pipelines w !! pl = Some this →
  let w' := dispose pl w in
  renderers w' = renderers w ∧
  pipelines w' = <[pl := set__passes [] this]> (pipelines w) ∧
  events w' =
    events w ++ IOManagerRemovePipeline pl ::
      (PassDispose <$> _passes this) ++ [IOManagerUpdate; TimerDispose pl] ∧
  (∀ y, passes w' !! y =
        if decide (y ∈ _passes this)
        then (λ p, Pass.set_timer None (Pass.set_renderer None p))
               <$> passes w !! y
        else passes w !! y) ∧
  events (dispose pl w') =
    events w' ++
      [IOManagerRemovePipeline pl; IOManagerUpdate; TimerDispose pl] ∧
  (∀ timestamp, is_Some (_renderer this) →
     render pl timestamp w' = emit (TimerUpdate pl timestamp) w').
Proof.
  intros Hpl w'.
  destruct (dispose_effect pl w this Hpl) as [Hpls Hps].
  rewrite (alter_as_insert _ _ _ _ Hpl) in Hpls.
  assert (∀ v t, pipelines v !! pl = Some t →
            renderers (dispose pl v) = renderers v ∧
            events (dispose pl v) =
              events v ++ IOManagerRemovePipeline pl ::
                (PassDispose <$> _passes t) ++
                [IOManagerUpdate; TimerDispose pl]) as Hshape.
  { intros v t Hv. unfold dispose. rewrite Hv.
    set (v2 := foldl (λ w x, emit (PassDispose x) w)
                 (emit (IOManagerRemovePipeline pl) v) (_passes t)).
    destruct (foldl_emit_frame PassDispose (_passes t)
                (emit (IOManagerRemovePipeline pl) v)) as (Hr2 & _ & Hpls2).
    fold v2 in Hr2, Hpls2. simpl in Hr2, Hpls2.
    assert (pipelines v2 !! pl = Some t) as Hv2 by (by rewrite Hpls2).
    destruct (removeAllPasses_frame pl v2 t Hv2) as [Hr3 He3].
    simpl. rewrite Hr3, He3, Hr2. split; [done|].
    unfold v2. rewrite foldl_emit_events. simpl.
    by rewrite <- !app_assoc. }
  destruct (Hshape w this Hpl) as [Hr He].
  assert (pipelines w' !! pl = Some (set__passes [] this)) as Hpl'.
  { unfold w'. by rewrite Hpls, lookup_insert_eq. }
  split; [done|]. split; [done|]. split; [done|]. split; [done|]. split.
  - by destruct (Hshape w' _ Hpl') as [_ ->].
  - intros timestamp [r Hr']. unfold render. rewrite Hpl'. simpl.
    by rewrite Hr'.
Qed.

Context (device_pixels : Q → Z) (initial_base : Z * Z).

(** X12: assigning [null] to [renderer] stores it in the pipeline and in
    every listed pass and does nothing else: no resize, no update of the
    IO manager, and the passes keep their timer.  After it [render()]
    does nothing, and [setSize()] touches no renderer and no pass: with a
    new base size it logs that the size could not be applied, and with the
    base size that the resolution has already it does not even log. *)
Theorem renderer_detach_spec (pl : nat) (w : World) (this : RenderPipeline) :
  pipelines w !! pl = Some this →
  let w' := set_renderer device_pixels pl None w in
  renderers w' = renderers w ∧ events w' = events w ∧
  pipelines w' = <[pl := set__renderer None this]> (pipelines w) ∧
  (∀ y, passes w' !! y =
        if decide (y ∈ _passes this)
        then Pass.set_renderer None <$> passes w !! y
        else passes w !! y) ∧
  (∀ timestamp, render pl timestamp w' = w') ∧
  ∀ W H style,
    renderers (setSize device_pixels pl W H style w') = renderers w ∧
    passes (setSize device_pixels pl W H style w') = passes w' ∧
    events (setSize device_pixels pl W H style w') =
      events w ++
      (if Resolution.changes_baseSize W H (resolution this)
       then [LogDebug
               "Unable to update the render size because the renderer is null"]
       else []).
Proof.
  intros Hpl w'. unfold w', set_renderer. rewrite Hpl.
  set (w1 := update_pipeline pl (set__renderer None) w).
  set (w2 := foldl (λ w x, update_pass x (Pass.set_renderer None) w) w1
               (_passes this)).
  destruct (foldl_update_pass_frame (Pass.set_renderer None)
              (_passes this) w1) as (Hr2 & Hpls2 & He2).
  fold w2 in Hr2, Hpls2, He2.
  assert (pipelines w2 = <[pl := set__renderer None this]> (pipelines w))
    as Hpls.
  { rewrite Hpls2. unfold w1. simpl. by apply alter_as_insert. }
  split; [done|]. split; [done|]. split; [done|]. split; [|split].
  - intros y. unfold w2. by rewrite foldl_update_pass_lookup.
  - intros timestamp. unfold render. by rewrite Hpls, lookup_insert_eq.
  - intros W H style.
    assert (pipelines w2 !! pl = Some (set__renderer None this)) as Hpl2.
    { by rewrite Hpls, lookup_insert_eq. }
    rewrite (setSize_unfold _ _ _ _ _ _ _ Hpl2). simpl.
    destruct (Resolution.changes_baseSize W H (resolution this)).
    + unfold onResolutionChange. simpl.
      rewrite !lookup_alter_eq, Hpl2. simpl. by rewrite Hr2, He2.
    + simpl. by rewrite Hr2, He2, app_nil_r.
Qed.

(** X13: assigning a renderer to [renderer] stores it in the pipeline and
    in every listed pass, which keeps its timer; the renderer is brought
    to the effective size of the resolution of the pipeline (by one call
    of its [setSize] with the stored [updateStyle], and by none when it
    has that size already), the base size of every listed pass is set to
    the size of the drawing buffer that the renderer then has, and the IO
    manager is updated once, last.  Other renderers and passes are left
    alone. *)
Theorem renderer_attach_spec (pl r : nat) (w : World) (this : RenderPipeline)
  (R : WebGLRenderer.t) :
  pipelines w !! pl = Some this → renderers w !! r = Some R →
  let w' := set_renderer device_pixels pl (Some r) w in
  ∃ R',
    pipelines w' = <[pl := set__renderer (Some r) this]> (pipelines w) ∧
    renderers w' !! r = Some R' ∧
    WebGLRenderer.getSize R' =
      (Resolution.width (resolution this),
       Resolution.height (resolution this)) ∧
    WebGLRenderer.pixelRatio R' = WebGLRenderer.pixelRatio R ∧
    (∀ r', r' ≠ r → renderers w' !! r' = renderers w !! r') ∧
    events w' =
      events w ++
      (if bool_decide (WebGLRenderer.getSize R =
                       (Resolution.width (resolution this),
                        Resolution.height (resolution this)))
       then []
       else [RendererSetSize r (Resolution.width (resolution this))
               (Resolution.height (resolution this)) (updateStyle this)])
      ++ [IOManagerUpdate] ∧
    (∀ x p, x ∈ _passes this → passes w !! x = Some p →
       ∃ p', passes w' !! x = Some p' ∧
         Pass.renderer p' = Some r ∧ Pass.timer p' = Pass.timer p ∧
         Pass.baseSize p' =
           WebGLRenderer.getDrawingBufferSize device_pixels R') ∧
    (∀ y, y ∉ _passes this → passes w' !! y = passes w !! y).
Proof.
  intros Hpl HR w'.
  destruct (set_renderer_attach device_pixels pl r w this R Hpl HR)
    as (Hpls & HR' & Hoth & Hev & Hps).
  destruct (fitted_size this R) as (Hw & Hh & Hpr).
  exists (fitted this R).
  split; [done|]. split; [done|]. split; [|split; [done|split; [done|]]].
  { unfold WebGLRenderer.getSize. by rewrite Hw, Hh. }
  split; [|split].
  - unfold w'. rewrite Hev. f_equal. f_equal.
    unfold resized, WebGLRenderer.getSize.
    destruct (Z.eqb_spec (WebGLRenderer.width R)
                (Resolution.width (resolution this))) as [Ew|Ew];
      destruct (Z.eqb_spec (WebGLRenderer.height R)
                  (Resolution.height (resolution this))) as [Eh|Eh]; simpl.
    + by rewrite bool_decide_eq_true_2 by congruence.
    + by rewrite bool_decide_eq_false_2 by congruence.
    + by rewrite bool_decide_eq_false_2 by congruence.
    + by rewrite bool_decide_eq_false_2 by congruence.
  - intros x p Hin Hx. unfold w'. rewrite Hps, decide_True, Hx by done.
    simpl. eexists. split; [done|]. done.
  - intros y Hnin. unfold w'. by rewrite Hps, decide_False.
Qed.

(** X14: [setSize(W, H)] on a pipeline without a renderer stores the size
    and the [updateStyle] flag in the pipeline and touches no renderer and
    no pass; when the base size is new it logs that the size could not be
    applied, and when the resolution has that base size already it logs
    nothing.  The size is not lost: when a renderer is assigned
    afterwards, that renderer gets the effective size of the stored
    resolution, and the listed passes get the size of its drawing
    buffer. *)
Theorem setSize_deferred (pl : nat) (W H : Z) (style : option bool)
  (w : World) (this : RenderPipeline) :
  pipelines w !! pl = Some this → _renderer this = None →
  let this1 :=
    set_resolution (Resolution.setBaseSize W H (resolution this))
      (set_updateStyle (default true style) this) in
  let w1 := setSize device_pixels pl W H style w in
  w1 =
    {| renderers := renderers w; passes := passes w;
       pipelines := <[pl := this1]> (pipelines w);
       events :=
         events w ++
         (if Resolution.changes_baseSize W H (resolution this)
          then [LogDebug
                  "Unable to update the render size because the renderer is null"]
          else [])
    |} ∧
  ∀ r R, renderers w !! r = Some R →
    let w2 := set_renderer device_pixels pl (Some r) w1 in
    ∃ R', renderers w2 !! r = Some R' ∧
      WebGLRenderer.getSize R' =
        (Math_round (inject_Z W * Resolution.scale (resolution this))%Q,
         Math_round (inject_Z H * Resolution.scale (resolution this))%Q) ∧
      ∀ x p, x ∈ _passes this → passes w !! x = Some p →
        ∃ p', passes w2 !! x = Some p' ∧
          Pass.baseSize p' =
            WebGLRenderer.getDrawingBufferSize device_pixels R'.
Proof.
  intros Hpl Hren this1 w1.
  assert (w1 =
    {| renderers := renderers w; passes := passes w;
       pipelines := <[pl := this1]> (pipelines w);
       events :=
         events w ++
         (if Resolution.changes_baseSize W H (resolution this)
          then [LogDebug
                  "Unable to update the render size because the renderer is null"]
          else [])
    |}) as Hw1.
  { unfold w1. rewrite (setSize_unfold _ _ _ _ _ _ _ Hpl).
    destruct (Resolution.changes_baseSize W H (resolution this)) eqn:Hch.
    - unfold onResolutionChange. simpl.
      rewrite !lookup_alter_eq, Hpl. simpl. rewrite Hren.
      apply world_eq; try done. simpl.
      apply map_eq. intros j. rewrite !lookup_alter, lookup_insert.
      case_decide as Hj; [|done]. by rewrite decide_True, Hpl.
    - apply world_eq; try done; simpl; [|by rewrite app_nil_r].
      rewrite (alter_as_insert _ _ _ _ Hpl). f_equal. unfold this1.
      symmetry. by apply (set_resolution_same W H (set_updateStyle _ this)). }
  split; [done|]. intros r R HR w2.
  assert (pipelines w1 !! pl = Some this1) as Hpl1.
  { rewrite Hw1. simpl. by rewrite lookup_insert_eq. }
  assert (renderers w1 !! r = Some R) as HR1 by (by rewrite Hw1).
  destruct (set_renderer_attach device_pixels pl r w1 this1 R Hpl1 HR1)
    as (_ & HR' & _ & _ & Hps).
  destruct (fitted_size this1 R) as (Hw & Hh & _).
  exists (fitted this1 R). split; [done|]. split.
  - unfold WebGLRenderer.getSize. by rewrite Hw, Hh.
  - intros x p Hin Hx. unfold w2. rewrite Hps, decide_True by done.
    rewrite Hw1. simpl. rewrite Hx. simpl. eexists. split; [done|]. done.
Qed.

(** X15: [addPass(x)] of a pass that is not listed gives the pass the
    renderer and the timer of the pipeline.  When the pipeline has a
    renderer the base size of the resolution of the pass becomes the size
    of the drawing buffer of that renderer as it is, whatever the
    resolution of the pipeline says; without a renderer the base size is
    left as it was.  The name, the enable flag and the scale of the pass,
    the other passes and the renderers are not changed, and the IO manager
    is updated once. *)
Theorem addPass_registers (pl x : nat) (w : World) (this : RenderPipeline)
  (p : Pass.t) :
  pipelines w !! pl = Some this → passes w !! x = Some p →
  x ∉ _passes this →
  ∃ w' p',
    addPass device_pixels pl x w = (Normal, w') ∧
    passes w' !! x = Some p' ∧
    Pass.handles p' = (_renderer this, Some pl) ∧
    Pass.name p' = Pass.name p ∧ Pass.enabled p' = Pass.enabled p ∧
    Resolution.scale (Pass.resolution p') =
      Resolution.scale (Pass.resolution p) ∧
    (∀ r R, _renderer this = Some r → renderers w !! r = Some R →
       Pass.baseSize p' =
         WebGLRenderer.getDrawingBufferSize device_pixels R) ∧
    (_renderer this = None → Pass.baseSize p' = Pass.baseSize p) ∧
    (∀ y, y ≠ x → passes w' !! y = passes w !! y) ∧
    renderers w' = renderers w ∧
    events w' = events w ++ [IOManagerUpdate].
Proof.
  intros Hpl Hx Hnin. unfold addPass. rewrite Hpl.
  rewrite bool_decide_eq_false_2 by (by rewrite indexOf_is_Some).
  destruct (registerPass_frame device_pixels pl x w) as (Hr & _ & He).
  eexists. simpl.
  assert (∃ p', passes (registerPass device_pixels pl x w) !! x = Some p' ∧
    Pass.handles p' = (_renderer this, Some pl) ∧
    Pass.name p' = Pass.name p ∧ Pass.enabled p' = Pass.enabled p ∧
    Resolution.scale (Pass.resolution p') =
      Resolution.scale (Pass.resolution p) ∧
    (∀ r R, _renderer this = Some r → renderers w !! r = Some R →
       Pass.baseSize p' =
         WebGLRenderer.getDrawingBufferSize device_pixels R) ∧
    (_renderer this = None → Pass.baseSize p' = Pass.baseSize p))
    as (p' & Hx' & Hrest).
  { unfold registerPass. rewrite Hpl.
    destruct (_renderer this) as [r|] eqn:Hren;
      [destruct (renderers w !! r) as [R|] eqn:HR|]; simpl;
      rewrite ?lookup_alter_eq, Hx; simpl; eexists; (split; [done|]);
      (split; [done|]); (split; [done|]); (split; [done|]);
      (split; [done|]); split; try done.
    - intros r' R' [= <-]. rewrite HR. by intros [= <-].
    - intros r' R' [= <-]. by rewrite HR. }
  exists p'. split; [done|]. split; [done|].
  destruct Hrest as (? & ? & ? & ? & ? & ?).
  split; [done|]. split; [done|]. split; [done|]. split; [done|].
  split; [done|]. split; [done|]. split.
  - intros y Hne. by apply registerPass_lookup_ne.
  - split; [exact Hr|].
    change (events (registerPass device_pixels pl x w) ++ [IOManagerUpdate]
            = events w ++ [IOManagerUpdate]).
    by rewrite He.
Qed.

Lemma call_list_step (c : Call) (w : World) (pl : nat)
  (this : RenderPipeline) :
  consistent w → permitted c w = true → pipelines w !! pl = Some this →
  ∃ this', pipelines (call device_pixels initial_base c w) !! pl = Some this' ∧
    _passes this' = list_step pl c (_passes this).
Proof.
  intros Hcons Hperm Hpl.
  destruct c as [rw rh pr|nm en sc|ren|x b|pl' v|pl' x|pl' x|pl'|pl' ts
                |pl' W H st|pl']; simpl in *.
  - by exists this.
  - by exists this.
  - exists this. split; [|done]. rewrite lookup_insert_ne; [done|].
    intros Heq. assert (pipelines w !! next_pipeline w = None) as Hfresh.
    { unfold next_pipeline. apply not_elem_of_dom, is_fresh. }
    congruence.
  - by exists this.
  - assert (is_Some (pipelines w !! pl')) as [this' Hpl'].
    { destruct v; [apply andb_true_iff in Hperm as [Hperm _]|];
        by apply bool_decide_eq_true in Hperm. }
    destruct (set_renderer_effect device_pixels pl' v w this' Hpl')
      as [-> _].
    rewrite lookup_alter. case_decide; [subst|by exists this].
    rewrite Hpl. by eexists.
  - apply andb_true_iff in Hperm as [Hperm _].
    apply andb_true_iff in Hperm as [Hperm _].
    apply bool_decide_eq_true in Hperm as [this' Hpl'].
    destruct (decide (pl' = pl)) as [->|Hne].
    + rewrite Hpl in Hpl'. injection Hpl' as <-.
      destruct (decide (x ∈ _passes this)) as [Hin|Hnin].
      * destruct (proj1 (addPass_effect device_pixels pl x w this Hpl) Hin)
          as [msg ->].
        by exists this.
      * destruct (proj2 (addPass_effect device_pixels pl x w this Hpl) Hnin)
          as (w' & -> & Hat & _).
        simpl. rewrite Hat. by eexists.
    + destruct (decide (x ∈ _passes this')) as [Hin|Hnin].
      * destruct (proj1 (addPass_effect device_pixels pl' x w this' Hpl') Hin)
          as [msg ->].
        by exists this.
      * destruct (proj2 (addPass_effect device_pixels pl' x w this' Hpl') Hnin)
          as (w' & -> & _ & Hother).
        simpl. rewrite Hother by done. by exists this.
  - apply andb_true_iff in Hperm as [Hperm _].
    apply bool_decide_eq_true in Hperm as [this' Hpl'].
    destruct (removePass_effect pl' x w this' Hpl') as [Hsame Hrem].
    destruct (decide (pl' = pl)) as [->|Hne].
    + rewrite Hpl in Hpl'. injection Hpl' as <-.
      destruct (decide (x ∈ _passes this)) as [Hin|Hnin].
      * destruct (Hrem Hin) as (i & Hi & -> & _).
        rewrite lookup_alter_eq, Hpl. simpl. eexists. split; [done|].
        simpl. apply NoDup_delete_filter; [|done].
        destruct Hcons as [Hatt _]. by destruct (Hatt _ _ Hpl).
      * rewrite Hsame by done. exists this. split; [done|].
        symmetry. apply filter_all. by intros y Hy ->.
    + destruct (decide (x ∈ _passes this')) as [Hin|Hnin].
      * destruct (Hrem Hin) as (i & _ & -> & _).
        rewrite lookup_alter_ne by done. by exists this.
      * rewrite Hsame by done. by exists this.
  - apply bool_decide_eq_true in Hperm as [this' Hpl'].
    destruct (removeAllPasses_effect pl' w this' Hpl') as [-> _].
    rewrite lookup_alter.
    case_decide; [subst|by exists this]. rewrite Hpl. by eexists.
  - destruct (render_frame pl' ts w) as (_ & _ & ->). by exists this.
  - apply bool_decide_eq_true in Hperm as [this' Hpl'].
    destruct (setSize_pipeline device_pixels pl' W H st w this' Hpl')
      as [Hat Hother].
    destruct (decide (pl' = pl)) as [->|Hne].
    + rewrite Hat. rewrite Hpl in Hpl'. injection Hpl' as <-. by eexists.
    + rewrite Hother by congruence. by exists this.
  - apply bool_decide_eq_true in Hperm as [this' Hpl'].
    destruct (dispose_effect pl' w this' Hpl') as [-> _].
    rewrite lookup_alter.
    case_decide; [subst|by exists this]. rewrite Hpl. by eexists.
Qed.

(** X16: over any sequence of permitted calls, the pass list of a pipeline
    is what the calls say when they are read as operations on a list
    without repetitions: [addPass(x)] adds [x] at the end unless it is
    there, [removePass(x)] takes every [x] out, [removeAllPasses()] and
    [dispose()] empty the list, and no other call, and no call on another
    pipeline, changes it.  No pass is ever listed twice, and the pipeline
    is never lost. *)
Theorem pass_list_follows_calls (cs : list Call) (w w' : World) (pl : nat)
  (this : RenderPipeline) :
  consistent w → run device_pixels initial_base cs w = Some w' →
  pipelines w !! pl = Some this →
  ∃ this', pipelines w' !! pl = Some this' ∧
    _passes this' = foldl (λ l c, list_step pl c l) (_passes this) cs ∧
    NoDup (_passes this').
Proof.
  revert w this. induction cs as [|c cs IH]; intros w this Hcons Hrun Hpl;
    simpl in Hrun.
  - injection Hrun as <-. exists this. split; [done|]. split; [done|].
    destruct Hcons as [Hatt _]. by destruct (Hatt _ _ Hpl).
  - destruct (permitted c w) eqn:Hperm; [|done].
    destruct (call_list_step c w pl this Hcons Hperm Hpl)
      as (this1 & Hpl1 & Hl1).
    destruct (IH _ this1 (consistent_call device_pixels initial_base c w
                            Hperm Hcons) Hrun Hpl1)
      as (this' & Hpl' & Hl' & Hnd).
    exists this'. split; [done|]. split; [|done].
    simpl. by rewrite <- Hl1.
Qed.

(** X17: a second [setSize(W, H, updateStyle)] with the same arguments
    changes nothing and calls nobody, whether or not the pipeline has a
    renderer: the resolution has the base size already and sends no change
    notification, so the renderer is not resized again and nothing is
    logged again. *)
Theorem setSize_twice (pl : nat) (W H : Z) (style : option bool) (w : World) :
  setSize device_pixels pl W H style (setSize device_pixels pl W H style w)
  = setSize device_pixels pl W H style w.
Proof.
  destruct (pipelines w !! pl) as [this|] eqn:Hpl.
  - destruct (setSize_pipeline device_pixels pl W H style w this Hpl)
      as [Hpl1 _].
    rewrite (setSize_unfold _ _ _ _ _ _ _ Hpl1).
    assert (Resolution.changes_baseSize W H
              (resolution
                 (set_resolution
                    (Resolution.setBaseSize W H (resolution this))
                    (set_updateStyle (default true style) this))) = false)
      as ->.
    { unfold Resolution.changes_baseSize. simpl. by rewrite !Z.eqb_refl. }
    apply world_eq; try done. simpl.
    rewrite (alter_as_insert _ _ _ _ Hpl1). apply insert_id.
    rewrite Hpl1. reflexivity.
  - assert (setSize device_pixels pl W H style w = w) as Hid;
      [|by rewrite !Hid].
    + unfold setSize, resolution_setBaseSize. simpl.
      rewrite lookup_alter_eq, Hpl. simpl. apply world_eq; try done. simpl.
      apply map_eq. intros j. rewrite lookup_alter. case_decide; [|done].
      subst. by rewrite Hpl.
Qed.

End RenderPipelineMore.

Section RenderPipelineMoreExamples.

Import RenderPipeline.

Lemma backstage_pipeline_lookup :
  pipelines backstage !! 0 = Some backstage_pipeline.
Proof. vm_compute. reflexivity. Defined.

Lemma backstage_clear_lookup : passes backstage !! 0 = Some backstage_clear.
Proof. vm_compute. reflexivity. Defined.

Lemma studio_consistent : consistent studio.
Proof.
  apply (consistent_run Math_round (1, 1)%Z studio_calls empty studio).
  - apply consistent_empty.
  - vm_compute. reflexivity.
Defined.

Lemma backstage_renderer_lookup :
  renderers backstage !! 0 = Some studio_renderer.
Proof. vm_compute. reflexivity. Defined.

Lemma studio_with_copy_pipeline :
  pipelines studio_with_copy !! 0 = Some studio_pipeline.
Proof. vm_compute. reflexivity. Defined.

Lemma studio_with_copy_renderer :
  renderers studio_with_copy !! 0 = Some studio_renderer.
Proof. vm_compute. reflexivity. Defined.

Lemma studio_with_copy_pass : passes studio_with_copy !! 2 = Some copy_pass.
Proof. vm_compute. reflexivity. Defined.

Lemma removePass_spec_witness :
  removePass 0 1 studio =
  {| renderers := renderers studio;
     passes :=
       alter (λ p, Pass.set_timer None (Pass.set_renderer None p)) 1
         (passes studio);
     pipelines := <[0 := set__passes ([0] ++ []) studio_pipeline]>
                    (pipelines studio);
     events := events studio ++ [IOManagerUpdate] |}.
Proof.
  refine (proj2 (removePass_spec 0 1 studio studio_pipeline
                   studio_pipeline_lookup) [0] [] eq_refl _).
  intros Hin. apply list_elem_of_In in Hin. simpl in Hin.
  destruct Hin as [Hin|[]]. discriminate Hin.
Defined.

(** A pass that is not listed: nothing happens, the IO manager included. *)
Example removePass_absent :
  removePass 0 0 (removePass 0 0 studio) = removePass 0 0 studio.
Proof. vm_compute. reflexivity. Qed.

Lemma removeAllPasses_spec_witness :
  events (removeAllPasses 0 studio) = events studio ++ [IOManagerUpdate].
Proof.
  exact (proj1 (proj2 (proj2 (removeAllPasses_spec 0 studio studio_pipeline
                                studio_pipeline_lookup)))).
Defined.

Lemma dispose_spec_witness :
  events (dispose 0 studio) =
  events studio ++
  [IOManagerRemovePipeline 0; PassDispose 0; PassDispose 1; IOManagerUpdate;
   TimerDispose 0].
Proof.
  exact (proj1 (proj2 (proj2 (dispose_spec 0 studio studio_pipeline
                                studio_pipeline_lookup)))).
Defined.

Lemma renderer_detach_spec_witness :
  render 0 (Some 16%Q) (set_renderer Math_round 0 None studio) =
  set_renderer Math_round 0 None studio.
Proof.
  exact (proj1 (proj2 (proj2 (proj2 (proj2
           (renderer_detach_spec Math_round 0 studio studio_pipeline
              studio_pipeline_lookup))))) (Some 16%Q)).
Defined.

Lemma renderer_attach_spec_witness :
  ∃ R',
    renderers (set_renderer Math_round 0 (Some 0) backstage) !! 0 = Some R' ∧
    WebGLRenderer.getSize R' = (1, 1)%Z ∧
    ∃ p', passes (set_renderer Math_round 0 (Some 0) backstage) !! 0
          = Some p' ∧
      Pass.renderer p' = Some 0 ∧ Pass.timer p' = Some 0 ∧
      Pass.baseSize p' = WebGLRenderer.getDrawingBufferSize Math_round R'.
Proof.
  destruct (renderer_attach_spec Math_round 0 0 backstage backstage_pipeline
              studio_renderer backstage_pipeline_lookup
              backstage_renderer_lookup)
    as (R' & _ & HR' & Hsize & _ & _ & _ & Hps & _).
  exists R'. split; [exact HR'|]. split; [exact Hsize|].
  apply (Hps 0 backstage_clear); [|exact backstage_clear_lookup].
  apply list_elem_of_In. simpl. left. reflexivity.
Defined.

(** The renderer of logical size 300×150 is cut down to the 1×1 of the
    resolution that the pipeline was made with. *)
Example attach_resizes_the_renderer :
  renderers (set_renderer Math_round 0 (Some 0) backstage) !! 0 =
  Some (WebGLRenderer.setSize 1 1 true studio_renderer) ∧
  events (set_renderer Math_round 0 (Some 0) backstage) =
  events backstage ++ [RendererSetSize 0 1 1 true; IOManagerUpdate].
Proof. vm_compute. done. Qed.

Lemma setSize_deferred_witness :
  setSize Math_round 0 800 600 (Some false) backstage =
  {| renderers := renderers backstage; passes := passes backstage;
     pipelines :=
       <[0 := set_resolution
                (Resolution.setBaseSize 800 600 (resolution backstage_pipeline))
                (set_updateStyle false backstage_pipeline)]>
         (pipelines backstage);
     events :=
       events backstage ++
       [LogDebug
          "Unable to update the render size because the renderer is null"]
  |}.
Proof.
  exact (proj1 (setSize_deferred Math_round 0 800 600 (Some false) backstage
                  backstage_pipeline backstage_pipeline_lookup eq_refl)).
Defined.

Example deferred_size_reaches_the_renderer :
  WebGLRenderer.getSize <$>
    renderers
      (set_renderer Math_round 0 (Some 0)
         (setSize Math_round 0 800 600 (Some false) backstage)) !! 0
  = Some (800, 600)%Z.
Proof. vm_compute. reflexivity. Qed.

Lemma addPass_registers_witness :
  ∃ w' p',
    addPass Math_round 0 2 studio_with_copy = (Normal, w') ∧
    passes w' !! 2 = Some p' ∧
    Pass.handles p' = (Some 0, Some 0) ∧
    Pass.baseSize p' =
      WebGLRenderer.getDrawingBufferSize Math_round studio_renderer.
Proof.
  destruct (addPass_registers Math_round 0 2 studio_with_copy studio_pipeline
              copy_pass studio_with_copy_pipeline studio_with_copy_pass)
    as (w' & p' & Hadd & Hp' & Hh & _ & _ & _ & Hsize & _).
  - intros Hin. apply list_elem_of_In in Hin. simpl in Hin.
    destruct Hin as [Hin|[Hin|[]]]; discriminate Hin.
  - exists w', p'. split; [exact Hadd|]. split; [exact Hp'|].
    split; [exact Hh|].
    exact (Hsize 0 studio_renderer eq_refl studio_with_copy_renderer).
Defined.

(** The pass gets 450×225, the drawing buffer of the renderer, and not
    the 1×1 of the resolution of the pipeline. *)
Example addPass_takes_the_drawing_buffer :
  (λ w', Pass.baseSize <$> passes w' !! 2)
    (addPass Math_round 0 2 studio_with_copy).2
  = Some (450, 225)%Z.
Proof. vm_compute. reflexivity. Qed.

Lemma pass_list_follows_calls_witness :
  ∃ this',
    pipelines
      (default empty
         (run Math_round (1, 1)%Z [RemovePass 0 0; AddPass 0 0] studio)) !! 0
    = Some this' ∧
    _passes this' =
      foldl (λ l c, list_step 0 c l) [0; 1] [RemovePass 0 0; AddPass 0 0] ∧
    NoDup (_passes this').
Proof.
  refine (pass_list_follows_calls Math_round (1, 1)%Z
            [RemovePass 0 0; AddPass 0 0] studio _ 0 studio_pipeline
            studio_consistent _ studio_pipeline_lookup).
  vm_compute. reflexivity.
Defined.

(** Without a renderer the first call logs and the second does not. *)
Example setSize_twice_detached :
  let w1 := setSize WebGLRenderer.floor_pixels 0 800 600 None backstage in
  length (events w1) = S (length (events backstage)) ∧
  events (setSize WebGLRenderer.floor_pixels 0 800 600 None w1) = events w1.
Proof. vm_compute. done. Qed.

End RenderPipelineMoreExamples.

(** ** [HalftoneEffect] *)

Section HalftoneEffectFacts.

Import HalftoneEffect.

Lemma call_unfold (c : Call) (this : HalftoneEffect) :
  call c this = set_uniform_value (target c) (assigned c) this.
Proof. by destruct c. Qed.

Lemma call_step (c : Call) (this : HalftoneEffect) :
  declared this →
  ∃ this', call c this = Some this' ∧ declared this' ∧
    blendFunction this' = blendFunction this ∧
    ScanlineEffect.fragmentShader (super this') =
      ScanlineEffect.fragmentShader (super this) ∧
    ScanlineEffect.defines (super this') = ScanlineEffect.defines (super this) ∧
    ScanlineEffect.changed (super this') = ScanlineEffect.changed (super this) ∧
    ∀ key, uniform_value key this' =
      (λ v, if decide (target c = key) then assigned c else v)
        <$> uniform_value key this.
Proof.
  intros Hd. rewrite call_unfold. unfold set_uniform_value.
  destruct (Hd c) as [u Hu]. rewrite Hu. eexists. split; [done|].
  split; [|repeat (split; [done|])].
  - intros c'. simpl. destruct (decide (target c = target c')) as [<-|Hne].
    + by rewrite lookup_insert_eq.
    + rewrite lookup_insert_ne by done. apply Hd.
  - intros key. unfold uniform_value. simpl.
    destruct (decide (target c = key)) as [<-|Hne].
    + by rewrite lookup_insert_eq, Hu.
    + rewrite lookup_insert_ne by done.
      by destruct (ScanlineEffect.uniforms (super this) !! key).
Qed.

Lemma calls_steps (cs : list Call) (this : HalftoneEffect) :
  declared this →
  ∃ this', calls cs this = Some this' ∧ declared this' ∧
    blendFunction this' = blendFunction this ∧
    ScanlineEffect.fragmentShader (super this') =
      ScanlineEffect.fragmentShader (super this) ∧
    ScanlineEffect.defines (super this') = ScanlineEffect.defines (super this) ∧
    ScanlineEffect.changed (super this') = ScanlineEffect.changed (super this) ∧
    ∀ key, uniform_value key this' =
      last_assigned key cs <$> uniform_value key this.
Proof.
  revert this. induction cs as [|c cs IH]; intros this Hd.
  - exists this. repeat (split; [done|]). intros key. unfold last_assigned.
    simpl. by destruct (uniform_value key this).
  - destruct (call_step c this Hd)
      as (this1 & Hcall & Hd1 & Hb1 & Hf1 & Hm1 & Hc1 & Hu1).
    destruct (IH this1 Hd1) as (this' & Hcalls & Hd' & Hb & Hf & Hm & Hc & Hu).
    exists this'. split; [simpl; by rewrite Hcall|]. split; [done|].
    split; [congruence|]. split; [congruence|]. split; [congruence|].
    split; [congruence|].
    intros key. rewrite Hu, Hu1. unfold last_assigned. simpl.
    by destruct (uniform_value key this).
Qed.

Lemma calls_frame (cs : list Call) (this0 this : HalftoneEffect) :
  calls cs this0 = Some this →
  ScanlineEffect.resolution (super this) =
    ScanlineEffect.resolution (super this0) ∧
  ∀ key, (∀ c, target c ≠ key) →
    ScanlineEffect.uniforms (super this) !! key =
    ScanlineEffect.uniforms (super this0) !! key.
Proof.
  revert this0. induction cs as [|c cs IH]; intros this0; simpl.
  - by intros [= <-].
  - rewrite call_unfold. unfold set_uniform_value.
    destruct (ScanlineEffect.uniforms (super this0) !! target c); [|done].
    simpl. intros Hcalls. destruct (IH _ Hcalls) as [Hr Hk].
    split; [done|]. intros key Hkey. rewrite Hk by done. simpl.
    by rewrite lookup_insert_ne.
Qed.

Section Shape.

Variable ELLIPSE : UniformValue.

Lemma constructor_declared (options : HalftoneEffectOptions) (shader : string)
  (base : ScanlineEffect.Effect) :
  declared (constructor ELLIPSE options shader base).
Proof.
  intros c. unfold constructor. simpl.
  destruct c; simpl;
    repeat (first [by rewrite lookup_insert_eq
                  |rewrite lookup_insert_ne by done]).
Qed.

Lemma constructor_values (options : HalftoneEffectOptions) (shader : string)
  (base : ScanlineEffect.Effect) :
  let this := constructor ELLIPSE options shader base in
  uniform_value "radius" this =
    Some (VNumber (default 10%Q (opt_radius options))) ∧
  uniform_value "scatter" this =
    Some (VNumber (default 0%Q (opt_scatter options))) ∧
  uniform_value "rotateR" this =
    Some (VNumber (default 14%Q (opt_rotateR options))) ∧
  uniform_value "rotateG" this =
    Some (VNumber (default 45%Q (opt_rotateG options))) ∧
  uniform_value "rotateB" this =
    Some (VNumber (default 30%Q (opt_rotateB options))) ∧
  uniform_value "shape" this = Some (default ELLIPSE (opt_shape options)).
Proof.
  unfold uniform_value, constructor. simpl.
  repeat split;
    repeat (first [by rewrite lookup_insert_eq
                  |rewrite lookup_insert_ne by done]).
Qed.

(** X18: after [new HalftoneEffect(options)] and any sequence of
    assignments through the six setters, no assignment has failed, and each
    getter returns the value of the last assignment through its own setter
    or, when there was none, the option given to the constructor or its
    default (radius 10, rotations 14, 45 and 30, scatter 0, shape
    [ELLIPSE]).  The setters write a uniform each and nothing else: the
    blend function is still the overlay function that the constructor
    chose, and the shader text, the macros, the count of change signals
    and every other uniform are as the constructor left them. *)
Theorem accessors_return_last_assignment (options : HalftoneEffectOptions)
  (shader : string) (base : ScanlineEffect.Effect) (cs : list Call) :
  ∃ this,
    calls cs (constructor ELLIPSE options shader base) = Some this ∧
    radius this =
      Some (last_assigned "radius" cs
              (VNumber (default 10%Q (opt_radius options)))) ∧
    scatter this =
      Some (last_assigned "scatter" cs
              (VNumber (default 0%Q (opt_scatter options)))) ∧
    rotateR this =
      Some (last_assigned "rotateR" cs
              (VNumber (default 14%Q (opt_rotateR options)))) ∧
    rotateG this =
      Some (last_assigned "rotateG" cs
              (VNumber (default 45%Q (opt_rotateG options)))) ∧
    rotateB this =
      Some (last_assigned "rotateB" cs
              (VNumber (default 30%Q (opt_rotateB options)))) ∧
    shape this =
      Some (last_assigned "shape" cs (default ELLIPSE (opt_shape options))) ∧
    blendFunction this = OverlayBlendFunction ∧
    ScanlineEffect.fragmentShader (super this) = shader ∧
    ScanlineEffect.defines (super this) = ScanlineEffect.defines base ∧
    ScanlineEffect.changed (super this) = ScanlineEffect.changed base ∧
    ScanlineEffect.resolution (super this) = ScanlineEffect.resolution base ∧
    ∀ key, (∀ c, target c ≠ key) →
      ScanlineEffect.uniforms (super this) !! key =
      ScanlineEffect.uniforms base !! key.
Proof.
  destruct (calls_steps cs _ (constructor_declared options shader base))
    as (this & Hcalls & _ & Hb & Hf & Hm & Hc & Hu).
  exists this. split; [done|].
  unfold radius, scatter, rotateR, rotateG, rotateB, shape.
  rewrite !Hu.
  destruct (calls_frame cs _ _ Hcalls) as [Hr Hk].
  destruct (constructor_values options shader base)
    as (-> & -> & -> & -> & -> & ->).
  split; [done|]. split; [done|]. split; [done|]. split; [done|].
  split; [done|]. split; [done|]. split; [done|]. split; [done|].
  split; [done|]. split; [done|]. split; [done|].
  intros key Hkey. rewrite Hk by done. unfold constructor. simpl.
  rewrite !lookup_insert_ne; [done|..].
  - exact (Hkey (SetRadius 0)).
  - exact (Hkey (SetRotateR 0)).
  - exact (Hkey (SetRotateG 0)).
  - exact (Hkey (SetRotateB 0)).
  - exact (Hkey (SetScatter 0)).
  - exact (Hkey (SetShape VNull)).
Qed.

End Shape.

End HalftoneEffectFacts.
